(** * The serial bridge of the agent backend (src/agent_backend/src/main.py)

  A shallow embedding of the bridge loop of [main]: the framing of the
  bytes read from the PTY into newline-terminated records, the JSON
  envelope codec, the dispatch of ["task"] envelopes, the classification
  of the result by GUI tag, and the chunked, paced write of the reply.

  Python values are modelled as the code has them: a [str] is a sequence
  of Unicode code points, [bytes] a sequence of byte values, the result
  of [json.loads] a tree of dicts, lists and scalars.  Console output
  is not part of the trace; the [print]s that show the data of a record
  outside every [try] (lines 109 and 115) raise on some data, which
  ends the loop, and the model says when.

  The model comes first: [Str], [Utf8], [Framer], [Json], [Bridge], and
  in [Spec] the words in which the properties are stated.  The
  properties follow: the framer and the cuts between reads (C4), the
  target of the replies (C10), disconnection and recovery (C7), the
  paced writer (C9, C3), the classification by tag (C6), records and
  replies (C5, C2, C1), the codec (C8), and the fuel of the decoder.

  Around the loop, the model also holds the start of [main] with
  [find_qemu_pty] ([Startup]), the streaming writers of the chess and
  psychology tools and the result of the chess battle ([Stream]), the
  shell tool ([Shell]), the analysis of a chess game ([ChessAnalysis]),
  the echo bridge ([PtyEcho]) and the pipe bridge of the prototype
  ([KernelBridge]); their properties (X1 to X27) close the file. *)

From Stdlib Require Import Ascii String.
From Stdlib Require Import List NArith ZArith Lia Bool Arith.
From Stdlib Require DecimalFacts DecimalPos DecimalN.
Import ListNotations.

Set Implicit Arguments.
Set Warnings "-register-all".

(** ** Python [str]: sequences of code points *)

Module Str.

Definition str := list N.

(** A literal: the code points of an ASCII string constant. *)
Definition U (s : string) : str :=
  map N_of_ascii (list_ascii_of_string s).
Arguments U s%_string.

Definition NL : N := 10.      (* '\n' *)
Definition QUOTE : N := 34.   (* the double quote *)
Definition BSLASH : N := 92.  (* the backslash *)

Fixpoint eqb (a b : str) : bool :=
  match a, b with
  | [], [] => true
  | x :: a', y :: b' => N.eqb x y && eqb a' b'
  | _, _ => false
  end.

(** [s.startswith(p)] *)
Fixpoint startswith (p s : str) : bool :=
  match p, s with
  | [], _ => true
  | x :: p', y :: s' => N.eqb x y && startswith p' s'
  | _ :: _, [] => false
  end.

(** [p in s] for strings: [p] occurs in [s] as a substring. *)
Fixpoint contains (p s : str) : bool :=
  startswith p s || match s with
                    | [] => false
                    | _ :: s' => contains p s'
                    end.

(** [c in s] for a single character. *)
Definition has_char (c : N) (s : str) : bool := existsb (N.eqb c) s.

(** [str.isspace] on one code point: the characters [str.strip()]
    removes. *)
Definition is_space (c : N) : bool :=
  ((9 <=? c) && (c <=? 13) || (28 <=? c) && (c <=? 32)
   || (c =? 133) || (c =? 160) || (c =? 5760)
   || (8192 <=? c) && (c <=? 8202)
   || (c =? 8232) || (c =? 8233) || (c =? 8239) || (c =? 8287)
   || (c =? 12288))%N.

Fixpoint lstrip (s : str) : str :=
  match s with
  | [] => []
  | c :: s' => if is_space c then lstrip s' else s
  end.

Definition rstrip (s : str) : str := rev (lstrip (rev s)).

(** [s.strip()] *)
Definition strip (s : str) : str := rstrip (lstrip s).

(** [line, rest = s.split('\n', 1)], defined when ['\n' in s]. *)
Fixpoint split1 (s : str) : option (str * str) :=
  match s with
  | [] => None
  | c :: s' =>
      if N.eqb c NL then Some ([], s')
      else match split1 s' with
           | Some (l, r) => Some (c :: l, r)
           | None => None
           end
  end.

(** [s.replace(p, '')]: the occurrences of [p] are removed, scanning
    from the left and skipping each occurrence found.  [skip] counts the
    characters of an occurrence still to be dropped. *)
Fixpoint remove_from (p : str) (skip : nat) (s : str) : str :=
  match s with
  | [] => []
  | c :: s' =>
      match skip with
      | S k => remove_from p k s'
      | O => if startswith p s then remove_from p (length p - 1) s'
             else c :: remove_from p 0 s'
      end
  end.

Definition remove (p s : str) : str :=
  match p with
  | [] => s
  | _ => remove_from p 0 s
  end.

(** The lower-casing of the ASCII letters; [str.lower] agrees with it on
    ASCII text. *)
Definition ascii_lower_char (c : N) : N :=
  if ((65 <=? c) && (c <=? 90))%N then (c + 32)%N else c.

Definition ascii_lower (s : str) : str := map ascii_lower_char s.

(** [s[i:j]] for [0 <= i <= j]. *)
Definition slice (s : str) (i j : nat) : str := firstn (j - i) (skipn i s).

(** [range(0, n, step)], generated as the interpreter does, one index at
    a time; [fuel] bounds the number of indices. *)
Fixpoint range_from (fuel i n step : nat) : list nat :=
  match fuel with
  | O => []
  | S f => if i <? n then i :: range_from f (i + step) n step else []
  end.

Definition range (n step : nat) : list nat := range_from n 0 n step.

End Str.

Import Str.

(** ** UTF-8 *)

Module Utf8.

Definition bytes := list N.

Definition is_cont (b : N) : bool := ((128 <=? b) && (b <=? 191))%N.

(** The second byte allowed after the lead byte [b0] of a three-byte
    sequence: [E0] excludes overlong forms, [ED] excludes surrogates. *)
Definition second3_ok (b0 b1 : N) : bool :=
  (is_cont b1
   && (if b0 =? 224 then 160 <=? b1 else true)
   && (if b0 =? 237 then b1 <=? 159 else true))%N.

(** The second byte allowed after the lead byte [b0] of a four-byte
    sequence: [F0] excludes overlong forms, [F4] stays below 0x110000. *)
Definition second4_ok (b0 b1 : N) : bool :=
  (is_cont b1
   && (if b0 =? 240 then 144 <=? b1 else true)
   && (if b0 =? 244 then b1 <=? 143 else true))%N.

Definition cp2 (b0 b1 : N) : N := ((b0 - 192) * 64 + (b1 - 128))%N.
Definition cp3 (b0 b1 b2 : N) : N :=
  ((b0 - 224) * 4096 + (b1 - 128) * 64 + (b2 - 128))%N.
Definition cp4 (b0 b1 b2 b3 : N) : N :=
  ((b0 - 240) * 262144 + (b1 - 128) * 4096 + (b2 - 128) * 64 + (b3 - 128))%N.

(** [data.decode('utf-8', errors='ignore')]: well-formed sequences give
    their code point; an ill-formed sequence is dropped up to the byte
    that broke it, and decoding resumes at that byte; a sequence cut by
    the end of the data is dropped. *)
Fixpoint decode_ignore (bs : bytes) : str :=
  match bs with
  | [] => []
  | b0 :: t0 =>
      if (b0 <? 128)%N then b0 :: decode_ignore t0
      else if (b0 <? 194)%N then decode_ignore t0
      else if (b0 <? 224)%N then
        match t0 with
        | [] => []
        | b1 :: t1 =>
            if is_cont b1 then cp2 b0 b1 :: decode_ignore t1
            else decode_ignore t0
        end
      else if (b0 <? 240)%N then
        match t0 with
        | [] => []
        | b1 :: t1 =>
            if second3_ok b0 b1 then
              match t1 with
              | [] => []
              | b2 :: t2 =>
                  if is_cont b2 then cp3 b0 b1 b2 :: decode_ignore t2
                  else decode_ignore t1
              end
            else decode_ignore t0
        end
      else if (b0 <? 245)%N then
        match t0 with
        | [] => []
        | b1 :: t1 =>
            if second4_ok b0 b1 then
              match t1 with
              | [] => []
              | b2 :: t2 =>
                  if is_cont b2 then
                    match t2 with
                    | [] => []
                    | b3 :: t3 =>
                        if is_cont b3
                        then cp4 b0 b1 b2 b3 :: decode_ignore t3
                        else decode_ignore t2
                    end
                  else decode_ignore t1
              end
            else decode_ignore t0
        end
      else decode_ignore t0
  end.

(** The encoding of one code point; a surrogate (or a value that is no
    code point) has none: [str.encode] raises [UnicodeEncodeError]. *)
Definition encode_char (c : N) : option bytes :=
  if (c <? 128)%N then Some [c]
  else if (c <? 2048)%N then Some [192 + c / 64; 128 + c mod 64]%N
  else if (c <? 65536)%N then
    if ((55296 <=? c) && (c <=? 57343))%N then None
    else Some [224 + c / 4096; 128 + (c / 64) mod 64; 128 + c mod 64]%N
  else if (c <? 1114112)%N then
    Some [240 + c / 262144; 128 + (c / 4096) mod 64;
          128 + (c / 64) mod 64; 128 + c mod 64]%N
  else None.

(** [s.encode('utf-8')] *)
Fixpoint encode (s : str) : option bytes :=
  match s with
  | [] => Some []
  | c :: s' =>
      match encode_char c, encode s' with
      | Some b, Some bs => Some (b ++ bs)
      | _, _ => None
      end
  end.

End Utf8.

Import Utf8.

(** ** The line framer

  The bridge keeps the text read so far in [read_buffer] and, while it
  holds a newline, splits the first line off:

    while '\n' in read_buffer:
        line, read_buffer = read_buffer.split('\n', 1)
        line = line.strip()
        if not line: continue
        ...                                                          *)

Module Framer.

(** All the lines the [while] loop splits off [buf], in order, and what
    is left in [read_buffer] when the loop ends. *)
Fixpoint split_lines (buf : str) : list str * str :=
  match buf with
  | [] => ([], [])
  | c :: buf' =>
      let (ls, rest) := split_lines buf' in
      if N.eqb c NL then ([] :: ls, rest)
      else match ls with
           | [] => ([], c :: rest)
           | l :: ls' => ((c :: l) :: ls', rest)
           end
  end.

Definition is_empty (s : str) : bool :=
  match s with [] => true | _ => false end.

(** The lines that reach the decoder: stripped, the empty ones skipped. *)
Definition records_of (ls : list str) : list str :=
  filter (fun l => negb (is_empty l)) (map strip ls).

(** One read: [read_buffer += data.decode('utf-8', errors='ignore')],
    then the loop above.  Returns the new buffer and the records. *)
Definition feed (buf : str) (data : bytes) : str * list str :=
  let (ls, rest) := split_lines (buf ++ decode_ignore data) in
  (rest, records_of ls).

(** A sequence of reads, the buffer carried from one to the next. *)
Fixpoint feed_all (buf : str) (reads : list bytes) : str * list str :=
  match reads with
  | [] => (buf, [])
  | d :: ds =>
      let (buf1, rs1) := feed buf d in
      let (buf2, rs2) := feed_all buf1 ds in
      (buf2, rs1 ++ rs2)
  end.

End Framer.

Import Framer.

(** ** JSON: the values [json.loads] builds, [json.dumps], [json.loads] *)

Module Json.

(** The Python values a JSON text decodes to.  A float is kept as the
    text of its literal: the bridge never computes with one. *)
Inductive pyval :=
| PNone
| PBool (b : bool)
| PInt (z : Z)
| PFloat (lexeme : str)
| PStr (s : str)
| PList (l : list pyval)
| PDict (d : list (str * pyval)).

(** A [dict] with [str] keys, in insertion order. *)
Definition dict := list (str * pyval).

(** [d.get(k)] *)
Fixpoint dict_get (d : dict) (k : str) : option pyval :=
  match d with
  | [] => None
  | (k', v) :: d' => if Str.eqb k' k then Some v else dict_get d' k
  end.

(** [d[k] = v]: an existing key keeps its place. *)
Fixpoint dict_set (d : dict) (k : str) (v : pyval) : dict :=
  match d with
  | [] => [(k, v)]
  | (k', v') :: d' =>
      if Str.eqb k' k then (k', v) :: d' else (k', v') :: dict_set d' k v
  end.

(** [dict(pairs)] *)
Definition dict_of_pairs (ps : list (str * pyval)) : dict :=
  fold_left (fun d kv => dict_set d (fst kv) (snd kv)) ps [].

(** *** Encoding *)

Definition hex_digit (d : N) : N :=
  if (d <? 10)%N then (48 + d)%N else (87 + d)%N.

(** ['{0:04x}'.format(n)] for [n < 0x10000] *)
Definition hex4 (n : N) : str :=
  [hex_digit (n / 4096); hex_digit ((n / 256) mod 16);
   hex_digit ((n / 16) mod 16); hex_digit (n mod 16)]%N.

Definition uXXXX (n : N) : str := BSLASH :: 117%N :: hex4 n.

(** The replacement of one character by [py_encode_basestring_ascii]
    ([ensure_ascii=True], the default of [json.dumps]). *)
Definition escape_char (c : N) : str :=
  if (c =? 34)%N then [BSLASH; 34%N]
  else if (c =? 92)%N then [BSLASH; 92%N]
  else if (c =? 10)%N then [BSLASH; 110%N]
  else if (c =? 13)%N then [BSLASH; 114%N]
  else if (c =? 9)%N then [BSLASH; 116%N]
  else if (c =? 8)%N then [BSLASH; 98%N]
  else if (c =? 12)%N then [BSLASH; 102%N]
  else if ((32 <=? c) && (c <=? 126))%N then [c]
  else if (c <? 65536)%N then uXXXX c
  else let n := (c - 65536)%N in
       uXXXX (55296 + (n / 1024) mod 1024) ++ uXXXX (56320 + n mod 1024).

Definition encode_string (s : str) : str :=
  QUOTE :: flat_map escape_char s ++ [QUOTE].

Definition digit_char (d : N) : N := (48 + d)%N.

Fixpoint uint_chars (u : Decimal.uint) : str :=
  match u with
  | Decimal.Nil => []
  | Decimal.D0 u' => digit_char 0 :: uint_chars u'
  | Decimal.D1 u' => digit_char 1 :: uint_chars u'
  | Decimal.D2 u' => digit_char 2 :: uint_chars u'
  | Decimal.D3 u' => digit_char 3 :: uint_chars u'
  | Decimal.D4 u' => digit_char 4 :: uint_chars u'
  | Decimal.D5 u' => digit_char 5 :: uint_chars u'
  | Decimal.D6 u' => digit_char 6 :: uint_chars u'
  | Decimal.D7 u' => digit_char 7 :: uint_chars u'
  | Decimal.D8 u' => digit_char 8 :: uint_chars u'
  | Decimal.D9 u' => digit_char 9 :: uint_chars u'
  end.

(** [str(z)] for an [int]. *)
Definition int_str (z : Z) : str :=
  match z with
  | Z0 => U "0"
  | Zpos p => uint_chars (Pos.to_uint p)
  | Zneg p => 45%N :: uint_chars (Pos.to_uint p)
  end.

Section Dumps.

(** [float.__repr__] of the float a literal denotes. *)
Variable float_repr : str -> str.

(** [json.dumps(v)] with the default separators [', '] and [': ']. *)
Fixpoint dumps (v : pyval) : str :=
  match v with
  | PNone => U "null"
  | PBool true => U "true"
  | PBool false => U "false"
  | PInt z => int_str z
  | PFloat lx => float_repr lx
  | PStr s => encode_string s
  | PList l =>
      91%N ::
      (fix items (l : list pyval) : str :=
         match l with
         | [] => []
         | [x] => dumps x
         | x :: l' => dumps x ++ U ", " ++ items l'
         end) l ++ [93%N]
  | PDict d =>
      123%N ::
      (fix items (d : list (str * pyval)) : str :=
         match d with
         | [] => []
         | [(k, x)] => encode_string k ++ U ": " ++ dumps x
         | (k, x) :: d' =>
             encode_string k ++ U ": " ++ dumps x ++ U ", " ++ items d'
         end) d ++ [125%N]
  end.

End Dumps.

(** *** Decoding *)

Definition is_ws (c : N) : bool :=
  ((c =? 32) || (c =? 9) || (c =? 10) || (c =? 13))%N.

Fixpoint skip_ws (s : str) : str :=
  match s with
  | [] => []
  | c :: s' => if is_ws c then skip_ws s' else s
  end.

Definition hex_value (c : N) : option N :=
  if ((48 <=? c) && (c <=? 57))%N then Some (c - 48)%N
  else if ((97 <=? c) && (c <=? 102))%N then Some (c - 87)%N
  else if ((65 <=? c) && (c <=? 70))%N then Some (c - 55)%N
  else None.

(** The four hexadecimal digits of a [\uXXXX] escape. *)
Definition decode_uXXXX (h1 h2 h3 h4 : N) : option N :=
  match hex_value h1, hex_value h2, hex_value h3, hex_value h4 with
  | Some a, Some b, Some c, Some d =>
      Some (a * 4096 + b * 256 + c * 16 + d)%N
  | _, _, _, _ => None
  end.

(** The character of a one-letter escape. *)
Definition backslash (e : N) : option N :=
  if (e =? 34)%N then Some 34%N
  else if (e =? 92)%N then Some 92%N
  else if (e =? 47)%N then Some 47%N
  else if (e =? 98)%N then Some 8%N
  else if (e =? 102)%N then Some 12%N
  else if (e =? 110)%N then Some 10%N
  else if (e =? 114)%N then Some 13%N
  else if (e =? 116)%N then Some 9%N
  else None.

Definition is_high (u : N) : bool := ((55296 <=? u) && (u <=? 56319))%N.
Definition is_low (u : N) : bool := ((56320 <=? u) && (u <=? 57343))%N.

Definition cons_char (c : N) (r : option (str * str)) : option (str * str) :=
  match r with
  | Some (x, rest) => Some (c :: x, rest)
  | None => None
  end.

(** [scanstring] in strict mode, from the character after the opening
    quote: the string and the text after its closing quote. *)
Fixpoint scanstring (s : str) : option (str * str) :=
  match s with
  | [] => None
  | c :: t =>
      if (c =? 34)%N then Some ([], t)
      else if (c =? 92)%N then
        match t with
        | [] => None
        | e :: t1 =>
            if (e =? 117)%N then
              match t1 with
              | h1 :: h2 :: h3 :: h4 :: t2 =>
                  match decode_uXXXX h1 h2 h3 h4 with
                  | None => None
                  | Some uni =>
                      if is_high uni then
                        match t2 with
                        | b :: u :: t3 =>
                            if ((b =? 92) && (u =? 117))%N then
                              match t3 with
                              | k1 :: k2 :: k3 :: k4 :: t4 =>
                                  match decode_uXXXX k1 k2 k3 k4 with
                                  | None => None
                                  | Some uni2 =>
                                      if is_low uni2 then
                                        cons_char
                                          (65536 + ((uni - 55296) * 1024
                                                    + (uni2 - 56320)))%N
                                          (scanstring t4)
                                      else cons_char uni (scanstring t2)
                                  end
                              | _ => None
                              end
                            else cons_char uni (scanstring t2)
                        | _ => cons_char uni (scanstring t2)
                        end
                      else cons_char uni (scanstring t2)
                  end
              | _ => None
              end
            else
              match backslash e with
              | Some c' => cons_char c' (scanstring t1)
              | None => None
              end
        end
      else if (c <? 32)%N then None
      else cons_char c (scanstring t)
  end.

Definition is_digit (c : N) : bool := ((48 <=? c) && (c <=? 57))%N.

(** The longest run of decimal digits at the head of [s], and the rest. *)
Fixpoint take_digits (s : str) : str * str :=
  match s with
  | [] => ([], [])
  | c :: s' =>
      if is_digit c
      then let (ds, r) := take_digits s' in (c :: ds, r)
      else ([], s)
  end.

Definition digit_of_char (c : N) (u : Decimal.uint) : Decimal.uint :=
  if (c =? 48)%N then Decimal.D0 u
  else if (c =? 49)%N then Decimal.D1 u
  else if (c =? 50)%N then Decimal.D2 u
  else if (c =? 51)%N then Decimal.D3 u
  else if (c =? 52)%N then Decimal.D4 u
  else if (c =? 53)%N then Decimal.D5 u
  else if (c =? 54)%N then Decimal.D6 u
  else if (c =? 55)%N then Decimal.D7 u
  else if (c =? 56)%N then Decimal.D8 u
  else Decimal.D9 u.

Definition uint_of_chars (ds : str) : Decimal.uint :=
  fold_right digit_of_char Decimal.Nil ds.

(** [int(text)] for a run of digits with an optional sign. *)
Definition int_value (neg : bool) (ds : str) : Z :=
  let n := Z.of_N (N.of_uint (uint_of_chars ds)) in
  if neg then (- n)%Z else n.

(** The integer part of a number that starts with the digit at the head
    of [s]: a single 0, or a nonzero digit and the digits after it. *)
Definition int_part (s : str) : str * str :=
  match s with
  | [] => ([], [])
  | c :: t => if (c =? 48)%N then ([c], t) else take_digits s
  end.

(** The optional fraction: a dot and at least one digit. *)
Definition frac_part (s : str) : str * str :=
  match s with
  | [] => ([], s)
  | d :: t =>
      if (d =? 46)%N then
        match take_digits t with
        | ([], _) => ([], s)
        | (fd, r) => (d :: fd, r)
        end
      else ([], s)
  end.

(** The optional exponent: e or E, an optional sign, at least one
    digit. *)
Definition exp_part (s : str) : str * str :=
  match s with
  | [] => ([], s)
  | e :: t =>
      if ((e =? 101) || (e =? 69))%N then
        let '(sg, t') :=
          match t with
          | [] => ([], t)
          | g :: t'' =>
              if ((g =? 43) || (g =? 45))%N then ([g], t'') else ([], t)
          end in
        match take_digits t' with
        | ([], _) => ([], s)
        | (ed, r) => (e :: sg ++ ed, r)
        end
      else ([], s)
  end.

(** The match of [NUMBER_RE] at the head of [s]: an optional minus sign,
    the integer part, the optional fraction, the optional exponent.  An
    [int] when there is neither fraction nor exponent, else a [float]. *)
Definition match_number (s : str) : option (pyval * str) :=
  let '(neg, s1) :=
    match s with
    | [] => (false, s)
    | c :: t => if (c =? 45)%N then (true, t) else (false, s)
    end in
  match s1 with
  | [] => None
  | c :: _ =>
      if is_digit c then
        let '(ipart, s2) := int_part s1 in
        let '(frac, s3) := frac_part s2 in
        let '(ex, s4) := exp_part s3 in
        match frac, ex with
        | [], [] => Some (PInt (int_value neg ipart), s4)
        | _, _ =>
            Some (PFloat ((if neg then [45%N] else []) ++ ipart ++ frac ++ ex),
                  s4)
        end
      else None
  end.

(** The items of an array after the first has been found to exist:
    [scan] reads one value; [n] bounds the number of items. *)
Fixpoint array_items (scan : str -> option (pyval * str)) (n : nat)
         (s : str) : option (list pyval * str) :=
  match n with
  | O => None
  | S n' =>
      match scan s with
      | None => None
      | Some (v, r) =>
          match skip_ws r with
          | [] => None
          | c :: t =>
              if (c =? 93)%N then Some ([v], t)
              else if (c =? 44)%N then
                match array_items scan n' (skip_ws t) with
                | Some (vs, r') => Some (v :: vs, r')
                | None => None
                end
              else None
          end
      end
  end.

(** [JSONArray], from the character after the bracket. *)
Definition JSONArray (scan : str -> option (pyval * str)) (s : str)
  : option (pyval * str) :=
  match skip_ws s with
  | [] => None
  | c :: t =>
      if (c =? 93)%N then Some (PList [], t)
      else match array_items scan (List.length s) (skip_ws s) with
           | Some (vs, r) => Some (PList vs, r)
           | None => None
           end
  end.

(** The members of an object, from the character after the quote that
    opens a key. *)
Fixpoint object_pairs (scan : str -> option (pyval * str)) (n : nat)
         (s : str) : option (list (str * pyval) * str) :=
  match n with
  | O => None
  | S n' =>
      match scanstring s with
      | None => None
      | Some (key, r) =>
          match skip_ws r with
          | [] => None
          | c :: t =>
              if (c =? 58)%N then
                match scan (skip_ws t) with
                | None => None
                | Some (v, r1) =>
                    match skip_ws r1 with
                    | [] => None
                    | c1 :: t1 =>
                        if (c1 =? 125)%N then Some ([(key, v)], t1)
                        else if (c1 =? 44)%N then
                          match skip_ws t1 with
                          | [] => None
                          | q :: t2 =>
                              if (q =? 34)%N then
                                match object_pairs scan n' t2 with
                                | Some (ps, r') => Some ((key, v) :: ps, r')
                                | None => None
                                end
                              else None
                          end
                        else None
                    end
                end
              else None
          end
      end
  end.

(** [JSONObject], from the character after the brace. *)
Definition JSONObject (scan : str -> option (pyval * str)) (s : str)
  : option (pyval * str) :=
  match skip_ws s with
  | [] => None
  | c :: t =>
      if (c =? 125)%N then Some (PDict [], t)
      else if (c =? 34)%N then
        match object_pairs scan (List.length s) t with
        | Some (ps, r) => Some (PDict (dict_of_pairs ps), r)
        | None => None
        end
      else None
  end.

(** [scan_once]: one JSON value at the head of [s].  [fuel] bounds the
    nesting depth. *)
Fixpoint scan_once (fuel : nat) (s : str) : option (pyval * str) :=
  match fuel with
  | O => None
  | S f =>
      match s with
      | [] => None
      | c :: t =>
          if (c =? 34)%N then
            match scanstring t with
            | Some (x, r) => Some (PStr x, r)
            | None => None
            end
          else if (c =? 123)%N then JSONObject (scan_once f) t
          else if (c =? 91)%N then JSONArray (scan_once f) t
          else if startswith (U "null") s then Some (PNone, skipn 4 s)
          else if startswith (U "true") s then Some (PBool true, skipn 4 s)
          else if startswith (U "false") s then Some (PBool false, skipn 5 s)
          else
            match match_number s with
            | Some r => Some r
            | None =>
                if startswith (U "NaN") s
                then Some (PFloat (U "NaN"), skipn 3 s)
                else if startswith (U "Infinity") s
                then Some (PFloat (U "Infinity"), skipn 8 s)
                else if startswith (U "-Infinity") s
                then Some (PFloat (U "-Infinity"), skipn 9 s)
                else None
            end
      end
  end.

(** [json.loads(s)] as the scanner defines it; [None] stands for
    [JSONDecodeError].  The limits of the interpreter (the recursion
    depth, the cap on the digits of an [int]) make [json.loads] raise
    other exceptions; they are no part of the scanner and enter the
    loop of [main] with [Bridge.json_loads]. *)
Definition loads (s : str) : option pyval :=
  match scan_once (S (List.length s)) (skip_ws s) with
  | Some (v, r) =>
      match skip_ws r with
      | [] => Some v
      | _ :: _ => None
      end
  | None => None
  end.

End Json.

Import Json.

(** ** The bridge loop of [main] *)

Module Bridge.

(** *** What the loop calls and does not define *)

(** The outcome of a call that may raise; [Raised e] carries [str(e)]. *)
Inductive outcome (A : Type) :=
| Returned (a : A)
| Raised (e : str).
Arguments Returned {A} a.
Arguments Raised {A} e.

(** [m.content] of a LangChain message: a [str], or a list of content
    blocks (of which only emptiness matters here). *)
Inductive content :=
| Text (s : str)
| Blocks (nonempty : bool).

Inductive message :=
| SystemMessage
| HumanMessage (c : content)
| ToolMessage (c : content)
| AIMessage (c : content).

(** The collaborators of the loop: the tools it calls directly, the
    agent graph, and the library functions whose result it only passes
    on. *)
Record Externals := {
  (** [str.lower] *)
  lower : str -> str;
  (** [float.__repr__], on the literal of the float *)
  float_repr : str -> str;
  (** [get_agent_graph()] at start-up: [None] when it failed; otherwise
      [graph.invoke] on the prompt, giving [result["messages"]] *)
  graph : option (str -> outcome (list message));
  plot_with_matplotlib : str -> outcome str;
  calculator : str -> outcome str;
  play_chess_battle : outcome str;
  run_agent_psych_test : outcome str;
  (** [play_music.invoke], with the song when one is given *)
  play_music : option str -> outcome str;
  (** group 1 of the song pattern searched in the lowered prompt *)
  song_search : str -> option str;
  (** The local fallback of the agent branch: the new response when the
      text holds a JSON tool call whose tool was found and ran; every
      failure inside it is caught there. *)
  local_tool_call : str -> option str;
  (** Whether [json.loads] raises, on this text, an exception that is
      no [JSONDecodeError]: [RecursionError] when arrays and objects
      nest deeper than the recursion limit of the interpreter leaves
      room for, [ValueError] for an integer literal of more digits than
      [sys.get_int_max_str_digits()] (4300 unless set otherwise). *)
  loads_raises : str -> bool;
  (** Whether [json.dumps(msg, indent=2)] raises ([RecursionError], on
      a value nested too deep for the encoder). *)
  dumps_indent_raises : pyval -> bool;
  (** Whether [json.dumps(reply)] raises, likewise. *)
  dumps_raises : pyval -> bool;
  (** [str(v)], the text an f-string puts for a value that is no [str] *)
  py_str : pyval -> str;
  (** Whether [sys.stdout] can encode the text: [print] raises
      [UnicodeEncodeError] when it cannot (a lone surrogate, when the
      console is UTF-8). *)
  stdout_encodes : str -> bool
}.

(** *** Events and the effects of the loop *)

Inductive tool :=
| Plot | Calculator | Chess | PsychTest | Music | Agent.

(** How one [os.write] ends: it returns (the count is not looked at),
    raises [BlockingIOError], or raises another exception. *)
Inductive write_outcome := WriteOk | WriteBlocked | WriteFailed.

Inductive event :=
| Sleep (ms : nat)
| Heartbeat
| PathCheck (present : bool)
| Invoke (t : tool) (arg : option str)
| Reply (r : dict)
| Write (chunk : bytes) (o : write_outcome).

(** The outcomes of the writes to come, in order; once the list is
    used up every write succeeds. *)
Definition world := list write_outcome.

(** A computation of the loop body: it appends to the trace, consumes
    write outcomes, and either returns or lets an exception escape
    ([None]), which ends [main]. *)
Definition M (A : Type) : Type := world -> list event * world * option A.

Definition ret {A} (a : A) : M A := fun w => ([], w, Some a).

Definition bind {A B} (m : M A) (k : A -> M B) : M B :=
  fun w =>
    match m w with
    | (t1, w1, Some a) =>
        match k a w1 with
        | (t2, w2, r) => (t1 ++ t2, w2, r)
        end
    | (t1, w1, None) => (t1, w1, None)
    end.

Definition emit (e : event) : M unit := fun w => ([e], w, Some tt).

Definition raise {A} : M A := fun w => ([], w, None).

Notation "x <- m ;; k" := (bind m (fun x => k))
  (at level 61, m at next level, right associativity).
Notation "m ;;; k" := (bind m (fun _ => k))
  (at level 61, right associativity).

(** [os.write(fd, chunk)]: [true] when it returned, [false] when it
    raised [BlockingIOError]; any other exception escapes. *)
Definition os_write (chunk : bytes) : M bool :=
  fun w =>
    let o := hd WriteOk w in
    ([Write chunk o], tl w,
     match o with
     | WriteOk => Some true
     | WriteBlocked => Some false
     | WriteFailed => None
     end).

(** *** The paced writer *)

Definition chunk_size : nat := 32.

(** One chunk:

      retries = 3
      while retries > 0:
          try:
              os.write(fd, chunk.encode('utf-8'))
              break
          except BlockingIOError:
              time.sleep(0.01)
              retries -= 1                                          *)
Fixpoint write_chunk (retries : nat) (chunk : str) : M unit :=
  match retries with
  | O => ret tt
  | S r =>
      match encode chunk with
      | None => raise
      | Some b =>
          written <- os_write b ;;
          if written then ret tt
          else emit (Sleep 10) ;;; write_chunk r chunk
      end
  end.

(** The body of [for i in range(0, len(resp_str), chunk_size)]. *)
Fixpoint send_chunks (resp_str : str) (idx : list nat) : M unit :=
  match idx with
  | [] => ret tt
  | i :: idx' =>
      let chunk := slice resp_str i (i + chunk_size) in
      write_chunk 3 chunk ;;;
      emit (Sleep 20) ;;;
      send_chunks resp_str idx'
  end.

Definition send (resp_str : str) : M unit :=
  send_chunks resp_str (range (List.length resp_str) chunk_size).

(** *** The classification of the result by GUI tag *)

Definition GUI_PIPELINE_DIAGRAM : str := U "GUI_PIPELINE_DIAGRAM:".
Definition GUI_ML_DASHBOARD : str := U "GUI_ML_DASHBOARD:".
Definition GUI_PLOT : str := U "GUI_PLOT:".
Definition GUI_CHESS : str := U "GUI_CHESS:".

Definition LBRACE : N := 123.
Definition RBRACE : N := 125.

(** The longest prefix of [s] that ends in a closing brace: what a
    greedy [.*\}] takes under [re.DOTALL]. *)
Fixpoint upto_last_brace (s : str) : option str :=
  match s with
  | [] => None
  | c :: s' =>
      match upto_last_brace s' with
      | Some p => Some (c :: p)
      | None => if N.eqb c RBRACE then Some [c] else None
      end
  end.

(** The pattern [tag(\{.*\})] matched at the head of [s]: group 1. *)
Definition match_tag_here (tag s : str) : option str :=
  if startswith (tag ++ [LBRACE]) s then
    match upto_last_brace (skipn (List.length tag + 1) s) with
    | Some body => Some (LBRACE :: body)
    | None => None
    end
  else None.

(** [re.search(tag + r'(\{.*\})', s, re.DOTALL)]: group 1 of the
    leftmost match. *)
Fixpoint re_search_tag (tag s : str) : option str :=
  match match_tag_here tag s with
  | Some g => Some g
  | None =>
      match s with
      | [] => None
      | _ :: s' => re_search_tag tag s'
      end
  end.

(** Lines 250 to 296: [(msg_type, final_content)]. *)
Definition classify (response_content : str) : str * str :=
  let pipe_match := re_search_tag GUI_PIPELINE_DIAGRAM response_content in
  let ml_match := re_search_tag GUI_ML_DASHBOARD response_content in
  let plot_match := re_search_tag GUI_PLOT response_content in
  let chess_match := re_search_tag GUI_CHESS response_content in
  match pipe_match, ml_match, plot_match, chess_match with
  | Some g, _, _, _ => (U "gui_pipeline_diagram", g)
  | None, Some g, _, _ => (U "gui_ml_dashboard", g)
  | None, None, Some g, _ => (U "gui_plot", g)
  | None, None, None, Some g => (U "gui_chess", g)
  | None, None, None, None =>
      if startswith GUI_PLOT response_content
      then (U "gui_plot", skipn 9 response_content)
      else if startswith GUI_PIPELINE_DIAGRAM response_content
      then (U "gui_pipeline_diagram", skipn 21 response_content)
      else if startswith GUI_ML_DASHBOARD response_content
      then (U "gui_ml_dashboard", skipn 17 response_content)
      else (U "response", response_content)
  end.

(** The reply envelope (lines 298 to 303). *)
Definition make_reply (msg_id : pyval) (msg_type final_content : str)
  : dict :=
  [(U "id", msg_id);
   (U "target", PStr (U "shell"));
   (U "msg_type", PStr msg_type);
   (U "content", PStr final_content)].

(** *** The handler: direct tool calls, then the agent *)

Definition call (t : tool) (arg : option str) (o : outcome str) : M str :=
  fun w =>
    ([Invoke t arg], w,
     match o with Returned s => Some s | Raised _ => None end).

Definition is_gui_tool_message (m : message) : bool :=
  match m with
  | ToolMessage (Text c) =>
      startswith GUI_PLOT c || startswith GUI_ML_DASHBOARD c
      || startswith GUI_PIPELINE_DIAGRAM c
  | _ => false
  end.

Definition is_ai_answer (m : message) : bool :=
  match m with
  | AIMessage (Text s) => negb (is_empty s)
  | AIMessage (Blocks nonempty) => nonempty
  | _ => false
  end.

Definition content_of (m : message) : content :=
  match m with
  | SystemMessage => Text []
  | HumanMessage c | ToolMessage c | AIMessage c => c
  end.

(** The [TypeError] text of [re.search] on a list. *)
Definition not_a_string : str :=
  U "expected string or bytes-like object, got 'list'".

(** Lines 167 to 242, after [graph.invoke] returned: the GUI payload of
    the last tool message that has one, else the last non-empty AI
    answer, else a fixed text; then the local tool-call fallback. *)
Definition agent_response (X : Externals) (messages : list message)
  : outcome str :=
  let picked :=
    match find is_gui_tool_message (rev messages) with
    | Some m => content_of m
    | None =>
        match find is_ai_answer (rev messages) with
        | Some m => content_of m
        | None => Text (U "No response generated.")
        end
    end in
  match picked with
  | Text s =>
      match local_tool_call X s with
      | Some s' => Returned s'
      | None => Returned s
      end
  | Blocks _ => Raised not_a_string
  end.

(** The [try] of lines 157 to 246: every exception becomes the text
    of the response. *)
Definition call_agent (X : Externals)
           (invoke : str -> outcome (list message)) (user_prompt : str)
  : M str :=
  let result :=
    match invoke user_prompt with
    | Returned messages => agent_response X messages
    | Raised e => Raised e
    end in
  emit (Invoke Agent (Some user_prompt)) ;;;
  ret (match result with
       | Returned s => s
       | Raised e => U "Agent Error: " ++ e
       end).

Definition operators : list str :=
  [U "+"; U "-"; U "*"; U "/"; U "^"; U "sqrt"; U "sin"; U "cos"].

(** Lines 117 to 248: [response_content] for a task. *)
Definition handle (X : Externals) (user_prompt : str) : M str :=
  let prompt_lower := lower X user_prompt in
  if contains (U "plot") prompt_lower
     && (contains (U "=") prompt_lower || contains (U "sin") prompt_lower
         || contains (U "cos") prompt_lower)
  then call Plot (Some user_prompt) (plot_with_matplotlib X user_prompt)
  else if contains (U "calculate") prompt_lower
          || contains (U "what is") prompt_lower
             && existsb (fun op => contains op user_prompt) operators
  then
    let expr :=
      strip (remove (U "calculate") (remove (U "what is") user_prompt)) in
    call Calculator (Some expr) (calculator X expr)
  else if contains (U "chess") prompt_lower
          || contains (U "chess battle") prompt_lower
  then call Chess None (play_chess_battle X)
  else if contains (U "agent test") prompt_lower
          || contains (U "psych test") prompt_lower
          || contains (U "psychology test") prompt_lower
  then call PsychTest None (run_agent_psych_test X)
  else if contains (U "music") prompt_lower
          || contains (U "play") prompt_lower
             && negb (contains (U "chess") prompt_lower)
  then
    let song_match := song_search X prompt_lower in
    if contains (U "open") prompt_lower && contains (U "music") prompt_lower
    then call Music None (play_music X None)
    else match song_match with
         | Some g =>
             let song := strip g in
             call Music (Some song) (play_music X (Some song))
         | None => call Music None (play_music X None)
         end
  else match graph X with
       | Some invoke => call_agent X invoke user_prompt
       | None => ret (U "Agent not initialized")
       end.

(** *** One record, one iteration, the loop *)

(** [msg.get('msg_type') == 'task'] *)
Definition is_task (d : dict) : bool :=
  match dict_get d (U "msg_type") with
  | Some (PStr s) => Str.eqb s (U "task")
  | _ => false
  end.

(** How [json.loads(line)] ends in the loop, whose [try] catches
    [JSONDecodeError] and nothing else. *)
Inductive decoded :=
| Value (msg : pyval)
| JSONDecodeError
| OtherError.                   (* [RecursionError], [ValueError] *)

Definition json_loads (X : Externals) (line : str) : decoded :=
  if loads_raises X line then OtherError
  else match loads line with
       | Some msg => Value msg
       | None => JSONDecodeError
       end.

(** What [f"{v}"] puts for [v]. *)
Definition fstring (X : Externals) (v : pyval) : str :=
  match v with
  | PStr s => s
  | _ => py_str X v
  end.

(** The text of [print(f">>> Processing task #{msg_id}: {user_prompt}")]
    (line 115). *)
Definition task_banner (X : Externals) (msg_id user_prompt : pyval) : str :=
  U ">>> Processing task #" ++ fstring X msg_id ++ U ": "
  ++ fstring X user_prompt.

(** The task branch (lines 111 to 326) for a decoded object.  The
    [print] of line 115 stands outside every [try]: when the console
    cannot encode the task, its exception ends the loop before the
    handler is called.  So does an exception of [json.dumps(reply)]. *)
Definition process_task (X : Externals) (d : dict) : M unit :=
  let user_prompt :=
    match dict_get d (U "content") with Some v => v | None => PStr [] end in
  let msg_id :=
    match dict_get d (U "id") with Some v => v | None => PNone end in
  if stdout_encodes X (task_banner X msg_id user_prompt) then
    match user_prompt with
    | PStr p =>
        response_content <- handle X p ;;
        let '(msg_type, final_content) := classify response_content in
        let reply := make_reply msg_id msg_type final_content in
        let resp_str := dumps (float_repr X) (PDict reply) ++ [NL] in
        emit (Reply reply) ;;;
        if dumps_raises X (PDict reply) then raise
        else send resp_str
    | _ => raise      (* no [lower] on the value: [AttributeError] *)
    end
  else raise.                                  (* [UnicodeEncodeError] *)

(** The body of the [while] loop for one non-empty stripped line.  The
    text printed at line 109 is ASCII ([json.dumps] escapes the rest),
    so only the encoder can fail there. *)
Definition process_line (X : Externals) (line : str) : M unit :=
  match json_loads X line with
  | JSONDecodeError => ret tt                                (* continue *)
  | OtherError => raise                                    (* not caught *)
  | Value msg =>
      if dumps_indent_raises X msg then raise               (* line 109 *)
      else
        match msg with
        | PDict d => if is_task d then process_task X d else ret tt
        | _ => raise      (* no [get] on the value: [AttributeError] *)
        end
  end.

(** The [while '\n' in read_buffer] loop over the lines it splits off. *)
Fixpoint drain_lines (X : Externals) (ls : list str) : M unit :=
  match ls with
  | [] => ret tt
  | l :: ls' =>
      let line := strip l in
      if is_empty line then drain_lines X ls'
      else process_line X line ;;; drain_lines X ls'
  end.

Record State := {
  read_buffer : str;
  heartbeat_counter : nat
}.

(** How [os.read(fd, 4096)] ends. *)
Inductive read_result :=
| ReadData (data : bytes)
| ReadBlocking                  (* [BlockingIOError] *)
| ReadOSError (errno : Z).      (* another [OSError] *)

(** What one iteration meets: the read, and whether the device path
    exists should the loop look. *)
Record Input := {
  read : read_result;
  path_exists : bool
}.

Inductive status :=
| Running (st : State)
| PathGone                      (* [break] *)
| Crashed.                      (* an exception left the loop *)

Definition heartbeat (n : nat) : M nat :=
  if 1000 <=? S n then emit Heartbeat ;;; ret 0 else ret (S n).

(** Everything after the read: heartbeat, the lines, the idle sleep. *)
Definition after_read (X : Externals) (buf : str) (hc : nat)
  : M State :=
  hc' <- heartbeat hc ;;
  let (ls, rest) := split_lines buf in
  drain_lines X ls ;;;
  emit (Sleep 10) ;;;
  ret {| read_buffer := rest; heartbeat_counter := hc' |}.

Definition finish (r : list event * world * option State)
  : list event * world * status :=
  match r with
  | (t, w, Some st) => (t, w, Running st)
  | (t, w, None) => (t, w, Crashed)
  end.

(** One iteration of [while True]. *)
Definition iteration (X : Externals) (st : State) (i : Input) (w : world)
  : list event * world * status :=
  let buf := read_buffer st in
  let hc := heartbeat_counter st in
  match read i with
  | ReadData data =>
      let buf' :=
        match data with
        | [] => buf
        | _ => buf ++ decode_ignore data
        end in
      finish (after_read X buf' hc w)
  | ReadBlocking => finish (after_read X buf hc w)
  | ReadOSError errno =>
      if (errno =? 35)%Z then finish (after_read X buf hc w)
      else if (errno =? 5)%Z then
        if path_exists i then
          finish ((emit (Sleep 2000) ;;;
                   emit (PathCheck true) ;;;
                   after_read X buf hc) w)
        else ([Sleep 2000; PathCheck false], w, PathGone)
      else ([], w, Crashed)
  end.

Definition initial : State :=
  {| read_buffer := []; heartbeat_counter := 0 |}.

(** The loop over a sequence of inputs: the trace, and where it stands
    at the end. *)
Fixpoint run (X : Externals) (st : State) (ins : list Input) (w : world)
  : list event * world * status :=
  match ins with
  | [] => ([], w, Running st)
  | i :: ins' =>
      match iteration X st i w with
      | (t, w1, Running st1) =>
          match run X st1 ins' w1 with
          | (t', w2, s) => (t ++ t', w2, s)
          end
      | r => r
      end
  end.

(** The states the loop can be in at the top of an iteration. *)
Inductive reachable (X : Externals) : State -> Prop :=
| reach_initial : reachable X initial
| reach_step st i w t w' st' :
    reachable X st ->
    iteration X st i w = (t, w', Running st') ->
    reachable X st'.

End Bridge.

Import Bridge.

(** ** The vocabulary of the properties *)

Module Spec.

(** A JSON text written with apostrophes where JSON has double quotes. *)
Definition J (s : string) : str :=
  map (fun c => if N.eqb c 39 then QUOTE else c) (U s).
Arguments J s%_string.

Definition ascii_text (s : str) : Prop := Forall (fun c => (c < 128)%N) s.

(** Text of printable ASCII characters, space to tilde. *)
Definition printable_text (s : str) : Prop :=
  Forall (fun c => (32 <= c <= 126)%N) s.

(** A Unicode scalar value: a code point that is no surrogate. *)
Definition scalar (c : N) : Prop :=
  (c < 55296 \/ 57343 < c < 1114112)%N.

(** The envelope of the wire protocol. *)
Record Envelope := {
  id : Z;
  target : str;
  msg_type : str;
  content : str
}.

Definition valid_envelope (e : Envelope) : Prop :=
  Forall scalar (target e) /\ Forall scalar (msg_type e)
  /\ Forall scalar (content e).

(** The envelope as the [dict] the bridge builds and decodes. *)
Definition envelope_dict (e : Envelope) : dict :=
  [(U "id", PInt (id e));
   (U "target", PStr (target e));
   (U "msg_type", PStr (msg_type e));
   (U "content", PStr (content e))].

(** [json.dumps(reply) + "\n"] *)
Definition encode_record (fr : str -> str) (e : Envelope) : str :=
  dumps fr (PDict (envelope_dict e)) ++ [NL].

(** [json.loads(line)], read back as an envelope *)
Definition decode_record (s : str) : option dict :=
  match loads s with
  | Some (PDict d) => Some d
  | _ => None
  end.

(** The read ends inside a multi-byte sequence that was well formed so
    far: the cases in which [decode_ignore] drops what is left because
    the data ended. *)
Fixpoint cut_at_end (bs : bytes) : bool :=
  match bs with
  | [] => false
  | b0 :: t0 =>
      if (b0 <? 128)%N then cut_at_end t0
      else if (b0 <? 194)%N then cut_at_end t0
      else if (b0 <? 224)%N then
        match t0 with
        | [] => true
        | b1 :: t1 => if is_cont b1 then cut_at_end t1 else cut_at_end t0
        end
      else if (b0 <? 240)%N then
        match t0 with
        | [] => true
        | b1 :: t1 =>
            if second3_ok b0 b1 then
              match t1 with
              | [] => true
              | b2 :: t2 =>
                  if is_cont b2 then cut_at_end t2 else cut_at_end t1
              end
            else cut_at_end t0
        end
      else if (b0 <? 245)%N then
        match t0 with
        | [] => true
        | b1 :: t1 =>
            if second4_ok b0 b1 then
              match t1 with
              | [] => true
              | b2 :: t2 =>
                  if is_cont b2 then
                    match t2 with
                    | [] => true
                    | b3 :: t3 =>
                        if is_cont b3 then cut_at_end t3 else cut_at_end t2
                    end
                  else cut_at_end t1
              end
            else cut_at_end t0
        end
      else cut_at_end t0
  end.

(** No read but the last ends inside a multi-byte sequence. *)
Fixpoint clean_splits (reads : list bytes) : Prop :=
  match reads with
  | [] => True
  | [_] => True
  | d :: ds => cut_at_end d = false /\ clean_splits ds
  end.

(** The GUI tags with the [msg_type] of each, in the order in which the
    bridge looks for them. *)
Definition tags : list (str * str) :=
  [(GUI_PIPELINE_DIAGRAM, U "gui_pipeline_diagram");
   (GUI_ML_DASHBOARD, U "gui_ml_dashboard");
   (GUI_PLOT, U "gui_plot");
   (GUI_CHESS, U "gui_chess")].

(** Plain text: none of the tags occurs in it. *)
Definition untagged (r : str) : Prop :=
  forall tag mt, In (tag, mt) tags -> contains tag r = false.

(** A record the loop drops: decoding it ends in [JSONDecodeError], or
    it is an object, one that line 109 can print, whose [msg_type] is
    not ["task"]. *)
Definition dropped (X : Externals) (line : str) : Prop :=
  json_loads X line = JSONDecodeError
  \/ exists d, json_loads X line = Value (PDict d)
               /\ dumps_indent_raises X (PDict d) = false
               /\ is_task d = false.

Definition ceil_div (n c : nat) : nat := (n + c - 1) / c.

(** The chunks of a record, as the [for] loop slices them. *)
Definition chunks (resp_str : str) : list str :=
  map (fun i => slice resp_str i (i + chunk_size))
      (range (List.length resp_str) chunk_size).

Definition trace {A} (r : list event * world * A) : list event :=
  fst (fst r).

Definition result {A} (r : list event * world * A) : A := snd r.

(** The heartbeat of one iteration: the dot printed at every thousandth
    turn, and the counter after it. *)
Definition beat (hc : nat) : list event :=
  if 1000 <=? S hc then [Heartbeat] else [].

Definition next_count (hc : nat) : nat :=
  if 1000 <=? S hc then 0 else S hc.

(** An iteration that read nothing and had no line to process. *)
Definition idle (st : State) (w : world) : list event * world * status :=
  (beat (heartbeat_counter st) ++ [Sleep 10], w,
   Running {| read_buffer := read_buffer st;
              heartbeat_counter := next_count (heartbeat_counter st) |}).

(** A write of one chunk, then the pause between chunks. *)
Definition paced (c : bytes) : list event := [Write c WriteOk; Sleep 20].

(** [k] writes of a chunk that raise [BlockingIOError], each followed by
    the 10 ms sleep of the retry loop. *)
Definition blocked_writes (c : bytes) (k : nat) : list event :=
  concat (repeat [Write c WriteBlocked; Sleep 10] k).

(** A chunk that met [k] blocked writes, [k] at most 3: the write that
    returns comes after them unless the three attempts are used up;
    then the pause between chunks. *)
Definition retried (c : bytes) (k : nat) : list event :=
  blocked_writes c k
  ++ (if k <? 3 then [Write c WriteOk] else []) ++ [Sleep 20].

Definition chunk_events (cb : bytes * nat) : list event :=
  retried (fst cb) (snd cb).

Definition is_write (e : event) : bool :=
  match e with Write _ _ => true | _ => false end.

(** The number of [os.write] calls in a trace. *)
Definition os_writes (t : list event) : nat :=
  List.length (filter is_write t).

(** A reply event is addressed to the shell. *)
Definition to_shell (e : event) : Prop :=
  match e with
  | Reply r => dict_get r (U "target") = Some (PStr (U "shell"))
  | _ => True
  end.

(** An interpreter for the examples that refuses a text sooner than
    CPython with its default limits does: [json.loads] raises on every
    text with more than 500 opening brackets and braces or more than
    4300 digits. *)
Definition over_limits (s : str) : bool :=
  (500 <? List.length
            (filter (fun c => N.eqb c 91 || N.eqb c LBRACE) s))
  || (4300 <? List.length
                (filter (fun c => N.leb 48 c && N.leb c 57) s)).

(** [str(v)] for the examples: Python's text for the scalars; a list or
    a dict is shown as its JSON text (Python shows its [repr]). *)
Definition example_str (v : pyval) : str :=
  match v with
  | PNone => U "None"
  | PBool true => U "True"
  | PBool false => U "False"
  | PStr s => s
  | _ => dumps (fun lx => lx) v
  end.

(** Collaborators for the examples: an agent that answers ["ok"], tools
    that answer with a fixed text, a chess battle that raises, and a
    UTF-8 console. *)
Definition example_externals : Externals := {|
  lower := ascii_lower;
  float_repr := fun lx => lx;
  graph := Some (fun p => Returned [SystemMessage; HumanMessage (Text p);
                                    AIMessage (Text (U "ok"))]);
  plot_with_matplotlib := fun _ => Returned (U "GUI_PLOT:{}");
  calculator := fun e => Returned (U "Result: " ++ e);
  play_chess_battle := Raised (U "No module named 'chess'");
  run_agent_psych_test := Returned (U "done");
  play_music := fun _ => Returned (U "Opened Apple Music app.");
  song_search := fun _ => None;
  local_tool_call := fun _ => None;
  loads_raises := over_limits;
  dumps_indent_raises := fun _ => false;
  dumps_raises := fun _ => false;
  py_str := example_str;
  stdout_encodes := fun s => match encode s with
                             | Some _ => true
                             | None => false
                             end
|}.

(** Every event of a computation satisfies [P], in every world. *)
Definition emits_only {A} (P : event -> Prop) (m : M A) : Prop :=
  forall w, Forall P (trace (m w)).

End Spec.

Import Spec.

(** ** Start-up: the device path (lines 12 to 49 of main.py) *)

Module Startup.

(** [l.sort(key=key, reverse=True)]: the elements in descending order of
    key, those of equal key in the order they had (the sort is stable,
    also when reversed).  [insert_desc] puts in its place an element
    that stood before all those of [sorted]. *)
Fixpoint insert_desc {A} (key : A -> Z) (x : A) (sorted : list A)
  : list A :=
  match sorted with
  | [] => [x]
  | y :: l =>
      if (key x <? key y)%Z then y :: insert_desc key x l
      else x :: sorted
  end.

Definition sort_desc {A} (key : A -> Z) (l : list A) : list A :=
  fold_right (insert_desc key) [] l.

(** The keys of the sort: [os.path.getmtime] is called on every
    candidate before any comparison is made, and the first call that
    raises ends the sort.  The modification time is a number of ticks of
    the clock. *)
Fixpoint keyed (getmtime : str -> outcome Z) (l : list str)
  : outcome (list (str * Z)) :=
  match l with
  | [] => Returned []
  | x :: l' =>
      match getmtime x with
      | Raised e => Raised e
      | Returned k =>
          match keyed getmtime l' with
          | Raised e => Raised e
          | Returned kl => Returned ((x, k) :: kl)
          end
      end
  end.

(** [find_qemu_pty()], given what [glob.glob("/dev/ttys*")] returned:

      if candidates:
          candidates.sort(key=lambda x: os.path.getmtime(x), reverse=True)
          return candidates[0]
      return None                                                     *)
Definition find_qemu_pty (candidates : list str)
           (getmtime : str -> outcome Z) : outcome (option str) :=
  match candidates with
  | [] => Returned None
  | _ :: _ =>
      match keyed getmtime candidates with
      | Raised e => Raised e
      | Returned kl => Returned (hd_error (map fst (sort_desc snd kl)))
      end
  end.

(** What the start of [main] asks of the host. *)
Record Host := {
  (** [input(...)]: the line typed, or the exception it raised *)
  typed : outcome str;
  (** [glob.glob("/dev/ttys*")] *)
  glob_ttys : list str;
  getmtime : str -> outcome Z;
  (** [os.path.exists] *)
  os_path_exists : str -> bool;
  (** [os.open(device_path, os.O_RDWR | os.O_NONBLOCK)]: the descriptor *)
  os_open : str -> outcome Z
}.

(** How the start of [main] ends. *)
Inductive started :=
| NoDevice                               (* the [return] of line 35 *)
| DeviceMissing (device_path : str)      (* the [return] of line 40 *)
| OpenFailed (device_path : str)         (* the [return] of line 49 *)
| Connected (device_path : str) (fd : Z) (* the loop is entered *)
| StartCrashed.                          (* an exception left [main] *)

(** Lines 38 to 49. *)
Definition open_device (h : Host) (device_path : str) : started :=
  if os_path_exists h device_path then
    match os_open h device_path with
    | Returned fd => Connected device_path fd
    | Raised _ => OpenFailed device_path
    end
  else DeviceMissing device_path.

(** Lines 28 to 49. *)
Definition startup (h : Host) : started :=
  match typed h with
  | Raised _ => StartCrashed
  | Returned line =>
      let device_path := strip line in
      if is_empty device_path then
        match find_qemu_pty (glob_ttys h) (getmtime h) with
        | Raised _ => StartCrashed
        | Returned None => NoDevice
        | Returned (Some p) =>
            if is_empty p then NoDevice else open_device h p
        end
      else open_device h device_path
  end.

End Startup.

(** ** The streaming writers of the tools

  [chess_battle.send_chess_update] and [psych_test.orchestrator.send_msg]
  write to the descriptor [main] hands them through [set_pty_fd], while
  the loop of [main] waits for the tool to return. *)

Module Stream.

(** [set_pty_fd(fd)]: the new value of the global [_pty_fd], which is
    [None] until the first call. *)
Definition set_pty_fd (fd : Z) : option Z := Some fd.

(** [try: body  except Exception: pass] (in [send_msg], a bare
    [except]): whatever [body] raises is dropped. *)
Definition suppress (body : M unit) : M unit :=
  fun w =>
    match body w with
    | (t, w', _) => (t, w', Some tt)
    end.

(** The body of

      for i in range(0, len(msg_str), chunk_size):
          chunk = msg_str[i:i+chunk_size]
          os.write(_pty_fd, chunk.encode('utf-8'))
          time.sleep(0.02)

    A write that blocks raises here as any other failure does. *)
Fixpoint write_all (msg_str : str) (idx : list nat) : M unit :=
  match idx with
  | [] => ret tt
  | i :: idx' =>
      let chunk := slice msg_str i (i + chunk_size) in
      match encode chunk with
      | None => raise
      | Some b =>
          written <- os_write b ;;
          if written then emit (Sleep 20) ;;; write_all msg_str idx'
          else raise
      end
  end.

(** The [try] block of both functions, for the envelope [msg]. *)
Definition stream (fr : str -> str) (msg : dict) : M unit :=
  suppress
    (let msg_str := dumps fr (PDict msg) ++ [NL] in
     write_all msg_str (range (List.length msg_str) chunk_size)).

(** [send_chess_update(payload, msg_id)] of chess_battle.py. *)
Definition send_chess_update (fr : str -> str) (_pty_fd : option Z)
           (payload : dict) (msg_id : Z) : M unit :=
  match _pty_fd with
  | None => ret tt
  | Some _ =>
      stream fr
        [(U "id", PInt msg_id);
         (U "target", PStr (U "kernel"));
         (U "msg_type", PStr (U "gui_chess"));
         (U "content", PStr (dumps fr (PDict payload)))]
  end.

(** [send_msg(content)] of psych_test/orchestrator.py; [now] is
    [int(time.time())]. *)
Definition send_msg (fr : str -> str) (_pty_fd : option Z) (now : Z)
           (content : str) : M unit :=
  match _pty_fd with
  | None => ret tt
  | Some _ =>
      stream fr
        [(U "id", PInt now);
         (U "target", PStr (U "shell"));
         (U "msg_type", PStr (U "response"));
         (U "content", PStr content)]
  end.

(** The value [play_chess_battle] returns (line 207):

      return summary + f"\n\nGUI_CHESS:{json.dumps(final_payload)}"    *)
Definition battle_result (fr : str -> str) (summary : str)
           (final_payload : dict) : str :=
  summary ++ [NL; NL] ++ GUI_CHESS ++ dumps fr (PDict final_payload).

End Stream.

(** ** The shell tool (tools/shell.py) *)

Module Shell.

Definition ALLOWED_COMMANDS : list str :=
  [U "ls"; U "pwd"; U "whoami"; U "df"; U "free"; U "mkdir"; U "touch";
   U "echo"; U "cat"; U "grep"; U "date"; U "uname"].

(** [s.split()]: the maximal runs of characters that are no white
    space, in order. *)
Fixpoint split (s : str) : list str :=
  match s with
  | [] => []
  | c :: s' =>
      if is_space c then split s'
      else
        match s' with
        | [] => [[c]]
        | c' :: _ =>
            if is_space c' then [c] :: split s'
            else
              match split s' with
              | word :: words => (c :: word) :: words
              | [] => [[c]]
              end
        end
  end.

(** [sep.join(l)] *)
Fixpoint join (sep : str) (l : list str) : str :=
  match l with
  | [] => []
  | [x] => x
  | x :: l' => x ++ sep ++ join sep l'
  end.

(** How [subprocess.run(command, shell=True, check=True, text=True,
    capture_output=True, timeout=30)] ends. *)
Inductive completion :=
| CompletedProcess (stdout : str)        (* return code 0 *)
| CalledProcessError (stderr : str)      (* another return code *)
| TimeoutExpired
| OtherError (e : str).                  (* any other exception *)

(** The text of line 11; [listing] is the order in which the set
    [ALLOWED_COMMANDS] is iterated. *)
Definition not_allowed (listing : list str) (name : str) : str :=
  U "Error: Command '" ++ name
  ++ U "' not allowed for security reasons. Allowed: "
  ++ join (U ", ") listing.

(** [safe_shell_execute(command)]: the command lines handed to the
    shell, and the result. *)
Definition safe_shell_execute (run : str -> completion)
           (listing : list str) (command : str)
  : list str * outcome str :=
  let cmd_parts := split command in
  match cmd_parts with
  | [] => ([], Returned (not_allowed listing []))
  | name :: _ =>
      if existsb (Str.eqb name) ALLOWED_COMMANDS then
        ([command],
         match run command with
         | CompletedProcess stdout =>
             Returned (if is_empty stdout
                       then U "Command executed successfully."
                       else strip stdout)
         | CalledProcessError stderr =>
             Returned (U "Error executing command: " ++ strip stderr)
         | TimeoutExpired => Returned (U "Error: Command timed out.")
         | OtherError e => Raised e
         end)
      else ([], Returned (not_allowed listing name))
  end.

End Shell.

(** ** The analysis of a chess battle (tools/chess_agents.py) *)

Module ChessAnalysis.

(** An entry of [move_log], as [play_chess_battle] appends it: all six
    keys are set. *)
Record entry := {
  move_num : Z;
  half_move : Z;
  player : str;
  move : str;
  reason : str;
  score : Z
}.

Record turning_point := {
  tp_move : Z;
  tp_player : str;
  description : str
}.

Record analysis := {
  total_moves : nat;
  winner : option str;
  winning_margin : str;
  key_moves : list str;
  white_strategy : list str;
  black_strategy : list str;
  turning_points : list turning_point
}.

(** What [analyze_game] reads of the game. *)
Record game := {
  game_over : bool;
  result : option str;
  (** [game.evaluate_position()], the material balance *)
  evaluate_position : Z
}.

(** [f"{z:+d}"] *)
Definition signed_str (z : Z) : str :=
  if (z <? 0)%Z then int_str z else 43%N :: int_str z.

(** Lines 213 to 235: the winner and the margin. *)
Definition verdict (g : game) : str * str :=
  if game_over g then
    match result g with
    | Some r =>
        if is_empty r then (U "Draw", U "equal")
        else if contains (U "White") r then (U "White", U "equal")
        else if contains (U "Black") r then (U "Black", U "equal")
        else (U "Draw", U "equal")
    | None => (U "Draw", U "equal")
    end
  else
    let score := evaluate_position g in
    if (300 <? score)%Z then (U "White (by material)", U "decisive")
    else if (100 <? score)%Z then (U "White (slight advantage)", U "slight")
    else if (score <? -300)%Z then (U "Black (by material)", U "decisive")
    else if (score <? -100)%Z then (U "Black (slight advantage)", U "slight")
    else (U "Draw (equal position)", U "equal").

Definition append_strategy (a : analysis) (who : str) (line : str)
  : analysis :=
  if Str.eqb who (U "White") then
    {| total_moves := total_moves a; winner := winner a;
       winning_margin := winning_margin a; key_moves := key_moves a;
       white_strategy := white_strategy a ++ [line];
       black_strategy := black_strategy a;
       turning_points := turning_points a |}
  else
    {| total_moves := total_moves a; winner := winner a;
       winning_margin := winning_margin a; key_moves := key_moves a;
       white_strategy := white_strategy a;
       black_strategy := black_strategy a ++ [line];
       turning_points := turning_points a |}.

Definition append_turning_point (a : analysis) (tp : turning_point)
           (key : str) : analysis :=
  {| total_moves := total_moves a; winner := winner a;
     winning_margin := winning_margin a;
     key_moves := key_moves a ++ [key];
     white_strategy := white_strategy a;
     black_strategy := black_strategy a;
     turning_points := turning_points a ++ [tp] |}.

(** The body of the loop over [move_log] (lines 240 to 269). *)
Definition log_entry (lower : str -> str) (a : analysis) (prev_score : Z)
           (e : entry) : analysis :=
  let a1 :=
    if contains (U "check") (lower (reason e))
       || contains (U "CHECK") (reason e)
    then append_strategy a (player e)
           (U "Move " ++ int_str (move_num e)
            ++ U ": Aggressive check with " ++ move e)
    else a in
  let a2 :=
    if contains (U "capture") (lower (reason e))
       || contains (U "Captures") (reason e)
    then append_strategy a1 (player e)
           (U "Move " ++ int_str (move_num e)
            ++ U ": Material gain with " ++ move e)
    else a1 in
  let score_change := (score e - prev_score)%Z in
  if (200 <? Z.abs score_change)%Z then
    append_turning_point a2
      {| tp_move := move_num e; tp_player := player e;
         description := move e ++ U " caused major shift ("
                        ++ signed_str score_change ++ U ")" |}
      (U "Move " ++ int_str (move_num e) ++ U ": " ++ player e
       ++ U "'s " ++ move e ++ U " - " ++ reason e)
  else a2.

Fixpoint log_entries (lower : str -> str) (a : analysis) (prev_score : Z)
         (move_log : list entry) : analysis :=
  match move_log with
  | [] => a
  | e :: move_log' =>
      log_entries lower (log_entry lower a prev_score e) (score e)
                  move_log'
  end.

(** [analyze_game(game, move_log)] *)
Definition analyze_game (lower : str -> str) (g : game)
           (move_log : list entry) : analysis :=
  let a0 :=
    {| total_moves := List.length move_log;
       winner := Some (fst (verdict g));
       winning_margin := snd (verdict g);
       key_moves := []; white_strategy := []; black_strategy := [];
       turning_points := [] |} in
  let a := log_entries lower a0 0 move_log in
  {| total_moves := total_moves a; winner := winner a;
     winning_margin := winning_margin a;
     key_moves := firstn 5 (key_moves a);
     white_strategy := firstn 5 (white_strategy a);
     black_strategy := firstn 5 (black_strategy a);
     turning_points := turning_points a |}.

End ChessAnalysis.

(** ** The echo bridge (agent_backend/pty_echo_bridge.py) *)

Module PtyEcho.

(** One chunk:

      try:
          os.write(fd, chunk)
      except BlockingIOError:
          time.sleep(0.01)
          os.write(fd, chunk)                                         *)
Definition write_chunk (chunk : bytes) : M unit :=
  written <- os_write chunk ;;
  if written then ret tt
  else
    emit (Sleep 10) ;;;
    (again <- os_write chunk ;;
     if again then ret tt else raise).

(** The body of [for i in range(0, len(resp_str), 32)]. *)
Fixpoint send_chunks (resp_str : str) (idx : list nat) : M unit :=
  match idx with
  | [] => ret tt
  | i :: idx' =>
      match encode (slice resp_str i (i + 32)) with
      | None => raise
      | Some chunk =>
          write_chunk chunk ;;;
          emit (Sleep 20) ;;;
          send_chunks resp_str idx'
      end
  end.

Definition send (resp_str : str) : M unit :=
  send_chunks resp_str (range (List.length resp_str) 32).

(** [msg.get('content', '')[:50]], evaluated for the console whatever
    the type of the message: whether the value can be sliced. *)
Definition sliceable (v : pyval) : bool :=
  match v with
  | PStr _ | PList _ => true
  | _ => false
  end.

(** [f"Echo: {v}"]; [format] is [str] on the values that are no
    [str]. *)
Definition echo_text (format : pyval -> str) (v : pyval) : str :=
  U "Echo: " ++ match v with
                | PStr s => s
                | _ => format v
                end.

(** The body of the inner [while] loop for one non-empty stripped line
    (lines 84 to 111); only [json.JSONDecodeError] is caught. *)
Definition process_line (format : pyval -> str) (fr : str -> str)
           (line : str) : M unit :=
  match loads line with
  | None => ret tt
  | Some (PDict d) =>
      let content :=
        match dict_get d (U "content") with
        | Some v => v
        | None => PStr []
        end in
      let msg_id :=
        match dict_get d (U "id") with Some v => v | None => PNone end in
      if sliceable content then
        if is_task d then
          let reply :=
            make_reply msg_id (U "response") (echo_text format content) in
          emit (Reply reply) ;;;
          send (dumps fr (PDict reply) ++ [NL])
        else ret tt
      else raise
  | Some _ => raise
  end.

End PtyEcho.

(** ** The pipe bridge of the prototype (agent_prototype/kernel_bridge.py) *)

Module KernelBridge.

(** What [read_stream] does, in order. *)
Inductive action :=
| Console (byte : N)          (* [sys.stdout.buffer.write(byte)] *)
| Command (cmd : str)         (* [process_command(cmd)] *)
| Stdin (data : bytes).       (* [process.stdin.write(data)] *)

(** [response.replace('\n', '\r\n')] *)
Definition crlf (response : str) : str :=
  flat_map (fun c => if N.eqb c NL then [13%N; NL] else [c]) response.

(** [current_line.pop()] on a list that is not empty. *)
Definition pop (current_line : list str) : list str :=
  removelast current_line.

(** [read_stream(process, input_buffer)] on the bytes QEMU writes until
    its output ends: the actions, and whether an exception ended the
    function.  A byte 0x02 announces one byte of user input; any other
    byte is passed to the console.  [process_command n cmd] is the
    outcome of the call of [process_command(cmd)] that [n] calls
    preceded (the agent keeps a history); the writes to the pipe and to
    the console are taken to succeed. *)
Fixpoint read_stream (process_command : nat -> str -> outcome str)
         (calls : nat) (stdout : bytes) (current_line : list str)
  : list action * bool :=
  match stdout with
  | [] => ([], false)
  | byte :: stdout' =>
      if N.eqb byte 2 then
        match stdout' with
        | [] => ([], false)
        | data_byte :: stdout'' =>
            let char := decode_ignore [data_byte] in
            if Str.eqb char [NL] || Str.eqb char [13%N] then
              let cmd := strip (concat current_line) in
              if is_empty cmd then
                let (acts, raised) :=
                  read_stream process_command calls stdout'' [] in
                (Stdin [13%N; NL; 62%N; 32%N] :: acts, raised)
              else
                match process_command calls cmd with
                | Raised _ => ([Command cmd], true)
                | Returned response =>
                    match encode (crlf response
                                  ++ [13%N; NL; 62%N; 32%N]) with
                    | None => ([Command cmd], true)
                    | Some data =>
                        let (acts, raised) :=
                          read_stream process_command (S calls)
                                      stdout'' [] in
                        (Command cmd :: Stdin data :: acts, raised)
                    end
                end
            else if Str.eqb char [8%N] || Str.eqb char [127%N] then
              read_stream process_command calls stdout''
                          (match current_line with
                           | [] => []
                           | _ => pop current_line
                           end)
            else
              read_stream process_command calls stdout''
                          (current_line ++ [char])
        end
      else
        let (acts, raised) :=
          read_stream process_command calls stdout' current_line in
        (Console byte :: acts, raised)
  end.

(** The bytes the kernel writes for a text typed by the user: each
    character after the marker 0x02. *)
Definition keys (text : str) : bytes :=
  flat_map (fun c => [2%N; c]) text.

End KernelBridge.

(** * Properties *)

(** ** The framer *)

Section FramerFacts.

Lemma split_lines_app (x y : str) :
  split_lines (x ++ y) =
  (fst (split_lines x) ++ fst (split_lines (snd (split_lines x) ++ y)),
   snd (split_lines (snd (split_lines x) ++ y))).
Proof.
  induction x as [|c x IH].
  - cbn. destruct (split_lines y); reflexivity.
  - cbn [app split_lines]. rewrite IH. clear IH.
    destruct (split_lines x) as [ls rest]. cbn [fst snd].
    destruct (N.eqb c NL) eqn:E.
    + reflexivity.
    + destruct ls as [|l ls'].
      * cbn [fst snd app split_lines]. rewrite E.
        destruct (split_lines (rest ++ y)) as [ls2 r2]. cbn [fst snd].
        destruct ls2; reflexivity.
      * reflexivity.
Qed.

Lemma records_of_app (a b : list str) :
  records_of (a ++ b) = records_of a ++ records_of b.
Proof. unfold records_of. now rewrite map_app, filter_app. Qed.

(** What is left in the buffer holds no complete line. *)
Lemma split_lines_rest (buf : str) :
  split_lines (snd (split_lines buf)) = ([], snd (split_lines buf)).
Proof.
  induction buf as [|c buf IH]; [reflexivity|].
  cbn [split_lines]. destruct (split_lines buf) as [ls rest].
  cbn [snd] in IH. destruct (N.eqb c NL) eqn:E; [exact IH|].
  destruct ls; cbn [snd]; [|exact IH].
  cbn [split_lines]. rewrite IH, E. reflexivity.
Qed.

(** The [while] loop, one turn at a time: with a newline in the buffer
    the first line is split off and the loop goes on with the rest. *)
Lemma split_lines_unfold (buf : str) :
  split_lines buf =
  match split1 buf with
  | None => ([], buf)
  | Some (l, r) => (l :: fst (split_lines r), snd (split_lines r))
  end.
Proof.
  induction buf as [|c buf IH]; [reflexivity|].
  cbn [split_lines split1]. rewrite IH.
  destruct (N.eqb c NL) eqn:E.
  - rewrite <- IH. destruct (split_lines buf); reflexivity.
  - destruct (split1 buf) as [[l r]|]; reflexivity.
Qed.

End FramerFacts.

(** ** Decoding read by read *)

Section DecodeFacts.

Lemma decode_ignore_cons (b0 : N) (t0 : bytes) :
  decode_ignore (b0 :: t0) =
  if (b0 <? 128)%N then b0 :: decode_ignore t0
  else if (b0 <? 194)%N then decode_ignore t0
  else if (b0 <? 224)%N then
    match t0 with
    | [] => []
    | b1 :: t1 =>
        if is_cont b1 then cp2 b0 b1 :: decode_ignore t1
        else decode_ignore t0
    end
  else if (b0 <? 240)%N then
    match t0 with
    | [] => []
    | b1 :: t1 =>
        if second3_ok b0 b1 then
          match t1 with
          | [] => []
          | b2 :: t2 =>
              if is_cont b2 then cp3 b0 b1 b2 :: decode_ignore t2
              else decode_ignore t1
          end
        else decode_ignore t0
    end
  else if (b0 <? 245)%N then
    match t0 with
    | [] => []
    | b1 :: t1 =>
        if second4_ok b0 b1 then
          match t1 with
          | [] => []
          | b2 :: t2 =>
              if is_cont b2 then
                match t2 with
                | [] => []
                | b3 :: t3 =>
                    if is_cont b3
                    then cp4 b0 b1 b2 b3 :: decode_ignore t3
                    else decode_ignore t2
                end
              else decode_ignore t1
          end
        else decode_ignore t0
    end
  else decode_ignore t0.
Proof. destruct t0 as [|? [|? [|? ?]]]; reflexivity. Qed.

Lemma cut_at_end_cons (b0 : N) (t0 : bytes) :
  cut_at_end (b0 :: t0) =
  if (b0 <? 128)%N then cut_at_end t0
  else if (b0 <? 194)%N then cut_at_end t0
  else if (b0 <? 224)%N then
    match t0 with
    | [] => true
    | b1 :: t1 => if is_cont b1 then cut_at_end t1 else cut_at_end t0
    end
  else if (b0 <? 240)%N then
    match t0 with
    | [] => true
    | b1 :: t1 =>
        if second3_ok b0 b1 then
          match t1 with
          | [] => true
          | b2 :: t2 =>
              if is_cont b2 then cut_at_end t2 else cut_at_end t1
          end
        else cut_at_end t0
    end
  else if (b0 <? 245)%N then
    match t0 with
    | [] => true
    | b1 :: t1 =>
        if second4_ok b0 b1 then
          match t1 with
          | [] => true
          | b2 :: t2 =>
              if is_cont b2 then
                match t2 with
                | [] => true
                | b3 :: t3 =>
                    if is_cont b3 then cut_at_end t3 else cut_at_end t2
                end
              else cut_at_end t1
          end
        else cut_at_end t0
    end
  else cut_at_end t0.
Proof. destruct t0 as [|? [|? [|? ?]]]; reflexivity. Qed.

(** A read that does not end inside a multi-byte sequence decodes the
    same whatever follows it. *)
Lemma decode_ignore_app_bounded (n : nat) :
  forall a b, List.length a <= n -> cut_at_end a = false ->
  decode_ignore (a ++ b) = decode_ignore a ++ decode_ignore b.
Proof.
  induction n as [|n IH]; intros a b Hlen Hcut.
  - destruct a; [reflexivity | cbn in Hlen; lia].
  - assert (use : forall a', List.length a' < List.length a ->
              cut_at_end a' = false ->
              decode_ignore (a' ++ b) = decode_ignore a' ++ decode_ignore b)
      by (intros a' Hl Hc; apply IH; [lia | exact Hc]).
    clear IH. destruct a as [|b0 t0]; [reflexivity|].
    rewrite cut_at_end_cons in Hcut.
    rewrite <- app_comm_cons, decode_ignore_cons, (decode_ignore_cons b0 t0).
    cbn [List.length] in use.
    destruct (b0 <? 128)%N; [cbn [app]; f_equal; apply use; [lia|assumption]|].
    destruct (b0 <? 194)%N; [apply use; [lia|assumption]|].
    destruct (b0 <? 224)%N.
    { destruct t0 as [|b1 t1]; [discriminate|]. cbn [app List.length] in *.
      destruct (is_cont b1).
      - cbn [app]; f_equal. apply use; [lia|assumption].
      - apply (use (b1 :: t1)); [cbn [List.length]; lia|assumption]. }
    destruct (b0 <? 240)%N.
    { destruct t0 as [|b1 t1]; [discriminate|]. cbn [app List.length] in *.
      destruct (second3_ok b0 b1).
      - destruct t1 as [|b2 t2]; [discriminate|]. cbn [app List.length] in *.
        destruct (is_cont b2).
        + cbn [app]; f_equal. apply use; [lia|assumption].
        + apply (use (b2 :: t2)); [cbn [List.length]; lia|assumption].
      - apply (use (b1 :: t1)); [cbn [List.length]; lia|assumption]. }
    destruct (b0 <? 245)%N.
    { destruct t0 as [|b1 t1]; [discriminate|]. cbn [app List.length] in *.
      destruct (second4_ok b0 b1).
      - destruct t1 as [|b2 t2]; [discriminate|]. cbn [app List.length] in *.
        destruct (is_cont b2).
        + destruct t2 as [|b3 t3]; [discriminate|].
          cbn [app List.length] in *.
          destruct (is_cont b3).
          * cbn [app]; f_equal. apply use; [lia|assumption].
          * apply (use (b3 :: t3)); [cbn [List.length]; lia|assumption].
        + apply (use (b2 :: t2)); [cbn [List.length]; lia|assumption].
      - apply (use (b1 :: t1)); [cbn [List.length]; lia|assumption]. }
    apply use; [lia|assumption].
Qed.

Lemma decode_ignore_app (a b : bytes) :
  cut_at_end a = false ->
  decode_ignore (a ++ b) = decode_ignore a ++ decode_ignore b.
Proof. apply decode_ignore_app_bounded with (n := List.length a). lia. Qed.

Lemma decode_ignore_concat (reads : list bytes) :
  clean_splits reads ->
  decode_ignore (concat reads) = flat_map decode_ignore reads.
Proof.
  induction reads as [|d ds IH]; [reflexivity|].
  destruct ds as [|d' ds'].
  - intros _. cbn. now rewrite !app_nil_r.
  - intros [Hd Hds]. cbn [concat flat_map] in *.
    rewrite decode_ignore_app by exact Hd. f_equal. apply IH. exact Hds.
Qed.

End DecodeFacts.

(** ** Framing does not depend on where the reads are cut *)

Section Framing.

Lemma feed_all_flat (reads : list bytes) :
  forall buf,
    split_lines buf = ([], buf) ->
    feed_all buf reads =
    (snd (split_lines (buf ++ flat_map decode_ignore reads)),
     records_of (fst (split_lines (buf ++ flat_map decode_ignore reads)))).
Proof.
  induction reads as [|d ds IH]; intros buf Hbuf.
  - cbn [feed_all flat_map]. rewrite List.app_nil_r, Hbuf. reflexivity.
  - cbn [feed_all flat_map]. unfold feed.
    rewrite List.app_assoc, (split_lines_app (buf ++ decode_ignore d)).
    pose proof (split_lines_rest (buf ++ decode_ignore d)) as Hrest.
    destruct (split_lines (buf ++ decode_ignore d)) as [ls1 rest1].
    cbn [fst snd] in *. rewrite (IH rest1 Hrest).
    rewrite records_of_app. reflexivity.
Qed.

(** C4, as amended: when no read but the last ends inside a multi-byte
    UTF-8 sequence (every cut of ASCII data is such), feeding the reads
    one after the other gives the records, in order, and the pending
    buffer that feeding the whole stream at once gives.  [feed] is a
    total function: undecodable bytes are dropped, never an error. *)
Theorem framing_independent_of_clean_splits (reads : list bytes) :
  clean_splits reads ->
  feed_all [] reads = feed [] (concat reads).
Proof.
  intros Hclean. rewrite feed_all_flat by reflexivity.
  unfold feed. rewrite <- decode_ignore_concat by exact Hclean.
  destruct (split_lines ([] ++ decode_ignore (concat reads))); reflexivity.
Qed.

Lemma framing_independent_of_clean_splits_witness :
  clean_splits [[123; 195; 169]; [125; 10; 226; 130; 172]; [10; 65]]%N
  /\ feed_all [] [[123; 195; 169]; [125; 10; 226; 130; 172]; [10; 65]]%N
     = feed [] (concat [[123; 195; 169]; [125; 10; 226; 130; 172];
                        [10; 65]]%N).
Proof.
  split.
  - vm_compute. auto.
  - apply framing_independent_of_clean_splits. vm_compute. auto.
Defined.

(** C4 as stated fails: a read that ends inside the two bytes of one
    character loses the character, and here the whole record. *)
Lemma split_inside_character_loses_record :
  snd (feed_all [] [[195]; [169; 10]]%N)
  <> snd (feed [] (concat [[195]; [169; 10]]%N)).
Proof. vm_compute. discriminate. Qed.

End Framing.

(** ** Further facts about the framer *)

Section FramerExamples.

Lemma ascii_never_cut (d : bytes) :
  Forall (fun b => (b < 128)%N) d -> cut_at_end d = false.
Proof.
  induction 1 as [|b d Hb _ IH]; [reflexivity|].
  rewrite cut_at_end_cons. apply N.ltb_lt in Hb. now rewrite Hb.
Qed.

(** Any way of cutting ASCII data into reads is clean. *)
Lemma ascii_reads_clean (reads : list bytes) :
  Forall (Forall (fun b => (b < 128)%N)) reads -> clean_splits reads.
Proof.
  induction 1 as [|d ds Hd _ IH]; [exact I|].
  destruct ds as [|d' ds']; [exact I|].
  split; [now apply ascii_never_cut | exact IH].
Qed.

Lemma decode_ignore_ascii (d : bytes) :
  Forall (fun b => (b < 128)%N) d -> decode_ignore d = d.
Proof.
  induction 1 as [|b d Hb _ IH]; [reflexivity|].
  rewrite decode_ignore_cons. apply N.ltb_lt in Hb. now rewrite Hb, IH.
Qed.

(** Empty lines, and lines of white space, give no record. *)
Example empty_lines_suppressed :
  feed [] ([NL; 32%N; NL] ++ J "{'id':1}" ++ [NL; NL])
  = ([], [J "{'id':1}"]).
Proof. vm_compute. reflexivity. Qed.

(** A record that arrives in two reads is one record. *)
Example partial_record_carried_over :
  feed_all [] [J "{'id':1,'target':'s'";
               J ",'msg_type':'x','content':'y'}" ++ [NL]]
  = ([], [J "{'id':1,'target':'s','msg_type':'x','content':'y'}"]).
Proof. vm_compute. reflexivity. Qed.

End FramerExamples.

(** ** The effects of the loop body *)

Section Effects.

Lemma bind_unfold {A B} (m : M A) (k : A -> M B) (w : world) :
  bind m k w =
  match m w with
  | (t1, w1, Some a) =>
      (t1 ++ trace (k a w1), snd (fst (k a w1)), result (k a w1))
  | (t1, w1, None) => (t1, w1, None)
  end.
Proof.
  unfold bind, trace, result.
  destruct (m w) as [[t1 w1] [a|]]; [|reflexivity].
  destruct (k a w1) as [[t2 w2] r]; reflexivity.
Qed.

Lemma emits_only_ret {A} P (a : A) : emits_only P (ret a).
Proof. intros w. constructor. Qed.

Lemma emits_only_raise {A} P : emits_only P (@raise A).
Proof. intros w. constructor. Qed.

Lemma emits_only_emit P e : P e -> emits_only P (emit e).
Proof. intros H w. cbn. auto. Qed.

Lemma emits_only_bind {A B} P (m : M A) (k : A -> M B) :
  emits_only P m -> (forall a, emits_only P (k a)) ->
  emits_only P (bind m k).
Proof.
  intros Hm Hk w. rewrite bind_unfold. specialize (Hm w).
  destruct (m w) as [[t1 w1] [a|]]; cbn [trace fst] in *; [|exact Hm].
  apply Forall_app. split; [exact Hm | apply Hk].
Qed.

Lemma emits_only_os_write P b :
  (forall o, P (Write b o)) -> emits_only P (os_write b).
Proof. intros H w. cbn. auto. Qed.

Lemma emits_only_write_chunk P n chunk :
  (forall b o, encode chunk = Some b -> P (Write b o)) -> P (Sleep 10) ->
  emits_only P (write_chunk n chunk).
Proof.
  intros Hw Hs. induction n as [|n IH]; cbn [write_chunk].
  - apply emits_only_ret.
  - destruct (encode chunk) as [b|]; [|apply emits_only_raise].
    apply emits_only_bind; [apply emits_only_os_write; auto|].
    intros [|]; [apply emits_only_ret|].
    apply emits_only_bind; [apply emits_only_emit; exact Hs | auto].
Qed.

Lemma emits_only_send_chunks P resp_str idx :
  (forall i b o, In i idx ->
                 encode (slice resp_str i (i + chunk_size)) = Some b ->
                 P (Write b o)) ->
  P (Sleep 10) -> P (Sleep 20) ->
  emits_only P (send_chunks resp_str idx).
Proof.
  intros Hw H10 H20.
  induction idx as [|i idx IH]; cbn [send_chunks].
  - apply emits_only_ret.
  - apply emits_only_bind.
    + apply emits_only_write_chunk; [|exact H10].
      intros b o. apply Hw. left. reflexivity.
    + intros _. apply emits_only_bind; [apply emits_only_emit; auto|].
      intros _. apply IH. intros i' b o Hin. apply Hw. right. exact Hin.
Qed.

Lemma emits_only_send P resp_str :
  (forall b o, P (Write b o)) -> (forall n, P (Sleep n)) ->
  emits_only P (send resp_str).
Proof.
  intros Hw Hs. apply emits_only_send_chunks; auto.
Qed.

Lemma emits_only_call P t arg o : P (Invoke t arg) -> emits_only P (call t arg o).
Proof. intros H w. cbn. auto. Qed.

Lemma emits_only_handle P X p :
  (forall t arg, P (Invoke t arg)) -> emits_only P (handle X p).
Proof.
  intros H. unfold handle.
  repeat match goal with
         | |- emits_only _ (if ?c then _ else _) => destruct c
         | |- emits_only _ (match ?c with _ => _ end) => destruct c
         | |- emits_only _ (call _ _ _) => apply emits_only_call; auto
         | |- emits_only _ (ret _) => apply emits_only_ret
         end.
  unfold call_agent. apply emits_only_bind.
  - apply emits_only_emit; auto.
  - intros _. apply emits_only_ret.
Qed.

Lemma to_shell_make_reply msg_id mt fc : to_shell (Reply (make_reply msg_id mt fc)).
Proof. reflexivity. Qed.

Lemma emits_only_process_line X line : emits_only to_shell (process_line X line).
Proof.
  unfold process_line.
  destruct (json_loads X line) as [msg| |];
    [|apply emits_only_ret|apply emits_only_raise].
  destruct (dumps_indent_raises X msg); [apply emits_only_raise|].
  destruct msg as [| | | | | |d]; try apply emits_only_raise.
  destruct (is_task d); [|apply emits_only_ret].
  unfold process_task. cbv zeta.
  destruct (stdout_encodes X _); [|apply emits_only_raise].
  destruct (dict_get d (U "content")) as [[| | | |p| |]|];
    try apply emits_only_raise.
  - apply emits_only_bind; [apply emits_only_handle; cbn; auto|].
    intros r. destruct (classify r) as [mt fc].
    apply emits_only_bind;
      [apply emits_only_emit, to_shell_make_reply|].
    intros _. destruct (dumps_raises X _); [apply emits_only_raise|].
    apply emits_only_send; cbn; auto.
  - apply emits_only_bind; [apply emits_only_handle; cbn; auto|].
    intros r. destruct (classify r) as [mt fc].
    apply emits_only_bind;
      [apply emits_only_emit, to_shell_make_reply|].
    intros _. destruct (dumps_raises X _); [apply emits_only_raise|].
    apply emits_only_send; cbn; auto.
Qed.

Lemma emits_only_drain_lines X ls : emits_only to_shell (drain_lines X ls).
Proof.
  induction ls as [|l ls IH]; cbn [drain_lines]; [apply emits_only_ret|].
  destruct (is_empty (strip l)); [exact IH|].
  apply emits_only_bind; [apply emits_only_process_line | auto].
Qed.

Lemma emits_only_after_read X buf hc : emits_only to_shell (after_read X buf hc).
Proof.
  unfold after_read. apply emits_only_bind.
  - unfold heartbeat. destruct (1000 <=? S hc); [|apply emits_only_ret].
    apply emits_only_bind; [apply emits_only_emit; exact I|].
    intros _. apply emits_only_ret.
  - intros hc'. destruct (split_lines buf) as [ls rest].
    apply emits_only_bind; [apply emits_only_drain_lines|]. intros _.
    apply emits_only_bind; [apply emits_only_emit; exact I|]. intros _.
    apply emits_only_ret.
Qed.

Lemma trace_finish r : trace (finish r) = trace r.
Proof. destruct r as [[t w] [st|]]; reflexivity. Qed.

Lemma iteration_to_shell X st i w : Forall to_shell (trace (iteration X st i w)).
Proof.
  unfold iteration. destruct (read i) as [data| |errno].
  - rewrite trace_finish. apply emits_only_after_read.
  - rewrite trace_finish. apply emits_only_after_read.
  - destruct (errno =? 35)%Z;
      [rewrite trace_finish; apply emits_only_after_read|].
    destruct (errno =? 5)%Z; [|cbn; constructor].
    destruct (path_exists i).
    + rewrite trace_finish.
      apply (emits_only_bind (P := to_shell));
        [apply emits_only_emit; exact I|]. intros _.
      apply emits_only_bind; [apply emits_only_emit; exact I|]. intros _.
      apply emits_only_after_read.
    + cbn. repeat constructor.
Qed.

(** C10: every reply the loop builds is addressed to ["shell"]; the
    [target] of the request plays no part. *)
Theorem reply_target_is_shell X ins :
  forall st w e,
    In e (trace (run X st ins w)) ->
    match e with
    | Reply r => dict_get r (U "target") = Some (PStr (U "shell"))
    | _ => True
    end.
Proof.
  induction ins as [|i ins IH]; intros st w e Hin; [destruct Hin|].
  cbn [run] in Hin. pose proof (iteration_to_shell X st i w) as Hit.
  destruct (iteration X st i w) as [[t w1] [st1| |]]; cbn [trace fst] in *.
  - specialize (IH st1 w1 e).
    destruct (run X st1 ins w1) as [[t' w2] s]. cbn [trace fst] in *.
    apply in_app_or in Hin. destruct Hin as [Hin|Hin]; [|exact (IH Hin)].
    rewrite Forall_forall in Hit. apply (Hit e Hin).
  - rewrite Forall_forall in Hit. apply (Hit e Hin).
  - rewrite Forall_forall in Hit. apply (Hit e Hin).
Qed.

End Effects.

(** ** Disconnection and recovery *)

Section Recovery.

Variable X : Externals.

Lemma heartbeat_run hc w :
  heartbeat hc w = (beat hc, w, Some (next_count hc)).
Proof.
  unfold heartbeat, beat, next_count.
  destruct (1000 <=? S hc); reflexivity.
Qed.

Lemma after_read_buffer buf hc w t w' st' :
  after_read X buf hc w = (t, w', Some st') ->
  read_buffer st' = snd (split_lines buf).
Proof.
  unfold after_read. rewrite bind_unfold, heartbeat_run.
  destruct (split_lines buf) as [ls rest]. rewrite bind_unfold.
  destruct (drain_lines X ls w) as [[t2 w2] [u|]]; cbn.
  - intros H. inversion H. reflexivity.
  - discriminate.
Qed.

(** With no complete line in the buffer the rest of the iteration is
    the heartbeat and the idle sleep, and the buffer stays as it is. *)
Lemma after_read_idle buf hc w :
  split_lines buf = ([], buf) ->
  after_read X buf hc w =
  (beat hc ++ [Sleep 10], w,
   Some {| read_buffer := buf; heartbeat_counter := next_count hc |}).
Proof.
  intros H. unfold after_read. rewrite bind_unfold, heartbeat_run, H.
  cbn. reflexivity.
Qed.

Lemma finish_running r t w st :
  finish r = (t, w, Running st) -> r = (t, w, Some st).
Proof.
  destruct r as [[t0 w0] [s|]]; cbn; intros H; inversion H; reflexivity.
Qed.

Lemma iteration_buffer st i w t w' st' :
  iteration X st i w = (t, w', Running st') ->
  split_lines (read_buffer st') = ([], read_buffer st').
Proof.
  unfold iteration. intros H.
  assert (Hafter : forall buf hc w0 t0,
             finish (after_read X buf hc w0) = (t0, w', Running st') ->
             split_lines (read_buffer st') = ([], read_buffer st')).
  { intros buf hc w0 t0 E. apply finish_running in E.
    apply after_read_buffer in E. rewrite E. apply split_lines_rest. }
  destruct (read i) as [data| |errno]; [eauto | eauto |].
  destruct (errno =? 35)%Z; [eauto|].
  destruct (errno =? 5)%Z; [|discriminate].
  destruct (path_exists i); [|discriminate].
  rewrite bind_unfold in H. cbn [emit trace result fst snd] in H.
  rewrite bind_unfold in H. cbn [emit trace result fst snd] in H.
  destruct (after_read X (read_buffer st) (heartbeat_counter st) w)
    as [[t1 w1] [s|]] eqn:E; cbn in H; [|discriminate].
  inversion H; subst. apply after_read_buffer in E. rewrite E.
  apply split_lines_rest.
Qed.

(** At the top of an iteration the buffer holds no complete line. *)
Lemma reachable_no_line st :
  reachable X st -> split_lines (read_buffer st) = ([], read_buffer st).
Proof.
  induction 1 as [|st i w t w' st' _ _ Hit]; [reflexivity|].
  eapply iteration_buffer; eassumption.
Qed.

(** C7: on [EIO] the loop sleeps two seconds and looks for the device
    path; without it the loop ends; with it the iteration goes on as an
    idle one and the pending buffer is the one it had.  A read that
    would block ([BlockingIOError], or errno 35) is an idle iteration
    too. *)
Theorem disconnect_recovery st w :
  reachable X st ->
  iteration X st {| read := ReadOSError 5; path_exists := false |} w
  = ([Sleep 2000; PathCheck false], w, PathGone)
  /\ iteration X st {| read := ReadOSError 5; path_exists := true |} w
     = (Sleep 2000 :: PathCheck true :: trace (idle st w), w,
        result (idle st w))
  /\ (forall p,
        iteration X st {| read := ReadBlocking; path_exists := p |} w
        = idle st w
        /\ iteration X st {| read := ReadOSError 35; path_exists := p |} w
           = idle st w).
Proof.
  intros Hreach. apply reachable_no_line in Hreach.
  unfold iteration, idle. cbn [read path_exists Z.eqb Pos.eqb].
  split; [reflexivity|]. split; [|intros p; split].
  - do 2 (rewrite bind_unfold; cbn [emit trace result fst snd app]).
    rewrite after_read_idle by exact Hreach. reflexivity.
  - rewrite after_read_idle by exact Hreach. reflexivity.
  - rewrite after_read_idle by exact Hreach. reflexivity.
Qed.

End Recovery.

Lemma disconnect_recovery_witness :
  reachable example_externals initial
  /\ iteration example_externals initial
               {| read := ReadOSError 5; path_exists := true |} []
     = ([Sleep 2000; PathCheck true; Sleep 10], [],
        Running {| read_buffer := []; heartbeat_counter := 1 |}).
Proof.
  split; [constructor|].
  exact (proj1 (proj2 (@disconnect_recovery example_externals initial []
                         (reach_initial example_externals)))).
Defined.

(** ** The paced writer *)

Section PacedWriter.

(** C9: when the three attempts at a chunk all meet [BlockingIOError]
    (each followed by the 10 ms backoff), the chunk is given up without
    an error: the pause between chunks follows and the writer goes on
    with the chunks that remain, whose outcome is that of the send. *)
Theorem retry_exhaustion_drops_chunk resp_str i idx b w :
  encode (slice resp_str i (i + chunk_size)) = Some b ->
  send_chunks resp_str (i :: idx)
              (WriteBlocked :: WriteBlocked :: WriteBlocked :: w)
  = ([Write b WriteBlocked; Sleep 10;
      Write b WriteBlocked; Sleep 10;
      Write b WriteBlocked; Sleep 10;
      Sleep 20] ++ trace (send_chunks resp_str idx w),
     snd (fst (send_chunks resp_str idx w)),
     result (send_chunks resp_str idx w)).
Proof.
  intros Henc. cbn [send_chunks write_chunk]. rewrite Henc.
  unfold bind, os_write, emit, ret. cbn [hd tl].
  destruct (send_chunks resp_str idx w) as [[t w'] r]. reflexivity.
Qed.

Lemma retry_exhaustion_drops_chunk_witness :
  encode (slice (U "0123456789abcdefghijklmnopqrstuvwxyz") 0 (0 + chunk_size))
  = Some (U "0123456789abcdefghijklmnopqrstuv")
  /\ send_chunks (U "0123456789abcdefghijklmnopqrstuvwxyz") [0; 32]
                 [WriteBlocked; WriteBlocked; WriteBlocked]
     = ([Write (U "0123456789abcdefghijklmnopqrstuv") WriteBlocked; Sleep 10;
         Write (U "0123456789abcdefghijklmnopqrstuv") WriteBlocked; Sleep 10;
         Write (U "0123456789abcdefghijklmnopqrstuv") WriteBlocked; Sleep 10;
         Sleep 20; Write (U "wxyz") WriteOk; Sleep 20], [], Some tt).
Proof.
  split; [reflexivity|].
  exact (@retry_exhaustion_drops_chunk
           (U "0123456789abcdefghijklmnopqrstuvwxyz") 0 [32]
           (U "0123456789abcdefghijklmnopqrstuv") [] eq_refl).
Defined.

(** *** The chunks of a record *)

Lemma ceil_div_step (m step : nat) :
  0 < step -> 0 < m -> ceil_div m step = S (ceil_div (m - step) step).
Proof.
  intros Hs Hm. unfold ceil_div.
  destruct (Nat.le_gt_cases m step) as [Hle|Hgt].
  - replace (m - step) with 0 by lia.
    rewrite (Nat.div_small (0 + step - 1)) by lia.
    symmetry. apply Nat.div_unique with (r := m - 1); lia.
  - replace (m + step - 1) with ((m - step + step - 1) + 1 * step) by lia.
    rewrite Nat.div_add by lia. lia.
Qed.

Lemma ceil_div_0 (step : nat) : 0 < step -> ceil_div 0 step = 0.
Proof. intros H. unfold ceil_div. apply Nat.div_small. lia. Qed.

Lemma range_from_length (step n fuel : nat) :
  0 < step ->
  forall i, n - i <= fuel ->
  List.length (range_from fuel i n step) = ceil_div (n - i) step.
Proof.
  intros Hs. induction fuel as [|fuel IH]; intros i Hf.
  - cbn. replace (n - i) with 0 by lia. now rewrite ceil_div_0.
  - cbn [range_from]. destruct (i <? n) eqn:E.
    + apply Nat.ltb_lt in E. cbn [List.length].
      rewrite IH by lia. rewrite (ceil_div_step (m := n - i)) by lia.
      f_equal. f_equal. lia.
    + apply Nat.ltb_ge in E. replace (n - i) with 0 by lia.
      now rewrite ceil_div_0.
Qed.

Lemma range_length (n step : nat) :
  0 < step -> List.length (range n step) = ceil_div n step.
Proof.
  intros Hs. unfold range. rewrite range_from_length by lia.
  f_equal. lia.
Qed.

Lemma slice_chunk (s : str) (i c : nat) :
  slice s i (i + c) = firstn c (skipn i s).
Proof. unfold slice. f_equal. lia. Qed.

Lemma chunks_from_concat (s : str) (c fuel : nat) :
  0 < c ->
  forall i, List.length s - i <= fuel ->
  concat (map (fun i => slice s i (i + c))
              (range_from fuel i (List.length s) c))
  = skipn i s.
Proof.
  intros Hc. induction fuel as [|fuel IH]; intros i Hf.
  - cbn. symmetry. apply skipn_all2. lia.
  - cbn [range_from]. destruct (i <? List.length s) eqn:E.
    + cbn [map concat]. rewrite IH by (apply Nat.ltb_lt in E; lia).
      rewrite slice_chunk, Nat.add_comm, <- skipn_skipn.
      apply firstn_skipn.
    + apply Nat.ltb_ge in E. cbn. symmetry. apply skipn_all2. exact E.
Qed.

Lemma chunks_concat (s : str) : concat (chunks s) = s.
Proof.
  unfold chunks, range. rewrite chunks_from_concat; [reflexivity| |].
  - unfold chunk_size. lia.
  - lia.
Qed.

Lemma chunks_length (s : str) :
  List.length (chunks s) = ceil_div (List.length s) chunk_size.
Proof.
  unfold chunks. rewrite length_map. apply range_length.
  unfold chunk_size. lia.
Qed.

Lemma chunk_bound (s c : str) :
  In c (chunks s) -> List.length c <= chunk_size.
Proof.
  unfold chunks. intros H. apply in_map_iff in H.
  destruct H as [i [<- _]]. rewrite slice_chunk.
  apply firstn_le_length.
Qed.

(** *** Records of ASCII text *)

Lemma encode_ascii (s : str) : ascii_text s -> encode s = Some s.
Proof.
  induction 1 as [|c s Hc _ IH]; [reflexivity|].
  cbn [encode]. rewrite IH. unfold encode_char.
  apply N.ltb_lt in Hc. rewrite Hc. reflexivity.
Qed.

Lemma Forall_firstn_of {A} (P : A -> Prop) (n : nat) (l : list A) :
  Forall P l -> Forall P (firstn n l).
Proof.
  intros H. revert n. induction H; intros [|n]; cbn; auto.
Qed.

Lemma Forall_skipn_of {A} (P : A -> Prop) (n : nat) (l : list A) :
  Forall P l -> Forall P (skipn n l).
Proof.
  intros H. revert n. induction H; intros [|n]; cbn; auto.
Qed.

Lemma ascii_text_slice (s : str) (i j : nat) :
  ascii_text s -> ascii_text (slice s i j).
Proof.
  intros H. apply Forall_firstn_of, Forall_skipn_of, H.
Qed.

Lemma send_chunks_unblocked (resp_str : str) (idx : list nat) :
  ascii_text resp_str ->
  send_chunks resp_str idx []
  = (flat_map paced (map (fun i => slice resp_str i (i + chunk_size)) idx),
     [], Some tt).
Proof.
  intros Ha. induction idx as [|i idx IH]; [reflexivity|].
  cbn [send_chunks write_chunk map flat_map].
  rewrite (encode_ascii (ascii_text_slice i (i + chunk_size) Ha)).
  unfold bind at 1. unfold bind at 1. cbn [os_write hd tl ret].
  unfold bind at 1. cbn [emit]. rewrite IH. reflexivity.
Qed.

End PacedWriter.

(** ** The text [json.dumps] writes *)

Section DumpsPrintable.

Lemma printable_ascii (s : str) : printable_text s -> ascii_text s.
Proof.
  apply Forall_impl. intros c H. lia.
Qed.

Lemma printable_text_app (a b : str) :
  printable_text a -> printable_text b -> printable_text (a ++ b).
Proof. intros Ha Hb. apply Forall_app. auto. Qed.

Lemma hex_digit_printable (d : N) :
  (d < 16)%N -> (32 <= hex_digit d <= 126)%N.
Proof. intros H. unfold hex_digit. destruct (d <? 10)%N; cbv iota; lia. Qed.

Lemma uXXXX_printable (n : N) : (n < 65536)%N -> printable_text (uXXXX n).
Proof.
  intros H. unfold uXXXX, hex4, BSLASH.
  assert (H1 : (n / 4096 < 16)%N) by (apply N.Div0.div_lt_upper_bound; lia).
  assert (H2 : ((n / 256) mod 16 < 16)%N) by (apply N.mod_lt; lia).
  assert (H3 : ((n / 16) mod 16 < 16)%N) by (apply N.mod_lt; lia).
  assert (H4 : (n mod 16 < 16)%N) by (apply N.mod_lt; lia).
  repeat (constructor; [first [lia | now apply hex_digit_printable]|]).
  constructor.
Qed.

Lemma escape_char_printable (c : N) : printable_text (escape_char c).
Proof.
  unfold escape_char, BSLASH.
  destruct (c =? 34)%N; [repeat constructor; lia|].
  destruct (c =? 92)%N; [repeat constructor; lia|].
  destruct (c =? 10)%N; [repeat constructor; lia|].
  destruct (c =? 13)%N; [repeat constructor; lia|].
  destruct (c =? 9)%N; [repeat constructor; lia|].
  destruct (c =? 8)%N; [repeat constructor; lia|].
  destruct (c =? 12)%N; [repeat constructor; lia|].
  destruct ((32 <=? c) && (c <=? 126))%N eqn:Hp.
  - apply andb_true_iff in Hp. destruct Hp as [Hlo Hhi].
    apply N.leb_le in Hlo, Hhi. repeat constructor; lia.
  - destruct (N.ltb_spec c 65536) as [Hlt|Hge].
    + now apply uXXXX_printable.
    + apply printable_text_app; apply uXXXX_printable.
      * pose proof (N.mod_lt ((c - 65536) / 1024) 1024). lia.
      * pose proof (N.mod_lt (c - 65536) 1024). lia.
Qed.

Lemma encode_string_printable (s : str) : printable_text (encode_string s).
Proof.
  unfold encode_string, QUOTE. constructor; [lia|].
  apply printable_text_app; [|repeat constructor; lia].
  induction s as [|c s IH]; [constructor|].
  cbn [flat_map].
  apply printable_text_app; [apply escape_char_printable | exact IH].
Qed.

Lemma uint_chars_printable (u : Decimal.uint) : printable_text (uint_chars u).
Proof.
  induction u; cbn [uint_chars]; constructor;
    first [exact IHu | cbv; split; discriminate | constructor].
Qed.

Lemma int_str_printable (z : Z) : printable_text (int_str z).
Proof.
  destruct z as [|p|p]; cbn [int_str].
  - repeat constructor; cbv; discriminate.
  - apply uint_chars_printable.
  - constructor; [lia | apply uint_chars_printable].
Qed.

End DumpsPrintable.

Section DumpsAll.

Variable fr : str -> str.
Hypothesis fr_printable : forall lx, printable_text (fr lx).

Lemma pyval_nested_ind (P : pyval -> Prop) :
  P PNone -> (forall b, P (PBool b)) -> (forall z, P (PInt z)) ->
  (forall lx, P (PFloat lx)) -> (forall s, P (PStr s)) ->
  (forall l, Forall P l -> P (PList l)) ->
  (forall d, Forall (fun kv => P (snd kv)) d -> P (PDict d)) ->
  forall v, P v.
Proof.
  intros HN HB HI HF HS HL HD. fix IH 1. intros [| b | z | lx | s | l | d].
  - exact HN.
  - apply HB.
  - apply HI.
  - apply HF.
  - apply HS.
  - apply HL. induction l as [|x l IHl]; constructor; [apply IH | exact IHl].
  - apply HD. induction d as [|[k x] d IHd]; constructor;
      [apply IH | exact IHd].
Qed.

Ltac printable_literal := solve [repeat constructor; cbv; discriminate].

(** Whatever the value, [json.dumps] writes printable ASCII, given that
    [float.__repr__] does. *)
Lemma dumps_printable (v : pyval) : printable_text (dumps fr v).
Proof.
  induction v as [| b | z | lx | s | l IHl | d IHd] using pyval_nested_ind;
    cbn [dumps].
  - printable_literal.
  - destruct b; printable_literal.
  - apply int_str_printable.
  - apply fr_printable.
  - apply encode_string_printable.
  - constructor; [lia|]. apply printable_text_app; [|printable_literal].
    induction IHl as [|x l Hx Hl IH]; [constructor|].
    destruct l as [|y l']; [exact Hx|].
    apply printable_text_app; [exact Hx|].
    apply printable_text_app; [printable_literal | exact IH].
  - constructor; [lia|]. apply printable_text_app; [|printable_literal].
    induction IHd as [|[k x] d Hx Hd IH]; [constructor|].
    cbn [snd] in Hx.
    destruct d as [|y d'].
    + apply printable_text_app; [apply encode_string_printable|].
      apply printable_text_app; [printable_literal | exact Hx].
    + apply printable_text_app; [apply encode_string_printable|].
      apply printable_text_app; [printable_literal|].
      apply printable_text_app; [exact Hx|].
      apply printable_text_app; [printable_literal | exact IH].
Qed.

Lemma dumps_ascii (v : pyval) : ascii_text (dumps fr v).
Proof. apply printable_ascii, dumps_printable. Qed.

End DumpsAll.

Section ReplyAscii.

Lemma ascii_text_app (a b : str) :
  ascii_text a -> ascii_text b -> ascii_text (a ++ b).
Proof. intros Ha Hb. apply Forall_app. auto. Qed.

Lemma encode_string_ascii (s : str) : ascii_text (encode_string s).
Proof. apply printable_ascii, encode_string_printable. Qed.

(** The record of a reply is ASCII text once its [id] prints as ASCII
    (every JSON value does, see [dumps_ascii]). *)
Lemma reply_record_ascii fr msg_id mt fc :
  ascii_text (dumps fr msg_id) ->
  ascii_text (dumps fr (PDict (make_reply msg_id mt fc)) ++ [NL]).
Proof.
  intros Hid. apply ascii_text_app; [|repeat constructor; unfold NL; lia].
  cbn [dumps make_reply].
  constructor; [lia|]. apply ascii_text_app; [|repeat constructor; lia].
  repeat match goal with
         | |- ascii_text (?a ++ ?b) => apply (@ascii_text_app a b)
         | |- ascii_text (encode_string _) => apply encode_string_ascii
         | |- ascii_text (dumps _ _) => exact Hid
         | |- ascii_text (U _) => solve [repeat constructor]
         end.
Qed.

End ReplyAscii.

Section Chunking.

Ltac chunk_run k :=
  exists k; eexists; split; [lia|]; split; [reflexivity|];
  cbn; try intros o Ho; tauto.

(** The retry loop of one chunk, in every world: up to three writes
    that block, each followed by the 10 ms sleep, and then the write
    that returns, unless the three attempts are used up; or a write
    that fails, which ends the writer. *)
Lemma write_chunk_runs (chunk : str) (b : bytes) (w : world) :
  encode chunk = Some b ->
  (exists k w',
      k <= 3
      /\ write_chunk 3 chunk w
         = (blocked_writes b k ++ (if k <? 3 then [Write b WriteOk] else []),
            w', Some tt)
      /\ forall o, In o w' -> In o w)
  \/ (exists k w',
      k < 3
      /\ write_chunk 3 chunk w
         = (blocked_writes b k ++ [Write b WriteFailed], w', None)
      /\ In WriteFailed w).
Proof.
  intros Henc. cbn [write_chunk]. rewrite Henc.
  unfold bind, os_write, emit, ret, blocked_writes.
  destruct w as [|[| |] [|[| |] [|[| |] w]]]; cbn;
    first [ left; chunk_run 0 | left; chunk_run 1 | left; chunk_run 2
          | left; chunk_run 3
          | right; chunk_run 0 | right; chunk_run 1 | right; chunk_run 2 ].
Qed.

Lemma send_chunks_runs (resp_str : str) (idx : list nat) :
  ascii_text resp_str ->
  forall w,
  exists bl,
    Forall (fun k => k <= 3) bl
    /\ match result (send_chunks resp_str idx w) with
       | Some _ =>
           List.length bl = List.length idx
           /\ trace (send_chunks resp_str idx w)
              = flat_map chunk_events
                  (combine (map (fun i => slice resp_str i (i + chunk_size))
                              idx) bl)
       | None =>
           exists c k,
             nth_error (map (fun i => slice resp_str i (i + chunk_size)) idx)
               (List.length bl) = Some c
             /\ k < 3
             /\ In WriteFailed w
             /\ trace (send_chunks resp_str idx w)
                = flat_map chunk_events
                    (combine (map (fun i => slice resp_str i (i + chunk_size))
                                idx) bl)
                  ++ blocked_writes c k ++ [Write c WriteFailed]
       end.
Proof.
  intros Ha. induction idx as [|i idx IH]; intros w.
  - exists []. split; [constructor|]. cbn. auto.
  - cbn [send_chunks map]. rewrite bind_unfold.
    destruct (@write_chunk_runs (slice resp_str i (i + chunk_size))
                (slice resp_str i (i + chunk_size)) w
                (encode_ascii (ascii_text_slice i (i + chunk_size) Ha)))
      as [(k & w' & Hk & -> & Hw')|(k & w' & Hk & -> & Hf)].
    + rewrite bind_unfold. cbn [emit trace result fst snd].
      destruct (IH w') as (bl & Hbl & Hrun).
      exists (k :: bl). split; [constructor; assumption|].
      destruct (send_chunks resp_str idx w') as [[t2 w2] [[]|]];
        cbn [trace result fst snd] in *.
      * destruct Hrun as [Hlen Ht]. split; [cbn; congruence|].
        cbn [combine flat_map]. unfold chunk_events at 1, retried.
        cbn [fst snd]. rewrite Ht.
        repeat rewrite <- List.app_assoc. reflexivity.
      * destruct Hrun as (c & j & Hc & Hj & Hf & Ht).
        exists c, j. cbn [List.length nth_error].
        split; [exact Hc|]. split; [exact Hj|].
        split; [apply Hw'; exact Hf|].
        cbn [combine flat_map]. unfold chunk_events at 1, retried.
        cbn [fst snd]. rewrite Ht.
        repeat rewrite <- List.app_assoc. reflexivity.
    + exists []. split; [constructor|]. cbn [trace result fst snd].
      exists (slice resp_str i (i + chunk_size)), k.
      cbn [List.length nth_error combine flat_map app].
      repeat split; auto.
Qed.

Lemma send_runs (resp_str : str) :
  ascii_text resp_str ->
  forall w,
  exists bl,
    Forall (fun k => k <= 3) bl
    /\ match result (send resp_str w) with
       | Some _ =>
           List.length bl = List.length (chunks resp_str)
           /\ trace (send resp_str w)
              = flat_map chunk_events (combine (chunks resp_str) bl)
       | None =>
           exists c k,
             nth_error (chunks resp_str) (List.length bl) = Some c
             /\ k < 3
             /\ In WriteFailed w
             /\ trace (send resp_str w)
                = flat_map chunk_events (combine (chunks resp_str) bl)
                  ++ blocked_writes c k ++ [Write c WriteFailed]
       end.
Proof.
  intros Ha w.
  destruct (@send_chunks_runs resp_str
              (range (List.length resp_str) chunk_size) Ha w)
    as (bl & Hbl & Hrun).
  exists bl. split; [exact Hbl|]. unfold send, chunks.
  destruct (result (send_chunks resp_str
                      (range (List.length resp_str) chunk_size) w));
    [rewrite length_map|]; exact Hrun.
Qed.

Lemma write_chunk_ok (chunk : str) (b : bytes) (w : world) :
  encode chunk = Some b ->
  hd WriteOk w = WriteOk ->
  write_chunk 3 chunk w = ([Write b WriteOk], tl w, Some tt).
Proof.
  intros Henc Hhd. cbn [write_chunk]. rewrite Henc.
  unfold bind, os_write. rewrite Hhd. reflexivity.
Qed.

Lemma send_chunks_all_ok (resp_str : str) (idx : list nat) :
  ascii_text resp_str ->
  forall w,
    Forall (fun o => o = WriteOk) w ->
    trace (send_chunks resp_str idx w)
    = flat_map paced (map (fun i => slice resp_str i (i + chunk_size)) idx)
    /\ result (send_chunks resp_str idx w) = Some tt.
Proof.
  intros Ha. induction idx as [|i idx IH]; intros w Hw; [split; reflexivity|].
  assert (Hhd : hd WriteOk w = WriteOk)
    by (destruct Hw; [reflexivity | assumption]).
  assert (Htl : Forall (fun o => o = WriteOk) (tl w))
    by (destruct Hw; [constructor | assumption]).
  destruct (IH (tl w) Htl) as [Ht Hr].
  cbn [send_chunks map flat_map]. rewrite bind_unfold.
  rewrite (@write_chunk_ok _ _ w
             (encode_ascii (ascii_text_slice i (i + chunk_size) Ha)) Hhd).
  rewrite bind_unfold. cbn [emit trace result fst snd app].
  fold (trace (send_chunks resp_str idx (tl w))).
  fold (result (send_chunks resp_str idx (tl w))).
  rewrite Ht, Hr. split; reflexivity.
Qed.

Lemma os_writes_app (a b : list event) :
  os_writes (a ++ b) = os_writes a + os_writes b.
Proof. unfold os_writes. rewrite filter_app, length_app. reflexivity. Qed.

Lemma os_writes_retried (c : bytes) (k : nat) :
  k <= 3 -> 1 <= os_writes (retried c k) <= 3.
Proof.
  intros H. destruct k as [|[|[|[|k]]]]; [cbn; lia ..|lia].
Qed.

Lemma os_writes_chunks (cs : list bytes) (bl : list nat) :
  Forall (fun k => k <= 3) bl ->
  List.length bl = List.length cs ->
  List.length cs <= os_writes (flat_map chunk_events (combine cs bl))
  <= 3 * List.length cs.
Proof.
  intros Hbl. revert cs. induction Hbl as [|k bl Hk _ IH]; intros cs Hlen.
  - destruct cs; [cbn; lia | discriminate].
  - destruct cs as [|c cs]; [discriminate|].
    cbn [combine flat_map List.length]. rewrite os_writes_app.
    unfold chunk_events at 1 3. cbn [fst snd].
    pose proof (os_writes_retried c Hk).
    specialize (IH cs ltac:(cbn in Hlen; lia)). lia.
Qed.

(** C3, as amended: the record of a reply, cut in chunks of 32.  It is
    its own UTF-8 encoding (the text is ASCII), so its byte length is
    its length, and the chunks are [ceil(L/32)] consecutive pieces of
    it.  When no write blocks or fails, the writer issues one write per
    chunk, each followed by the 20 ms pause.  In every world, the
    writer takes the chunks in order; for each it issues up to three
    writes that block, each followed by a 10 ms sleep, then the write
    that returns unless the three attempts are used up, then the 20 ms
    pause ([retried]); a write that fails otherwise ends it there.  So
    when it returns it has issued at least [ceil(L/32)] writes and at
    most three times as many, and it does return when no write fails.
    Whatever the writes meet, only chunks are written, none longer
    than 32 bytes. *)
Theorem paced_writer_chunks fr msg_id mt fc :
  ascii_text (dumps fr msg_id) ->
  let resp_str := dumps fr (PDict (make_reply msg_id mt fc)) ++ [NL] in
  encode resp_str = Some resp_str
  /\ List.length (chunks resp_str)
     = ceil_div (List.length resp_str) chunk_size
  /\ concat (chunks resp_str) = resp_str
  /\ send resp_str [] = (flat_map paced (chunks resp_str), [], Some tt)
  /\ (forall w,
      Forall (fun o => o = WriteOk) w ->
      trace (send resp_str w) = flat_map paced (chunks resp_str)
      /\ result (send resp_str w) = Some tt)
  /\ (forall w,
      exists bl,
        Forall (fun k => k <= 3) bl
        /\ match result (send resp_str w) with
           | Some _ =>
               List.length bl = List.length (chunks resp_str)
               /\ trace (send resp_str w)
                  = flat_map chunk_events (combine (chunks resp_str) bl)
           | None =>
               exists c k,
                 nth_error (chunks resp_str) (List.length bl) = Some c
                 /\ k < 3
                 /\ In WriteFailed w
                 /\ trace (send resp_str w)
                    = flat_map chunk_events (combine (chunks resp_str) bl)
                      ++ blocked_writes c k ++ [Write c WriteFailed]
           end)
  /\ (forall w,
      result (send resp_str w) = Some tt ->
      List.length (chunks resp_str) <= os_writes (trace (send resp_str w))
      <= 3 * List.length (chunks resp_str))
  /\ (forall w, ~ In WriteFailed w -> result (send resp_str w) = Some tt)
  /\ forall w b o,
      In (Write b o) (trace (send resp_str w)) ->
      In b (chunks resp_str) /\ List.length b <= chunk_size.
Proof.
  intros Hid resp_str.
  assert (Ha : ascii_text resp_str) by now apply reply_record_ascii.
  split; [now apply encode_ascii|].
  split; [apply chunks_length|].
  split; [apply chunks_concat|].
  split; [now apply send_chunks_unblocked|].
  split; [intros w Hw; now apply send_chunks_all_ok|].
  split; [intros w; exact (@send_runs resp_str Ha w)|].
  split.
  { intros w Hr.
    destruct (@send_runs resp_str Ha w) as (bl & Hbl & Hrun).
    rewrite Hr in Hrun.
    destruct Hrun as [Hlen ->]. apply os_writes_chunks; assumption. }
  split.
  { intros w Hw.
    destruct (@send_runs resp_str Ha w) as (bl & Hbl & Hrun).
    destruct (result (send resp_str w)) as [[]|]; [reflexivity|].
    destruct Hrun as (c & k & _ & _ & Hf & _). contradiction. }
  intros w b o Hin.
  assert (Hall : emits_only
                  (fun e => match e with
                            | Write b _ =>
                                In b (chunks resp_str)
                                /\ List.length b <= chunk_size
                            | _ => True
                            end) (send resp_str)).
  { apply emits_only_send_chunks; try exact I.
    intros i b' _ Hi Henc.
    rewrite (encode_ascii (ascii_text_slice i (i + chunk_size) Ha)) in Henc.
    inversion Henc; subst b'.
    assert (Hc : In (slice resp_str i (i + chunk_size)) (chunks resp_str))
      by (unfold chunks; apply in_map_iff; exists i; auto).
    split; [exact Hc | eapply chunk_bound; exact Hc]. }
  specialize (Hall w). rewrite Forall_forall in Hall.
  apply (Hall _ Hin).
Qed.

End Chunking.

Lemma paced_writer_chunks_witness :
  ascii_text (dumps (fun lx => lx) (PInt 42))
  /\ List.length (chunks (dumps (fun lx => lx)
                            (PDict (make_reply (PInt 42) (U "response") (U "ok")))
                          ++ [NL])) = 3.
Proof.
  split.
  - repeat constructor.
  - exact (proj1 (proj2 (@paced_writer_chunks (fun lx => lx) (PInt 42)
                           (U "response") (U "ok")
                           ltac:(repeat constructor)))).
Defined.

(** C3 as stated fails when a write blocks: the chunk is written again,
  so the reply to task 42, a record of 71 bytes and three chunks, takes
  four writes when its first write blocks. *)
Lemma blocked_write_is_written_again :
  os_writes
    (trace (send (dumps (fun lx => lx)
                    (PDict (make_reply (PInt 42) (U "response") (U "ok")))
                  ++ [NL]) [WriteBlocked]))
  <> ceil_div
       (List.length
          (dumps (fun lx => lx)
             (PDict (make_reply (PInt 42) (U "response") (U "ok")))
           ++ [NL])) chunk_size.
Proof. vm_compute. discriminate. Qed.

(** The same run, event by event: the first chunk is written twice. *)
Example blocked_write_run :
  let resp_str :=
    J "{'id': 42, 'target': 'shell', 'msg_type': 'response', 'content': 'ok'}"
    ++ [NL] in
  dumps (fun lx => lx) (PDict (make_reply (PInt 42) (U "response") (U "ok")))
  ++ [NL] = resp_str
  /\ List.length resp_str = 71
  /\ send resp_str [WriteBlocked]
     = ([Write (slice resp_str 0 32) WriteBlocked; Sleep 10;
         Write (slice resp_str 0 32) WriteOk; Sleep 20;
         Write (slice resp_str 32 64) WriteOk; Sleep 20;
         Write (slice resp_str 64 96) WriteOk; Sleep 20],
        [], Some tt).
Proof. vm_compute. auto. Qed.

(** ** Classification by tag *)

Section Classification.

Lemma startswith_app (p s : str) : startswith p (p ++ s) = true.
Proof.
  induction p as [|c p IH]; [reflexivity|].
  cbn. now rewrite N.eqb_refl.
Qed.

Lemma startswith_app_l (p q s : str) :
  startswith (p ++ q) s = true -> startswith p s = true.
Proof.
  revert s. induction p as [|c p IH]; intros s H; [reflexivity|].
  destruct s as [|y s]; cbn in *; [discriminate|].
  apply andb_true_iff in H. destruct H as [-> H]. cbn. eauto.
Qed.

Lemma startswith_contains (p s : str) :
  startswith p s = true -> contains p s = true.
Proof. intros H. destruct s; cbn [contains]; rewrite H; reflexivity. Qed.

Lemma contains_cons (p : str) (c : N) (s : str) :
  contains p s = true -> contains p (c :: s) = true.
Proof. intros H. cbn [contains]. rewrite H. apply orb_true_r. Qed.

Lemma match_tag_here_startswith (tag s g : str) :
  match_tag_here tag s = Some g -> startswith tag s = true.
Proof.
  unfold match_tag_here.
  destruct (startswith (tag ++ [LBRACE]) s) eqn:E; [|discriminate].
  intros _. eapply startswith_app_l. exact E.
Qed.

(** A match of the pattern of a tag needs the tag in the text. *)
Lemma re_search_tag_contains (tag s g : str) :
  re_search_tag tag s = Some g -> contains tag s = true.
Proof.
  induction s as [|c s IH]; cbn [re_search_tag].
  - destruct (match_tag_here tag []) eqn:E; [|discriminate].
    intros _. apply startswith_contains.
    eapply match_tag_here_startswith; exact E.
  - destruct (match_tag_here tag (c :: s)) eqn:E.
    + intros _. apply startswith_contains.
      eapply match_tag_here_startswith; exact E.
    + intros H. apply contains_cons. auto.
Qed.

Lemma untagged_no_match (r tag mt : str) :
  untagged r -> In (tag, mt) tags -> re_search_tag tag r = None.
Proof.
  intros Hu Hin. destruct (re_search_tag tag r) eqn:E; [|reflexivity].
  apply re_search_tag_contains in E. rewrite (Hu tag mt Hin) in E.
  discriminate.
Qed.

Lemma untagged_no_prefix (r tag mt : str) :
  untagged r -> In (tag, mt) tags -> startswith tag r = false.
Proof.
  intros Hu Hin. destruct (startswith tag r) eqn:E; [|reflexivity].
  apply startswith_contains in E. rewrite (Hu tag mt Hin) in E.
  discriminate.
Qed.

Lemma classify_untagged (r : str) :
  untagged r -> classify r = (U "response", r).
Proof.
  intros Hu. unfold classify.
  rewrite (untagged_no_match (tag := GUI_PIPELINE_DIAGRAM) Hu)
    by (cbn; tauto).
  rewrite (untagged_no_match (tag := GUI_ML_DASHBOARD) Hu) by (cbn; tauto).
  rewrite (untagged_no_match (tag := GUI_PLOT) Hu) by (cbn; tauto).
  rewrite (untagged_no_match (tag := GUI_CHESS) Hu) by (cbn; tauto).
  rewrite (untagged_no_prefix (tag := GUI_PLOT) Hu) by (cbn; tauto).
  rewrite (untagged_no_prefix (tag := GUI_PIPELINE_DIAGRAM) Hu)
    by (cbn; tauto).
  rewrite (untagged_no_prefix (tag := GUI_ML_DASHBOARD) Hu) by (cbn; tauto).
  reflexivity.
Qed.

Lemma upto_last_brace_closed (body : str) :
  upto_last_brace (body ++ [RBRACE]) = Some (body ++ [RBRACE]).
Proof.
  induction body as [|c body IH]; [reflexivity|].
  cbn [app upto_last_brace]. now rewrite IH.
Qed.

Lemma skipn_app_exact {A} (a b : list A) :
  skipn (List.length a) (a ++ b) = b.
Proof. induction a; cbn; auto. Qed.

(** The pattern of a tag matches a text that is the tag and a payload in
    braces, and group 1 is the payload. *)
Lemma re_search_tag_exact (tag body : str) :
  re_search_tag tag (tag ++ LBRACE :: body ++ [RBRACE])
  = Some (LBRACE :: body ++ [RBRACE]).
Proof.
  assert (H : match_tag_here tag (tag ++ LBRACE :: body ++ [RBRACE])
              = Some (LBRACE :: body ++ [RBRACE])).
  { unfold match_tag_here.
    replace (tag ++ LBRACE :: body ++ [RBRACE])
      with ((tag ++ [LBRACE]) ++ body ++ [RBRACE])
      by (rewrite <- List.app_assoc; reflexivity).
    rewrite startswith_app.
    replace (List.length tag + 1) with (List.length (tag ++ [LBRACE]))
      by (rewrite length_app; reflexivity).
    rewrite skipn_app_exact, upto_last_brace_closed. reflexivity. }
  destruct (tag ++ LBRACE :: body ++ [RBRACE]) eqn:E;
    cbn [re_search_tag]; rewrite H; reflexivity.
Qed.

Lemma upto_last_brace_absent (s : str) :
  ~ In RBRACE s -> upto_last_brace s = None.
Proof.
  induction s as [|c s IH]; intros H; [reflexivity|].
  cbn [upto_last_brace]. rewrite IH by (intros Hin; apply H; now right).
  destruct (N.eqb_spec c RBRACE) as [->|Hne]; [|reflexivity].
  exfalso. apply H. now left.
Qed.

Lemma upto_last_brace_after (body rest : str) :
  ~ In RBRACE rest ->
  upto_last_brace (body ++ RBRACE :: rest) = Some (body ++ [RBRACE]).
Proof.
  intros H. induction body as [|c body IH].
  - cbn [app upto_last_brace]. rewrite (@upto_last_brace_absent rest H).
    reflexivity.
  - cbn [app upto_last_brace]. now rewrite IH.
Qed.

(** The pattern of a tag matches a text that begins with the tag and an
    opening brace and holds a closing brace: group 1 runs from the one
    to the last of the others. *)
Lemma re_search_tag_payload (tag body rest : str) :
  ~ In RBRACE rest ->
  re_search_tag tag (tag ++ LBRACE :: body ++ RBRACE :: rest)
  = Some (LBRACE :: body ++ [RBRACE]).
Proof.
  intros Hr.
  assert (H : match_tag_here tag (tag ++ LBRACE :: body ++ RBRACE :: rest)
              = Some (LBRACE :: body ++ [RBRACE])).
  { unfold match_tag_here.
    replace (tag ++ LBRACE :: body ++ RBRACE :: rest)
      with ((tag ++ [LBRACE]) ++ body ++ RBRACE :: rest)
      by (rewrite <- List.app_assoc; reflexivity).
    rewrite startswith_app.
    replace (List.length tag + 1) with (List.length (tag ++ [LBRACE]))
      by (rewrite length_app; reflexivity).
    rewrite skipn_app_exact, (@upto_last_brace_after body rest Hr).
    reflexivity. }
  destruct (tag ++ LBRACE :: body ++ RBRACE :: rest) eqn:E;
    cbn [re_search_tag]; rewrite H; reflexivity.
Qed.

(** C6, as amended, for a result that begins with a known tag.  When
    the tag is followed by an opening brace and a closing brace comes
    later, and no tag of higher priority (pipeline diagram, ML
    dashboard, plot, chess, in this order) is followed by a payload in
    braces, the result gets the [msg_type] of its tag and its content
    is the result without the tag, up to its last closing brace: the
    whole payload when it ends there ([rest] empty).  When no tag at
    all is followed by a payload in braces, a result that begins with
    one of the first three tags gets the [msg_type] of its tag and its
    content is the result with the tag stripped and nothing else
    altered. *)
Theorem tagged_payload_classified n tag mt :
  nth_error tags n = Some (tag, mt) ->
  (forall body rest,
      ~ In RBRACE rest ->
      (forall k tag' mt',
          k < n -> nth_error tags k = Some (tag', mt') ->
          re_search_tag tag' (tag ++ LBRACE :: body ++ RBRACE :: rest)
          = None) ->
      classify (tag ++ LBRACE :: body ++ RBRACE :: rest)
      = (mt, LBRACE :: body ++ [RBRACE]))
  /\ (forall payload,
      n < 3 ->
      (forall tag' mt',
          In (tag', mt') tags -> re_search_tag tag' (tag ++ payload) = None) ->
      classify (tag ++ payload) = (mt, payload)).
Proof.
  intros Hn. split.
  - intros body rest Hr Hhigher. unfold classify.
    destruct n as [|[|[|[|n]]]]; unfold tags in Hn; cbn [nth_error] in Hn;
      try (destruct n; discriminate);
      inversion Hn; subst; clear Hn.
    + rewrite (@re_search_tag_payload _ body rest Hr). reflexivity.
    + rewrite (Hhigher 0 _ _ ltac:(lia) eq_refl).
      rewrite (@re_search_tag_payload _ body rest Hr). reflexivity.
    + rewrite (Hhigher 0 _ _ ltac:(lia) eq_refl).
      rewrite (Hhigher 1 _ _ ltac:(lia) eq_refl).
      rewrite (@re_search_tag_payload _ body rest Hr). reflexivity.
    + rewrite (Hhigher 0 _ _ ltac:(lia) eq_refl).
      rewrite (Hhigher 1 _ _ ltac:(lia) eq_refl).
      rewrite (Hhigher 2 _ _ ltac:(lia) eq_refl).
      rewrite (@re_search_tag_payload _ body rest Hr). reflexivity.
  - intros payload Hlt Hnone. unfold classify.
    rewrite (Hnone GUI_PIPELINE_DIAGRAM (U "gui_pipeline_diagram"))
      by (cbn; tauto).
    rewrite (Hnone GUI_ML_DASHBOARD (U "gui_ml_dashboard")) by (cbn; tauto).
    rewrite (Hnone GUI_PLOT (U "gui_plot")) by (cbn; tauto).
    rewrite (Hnone GUI_CHESS (U "gui_chess")) by (cbn; tauto).
    destruct n as [|[|[|n]]]; [| | |lia];
      unfold tags in Hn; cbn [nth_error] in Hn;
      inversion Hn; subst; clear Hn.
    + reflexivity.
    + reflexivity.
    + reflexivity.
Qed.

End Classification.

Lemma tagged_payload_classified_witness :
  nth_error tags 2 = Some (GUI_PLOT, U "gui_plot")
  /\ classify (GUI_PLOT ++ J "{'a':1}") = (U "gui_plot", J "{'a':1}")
  /\ classify (GUI_PLOT ++ U "abc{1}") = (U "gui_plot", U "abc{1}").
Proof.
  pose proof (@tagged_payload_classified 2 GUI_PLOT (U "gui_plot") eq_refl)
    as [Hbraces Hplain].
  split; [reflexivity|]. split.
  - apply (Hbraces (J "'a':1") []); [intros []|].
    intros [|[|k]] tag' mt' Hk Hnth;
      [inversion Hnth; reflexivity | inversion Hnth; reflexivity | lia].
  - apply (Hplain (U "abc{1}")); [lia|].
    intros tag' mt' Hin. cbn in Hin.
    repeat (destruct Hin as [Hin|Hin];
            [inversion Hin; subst; reflexivity|]).
    destruct Hin.
Defined.

(** C6 as stated fails: the content is the text in braces, not the result
  without its prefix; what follows the last brace is dropped. *)
Lemma text_after_payload_is_dropped :
  classify (GUI_PLOT ++ J "{'a':1} done")
  <> (U "gui_plot", J "{'a':1} done").
Proof. vm_compute. discriminate. Qed.

(** The result of the chess battle, a summary followed by the tagged
    payload: the tag is found inside the text and the summary is left
    out of the content. *)
Example chess_summary_is_left_out :
  classify (U "GAME COMPLETE!" ++ [NL; NL] ++ GUI_CHESS ++ J "{'fen': 1}")
  = (U "gui_chess", J "{'fen': 1}").
Proof. vm_compute. reflexivity. Qed.

(** A plot payload without braces falls to the prefix test. *)
Example plot_prefix_without_braces :
  classify (GUI_PLOT ++ U "abc") = (U "gui_plot", U "abc").
Proof. vm_compute. reflexivity. Qed.

(** ** Records and replies *)

Section Records.

Variable X : Externals.

(** C5: a task whose handler returns plain text, text in which no GUI
    tag occurs.  The loop ends before the handler is called when the
    message or the task cannot be printed (lines 109 and 115);
    otherwise the reply is built, with the [id] of the request,
    [msg_type] ["response"] and the text as it is, and it is handed to
    the paced writer unless its encoding raises.  Whichever happens,
    a reply emitted for the task is this reply. *)
Theorem plain_result_reply line d p msg_id r w t w1 :
  json_loads X line = Value (PDict d) ->
  is_task d = true ->
  dict_get d (U "id") = Some msg_id ->
  dict_get d (U "content") = Some (PStr p) ->
  handle X p w = (t, w1, Some r) ->
  untagged r ->
  let reply := make_reply msg_id (U "response") r in
  let resp_str := dumps (float_repr X) (PDict reply) ++ [NL] in
  process_line X line w
  = (if dumps_indent_raises X (PDict d)
        || negb (stdout_encodes X (task_banner X msg_id (PStr p)))
     then ([], w, None)
     else if dumps_raises X (PDict reply)
     then (t ++ [Reply reply], w1, None)
     else (t ++ Reply reply :: trace (send resp_str w1),
           snd (fst (send resp_str w1)), result (send resp_str w1)))
  /\ (forall reply',
      In (Reply reply') (trace (process_line X line w)) -> reply' = reply)
  /\ dict_get reply (U "id") = Some msg_id
  /\ dict_get reply (U "msg_type") = Some (PStr (U "response"))
  /\ dict_get reply (U "content") = Some (PStr r).
Proof.
  intros Hl Ht Hid Hc Hh Hu reply resp_str.
  assert (Hrun :
            process_line X line w
            = (if dumps_indent_raises X (PDict d)
                  || negb (stdout_encodes X (task_banner X msg_id (PStr p)))
               then ([], w, None)
               else if dumps_raises X (PDict reply)
               then (t ++ [Reply reply], w1, None)
               else (t ++ Reply reply :: trace (send resp_str w1),
                     snd (fst (send resp_str w1)),
                     result (send resp_str w1)))).
  { unfold process_line. rewrite Hl.
    destruct (dumps_indent_raises X (PDict d)); [reflexivity|].
    rewrite Ht. unfold process_task. rewrite Hc, Hid. cbv zeta.
    cbn [orb].
    destruct (stdout_encodes X (task_banner X msg_id (PStr p)));
      [|reflexivity].
    cbn [negb]. rewrite bind_unfold, Hh.
    cbn [trace result fst snd]. rewrite (classify_untagged Hu).
    rewrite bind_unfold. cbn [emit trace result fst snd].
    fold reply. destruct (dumps_raises X (PDict reply)); reflexivity. }
  split; [exact Hrun|]. split; [|repeat split].
  intros reply' Hin. rewrite Hrun in Hin.
  set (P := fun e => match e with Reply _ => False | _ => True end).
  assert (Hhandle : Forall P t).
  { pose proof (@emits_only_handle P X p (fun _ _ => I) w) as H.
    rewrite Hh in H. exact H. }
  assert (Hsend : Forall P (trace (send resp_str w1)))
    by (apply emits_only_send; intros; exact I).
  rewrite Forall_forall in Hhandle, Hsend.
  destruct (dumps_indent_raises X (PDict d)
            || negb (stdout_encodes X (task_banner X msg_id (PStr p))));
    [destruct Hin|].
  destruct (dumps_raises X (PDict reply)); cbn [trace fst] in Hin;
    apply in_app_or in Hin; destruct Hin as [Hin|[Hin|Hin]].
  - destruct (Hhandle _ Hin).
  - inversion Hin. reflexivity.
  - destruct Hin.
  - destruct (Hhandle _ Hin).
  - inversion Hin. reflexivity.
  - destruct (Hsend _ Hin).
Qed.

Lemma split_lines_line (l rest : str) :
  ~ In NL l ->
  split_lines (l ++ NL :: rest)
  = (l :: fst (split_lines rest), snd (split_lines rest)).
Proof.
  induction l as [|c l IH]; intros Hnl.
  - cbn. destruct (split_lines rest); reflexivity.
  - cbn [app split_lines]. rewrite IH by (intros H; apply Hnl; now right).
    destruct (N.eqb_spec c NL) as [->|Hne]; [|reflexivity].
    exfalso. apply Hnl. now left.
Qed.

Lemma process_line_dropped (line : str) (w : world) :
  dropped X line -> process_line X line w = ([], w, Some tt).
Proof.
  unfold process_line. intros [H|(d & H & Hp & Hd)]; rewrite H;
    [reflexivity|].
  rewrite Hp, Hd. reflexivity.
Qed.

Lemma drain_lines_dropped l ls w :
  dropped X (strip l) -> drain_lines X (l :: ls) w = drain_lines X ls w.
Proof.
  intros Hd. cbn [drain_lines].
  destruct (is_empty (strip l)); [reflexivity|].
  rewrite bind_unfold, process_line_dropped by exact Hd.
  cbn [trace result fst snd app].
  destruct (drain_lines X ls w) as [[t w'] r]; reflexivity.
Qed.

(** C2, as amended: a record whose decoding ends in [JSONDecodeError],
    or that is a JSON object, one that line 109 can print, whose
    [msg_type] is absent or is not ["task"], is dropped: the iteration
    goes on exactly as if the record had not been in the buffer, so no
    handler runs for it, nothing is written for it, the loop does not
    end because of it, and the records after it are processed as they
    would have been. *)
Theorem dropped_record_is_skipped l rest hc w :
  ~ In NL l ->
  dropped X (strip l) ->
  after_read X (l ++ NL :: rest) hc w = after_read X rest hc w.
Proof.
  intros Hnl Hd. unfold after_read.
  rewrite !(bind_unfold (heartbeat hc)), !heartbeat_run.
  cbn [trace result fst snd].
  rewrite split_lines_line by exact Hnl.
  destruct (split_lines rest) as [ls r]. cbn [fst snd].
  rewrite !(bind_unfold (drain_lines X _)).
  rewrite drain_lines_dropped by exact Hd. reflexivity.
Qed.

(** A text on which [json.loads] raises an exception that is no
    [JSONDecodeError] ends the loop. *)
Lemma other_decoding_error_ends_loop (line : str) (w : world) :
  loads_raises X line = true -> process_line X line w = ([], w, None).
Proof.
  intros H. unfold process_line, json_loads. rewrite H. reflexivity.
Qed.

(** A task that the console cannot print ends the loop before any
    handler is called. *)
Lemma unprintable_task_ends_loop (d : dict) (w : world) :
  stdout_encodes X
    (task_banner X
       match dict_get d (U "id") with Some v => v | None => PNone end
       match dict_get d (U "content") with Some v => v | None => PStr [] end)
  = false ->
  process_task X d w = ([], w, None).
Proof. intros H. unfold process_task. rewrite H. reflexivity. Qed.

(** The sibling path of the direct tool calls: in the agent branch an
    exception of [graph.invoke] becomes the text of the response. *)
Lemma agent_error_becomes_response invoke p e w :
  invoke p = Raised e ->
  call_agent X invoke p w
  = ([Invoke Agent (Some p)], w, Some (U "Agent Error: " ++ e)).
Proof. intros H. unfold call_agent. rewrite H. reflexivity. Qed.

End Records.

Lemma plain_result_reply_witness :
  untagged (U "ok")
  /\ process_line example_externals
       (J "{'id': 42, 'target': 'kernel', 'msg_type': 'task', 'content': 'hello'}")
       []
     = (Invoke Agent (Some (U "hello"))
        :: Reply (make_reply (PInt 42) (U "response") (U "ok"))
        :: trace (send (dumps (fun lx => lx)
                          (PDict (make_reply (PInt 42) (U "response")
                                    (U "ok"))) ++ [NL]) []),
        [], Some tt).
Proof.
  assert (Hu : untagged (U "ok")).
  { intros tag mt Hin. cbn in Hin.
    repeat (destruct Hin as [Hin|Hin];
            [inversion Hin; subst; reflexivity|]).
    destruct Hin. }
  split; [exact Hu|].
  exact (proj1 (@plain_result_reply example_externals
                  (J "{'id': 42, 'target': 'kernel', 'msg_type': 'task', 'content': 'hello'}")
                  _ (U "hello") (PInt 42) (U "ok") [] _ [] eq_refl eq_refl
                  eq_refl eq_refl eq_refl Hu)).
Defined.

Lemma dropped_record_is_skipped_witness :
  ~ In NL (J "{'id': 1, 'oops'")
  /\ dropped example_externals (strip (J "{'id': 1, 'oops'"))
  /\ after_read example_externals
       (J "{'id': 1, 'oops'" ++ NL
        :: J "{'id': 2, 'target': 'kernel', 'msg_type': 'task', 'content': 'hi'}"
        ++ [NL]) 0 []
     = after_read example_externals
         (J "{'id': 2, 'target': 'kernel', 'msg_type': 'task', 'content': 'hi'}"
          ++ [NL]) 0 [].
Proof.
  assert (Hnl : ~ In NL (J "{'id': 1, 'oops'")).
  { vm_compute. intros H.
    repeat (destruct H as [H|H]; [discriminate H|]). exact H. }
  assert (Hd : dropped example_externals (strip (J "{'id': 1, 'oops'"))).
  { left. reflexivity. }
  split; [exact Hnl|]. split; [exact Hd|].
  exact (@dropped_record_is_skipped example_externals _ _ 0 [] Hnl Hd).
Defined.

(** C2 as stated fails for a record without all the keys of an envelope:
  a task without [id], [target] and [content] is handed to the agent
  (its prompt the empty text) and answered, the reply carrying
  [null] as its [id]. *)
Lemma task_without_keys_is_answered :
  process_line example_externals (J "{'msg_type': 'task'}") []
  = (Invoke Agent (Some [])
     :: Reply (make_reply PNone (U "response") (U "ok"))
     :: flat_map paced
          (chunks (J "{'id': null, 'target': 'shell', 'msg_type': 'response', 'content': 'ok'}"
                   ++ [NL])),
     [], Some tt).
Proof. vm_compute. reflexivity. Qed.

(** C1 fails on the code: a task routed to a tool that is called outside
  any [try] is not answered when the tool raises; the exception leaves
  the loop, which ends. *)
Lemma raising_tool_ends_loop :
  iteration example_externals initial
    {| read := ReadData
                 (J "{'id': 7, 'target': 'kernel', 'msg_type': 'task', 'content': 'chess'}"
                  ++ [NL]);
       path_exists := true |} []
  = ([Invoke Chess None], [], Crashed).
Proof. vm_compute. reflexivity. Qed.

(** A task whose content is a lone surrogate: the UTF-8 console cannot
    print it, and the loop ends without a call and without a reply. *)
Example surrogate_task_ends_loop :
  iteration example_externals initial
    {| read := ReadData
                 (J "{'id': 1, 'msg_type': 'task', 'content': '\ud800'}"
                  ++ [NL]);
       path_exists := true |} []
  = ([], [], Crashed).
Proof. vm_compute. reflexivity. Qed.

(** Two thousand opening brackets: [json.loads] raises
    [RecursionError], which the [try] of line 104 does not catch. *)
Example deep_nesting_ends_loop :
  iteration example_externals initial
    {| read := ReadData (repeat 91%N 2000 ++ [NL]); path_exists := true |} []
  = ([], [], Crashed).
Proof. vm_compute. reflexivity. Qed.

(** ** Reads that complete no record *)

Section QuietReads.

Variable X : Externals.

Lemma drain_lines_no_records (ls : list str) (w : world) :
  records_of ls = [] -> drain_lines X ls w = ([], w, Some tt).
Proof.
  induction ls as [|l ls IH]; intros H; [reflexivity|].
  unfold records_of in H. cbn [map filter] in H. cbn [drain_lines].
  destruct (is_empty (strip l)); cbn [negb] in H; [|discriminate].
  apply IH. exact H.
Qed.

(** Whatever bytes a read brings, valid UTF-8 or not, if they complete no
    record the iteration is a quiet one: the loop goes on, and the buffer
    is the one the framer leaves. *)
Lemma read_without_record_keeps_running (st : State) (data : bytes)
      (p : bool) (w : world) :
  snd (feed (read_buffer st) data) = [] ->
  iteration X st {| read := ReadData data; path_exists := p |} w
  = (beat (heartbeat_counter st) ++ [Sleep 10], w,
     Running {| read_buffer := fst (feed (read_buffer st) data);
                heartbeat_counter := next_count (heartbeat_counter st) |}).
Proof.
  unfold iteration, feed. cbn [read].
  assert (E : match data with
              | [] => read_buffer st
              | _ :: _ => read_buffer st ++ decode_ignore data
              end = read_buffer st ++ decode_ignore data)
    by (destruct data; [cbn; now rewrite List.app_nil_r | reflexivity]).
  rewrite E. unfold after_read.
  destruct (split_lines (read_buffer st ++ decode_ignore data)) as [ls rest].
  cbn [fst snd]. intros Hr.
  rewrite bind_unfold, heartbeat_run. cbn [trace result fst snd].
  rewrite bind_unfold, drain_lines_no_records by exact Hr.
  reflexivity.
Qed.

(** In the agent branch the handler always comes back with a text. *)
Lemma call_agent_returns invoke (p : str) (w : world) :
  exists r, call_agent X invoke p w = ([Invoke Agent (Some p)], w, Some r).
Proof. unfold call_agent. eexists. reflexivity. Qed.

End QuietReads.

(** ** The codec *)

Section StringRoundTrip.

Local Ltac zify_div := Z.to_euclidean_division_equations.
Ltac Zify.zify_post_hook ::= zify_div.

Lemma hex_value_digit (d : N) :
  (d < 16)%N -> hex_value (hex_digit d) = Some d.
Proof.
  intros H. unfold hex_digit, hex_value.
  destruct (N.ltb_spec d 10).
  - replace ((48 <=? 48 + d) && (48 + d <=? 57))%N with true
      by (symmetry; apply andb_true_iff; split; apply N.leb_le; lia).
    f_equal. lia.
  - replace ((48 <=? 87 + d) && (87 + d <=? 57))%N with false
      by (symmetry; apply andb_false_iff; right; apply N.leb_gt; lia).
    replace ((97 <=? 87 + d) && (87 + d <=? 102))%N with true
      by (symmetry; apply andb_true_iff; split; apply N.leb_le; lia).
    f_equal. lia.
Qed.

Lemma decode_hex4 (n : N) :
  (n < 65536)%N ->
  decode_uXXXX (hex_digit (n / 4096)) (hex_digit ((n / 256) mod 16))
               (hex_digit ((n / 16) mod 16)) (hex_digit (n mod 16))
  = Some n.
Proof.
  intros H. unfold decode_uXXXX.
  rewrite !hex_value_digit by lia. f_equal. lia.
Qed.

Lemma scanstring_uXXXX (h1 h2 h3 h4 : N) (t2 : str) :
  scanstring (BSLASH :: 117%N :: h1 :: h2 :: h3 :: h4 :: t2) =
  match decode_uXXXX h1 h2 h3 h4 with
  | None => None
  | Some uni =>
      if is_high uni then
        match t2 with
        | b :: u :: t3 =>
            if ((b =? 92) && (u =? 117))%N then
              match t3 with
              | k1 :: k2 :: k3 :: k4 :: t4 =>
                  match decode_uXXXX k1 k2 k3 k4 with
                  | None => None
                  | Some uni2 =>
                      if is_low uni2 then
                        cons_char
                          (65536 + ((uni - 55296) * 1024
                                    + (uni2 - 56320)))%N
                          (scanstring t4)
                      else cons_char uni (scanstring t2)
                  end
              | _ => None
              end
            else cons_char uni (scanstring t2)
        | _ => cons_char uni (scanstring t2)
        end
      else cons_char uni (scanstring t2)
  end.
Proof. reflexivity. Qed.

Lemma scanstring_plain (c : N) (t : str) :
  (c =? 34)%N = false -> (c =? 92)%N = false -> (c <? 32)%N = false ->
  scanstring (c :: t) = cons_char c (scanstring t).
Proof. intros H1 H2 H3. cbn [scanstring]. now rewrite H1, H2, H3. Qed.

(** Reading back the escape of one character. *)
Lemma scanstring_escape_char (c : N) (t x r : str) :
  scalar c ->
  scanstring t = Some (x, r) ->
  scanstring (escape_char c ++ t) = Some (c :: x, r).
Proof.
  intros Hc Ht. unfold escape_char.
  destruct (N.eqb_spec c 34) as [->|N34]; [cbn; now rewrite Ht|].
  destruct (N.eqb_spec c 92) as [->|N92]; [cbn; now rewrite Ht|].
  destruct (N.eqb_spec c 10) as [->|N10]; [cbn; now rewrite Ht|].
  destruct (N.eqb_spec c 13) as [->|N13]; [cbn; now rewrite Ht|].
  destruct (N.eqb_spec c 9) as [->|N9]; [cbn; now rewrite Ht|].
  destruct (N.eqb_spec c 8) as [->|N8]; [cbn; now rewrite Ht|].
  destruct (N.eqb_spec c 12) as [->|N12]; [cbn; now rewrite Ht|].
  destruct ((32 <=? c) && (c <=? 126))%N eqn:Hp.
  - apply andb_true_iff in Hp. destruct Hp as [Hlo _].
    apply N.leb_le in Hlo. cbn [app].
    rewrite scanstring_plain, Ht; [reflexivity | | |].
    + apply N.eqb_neq; exact N34.
    + apply N.eqb_neq; exact N92.
    + apply N.ltb_ge; exact Hlo.
  - destruct (N.ltb_spec c 65536) as [Hlt|Hge].
    + unfold uXXXX, hex4. cbn [app].
      rewrite scanstring_uXXXX, decode_hex4 by exact Hlt.
      replace (is_high c) with false; [now rewrite Ht|].
      symmetry. unfold is_high. apply andb_false_iff.
      destruct Hc as [Hc|Hc]; [left; apply N.leb_gt | right; apply N.leb_gt];
        lia.
    + assert (Hc' : (c < 1114112)%N) by (destruct Hc; lia).
      set (n := (c - 65536)%N).
      assert (Hn : (n < 1048576)%N) by (unfold n; lia).
      assert (Hhi : ((n / 1024) mod 1024 = n / 1024)%N)
        by (apply N.mod_small; lia).
      rewrite Hhi. unfold uXXXX, hex4. cbn [app].
      rewrite scanstring_uXXXX, decode_hex4 by lia.
      replace (is_high (55296 + n / 1024)) with true
        by (symmetry; unfold is_high; apply andb_true_iff;
            split; apply N.leb_le; lia).
      rewrite N.eqb_refl. unfold BSLASH. rewrite N.eqb_refl.
      cbn [andb]. rewrite decode_hex4 by lia.
      replace (is_low (56320 + n mod 1024)) with true
        by (symmetry; unfold is_low; apply andb_true_iff;
            split; apply N.leb_le; lia).
      rewrite Ht. cbn [cons_char]. f_equal. f_equal. f_equal.
      unfold n. lia.
Qed.

(** [scanstring] reads back what [py_encode_basestring_ascii] wrote. *)
Lemma scanstring_escape (s r : str) :
  Forall scalar s ->
  scanstring (flat_map escape_char s ++ QUOTE :: r) = Some (s, r).
Proof.
  induction 1 as [|c s Hc _ IH]; [reflexivity|].
  cbn [flat_map]. rewrite <- List.app_assoc.
  now apply scanstring_escape_char.
Qed.

End StringRoundTrip.

Section NumberRoundTrip.

Lemma uint_of_chars_uint_chars (u : Decimal.uint) :
  uint_of_chars (uint_chars u) = u.
Proof.
  unfold uint_of_chars.
  induction u as [|u IH|u IH|u IH|u IH|u IH|u IH|u IH|u IH|u IH|u IH];
    cbn [uint_chars fold_right]; rewrite ?IH; reflexivity.
Qed.

Lemma take_digits_uint (u : Decimal.uint) (c : N) (r : str) :
  is_digit c = false ->
  take_digits (uint_chars u ++ c :: r) = (uint_chars u, c :: r).
Proof.
  intros Hc.
  induction u as [|u IH|u IH|u IH|u IH|u IH|u IH|u IH|u IH|u IH|u IH];
    cbn [uint_chars app take_digits];
    [now rewrite Hc | .. ];
    change (is_digit (digit_char _)) with true; cbv iota;
    rewrite IH; reflexivity.
Qed.

(** The decimal text of a positive number starts with a digit that is
    not 0. *)
Lemma to_uint_head (p : positive) :
  exists c t, uint_chars (Pos.to_uint p) = c :: t
              /\ (49 <= c <= 57)%N.
Proof.
  assert (Hn : Decimal.unorm (Pos.to_uint p) = Pos.to_uint p).
  { rewrite <- (DecimalPos.Unsigned.to_of (Pos.to_uint p)).
    now rewrite DecimalPos.Unsigned.of_to. }
  pose proof (DecimalPos.Unsigned.to_uint_nonzero p) as Hz.
  destruct (Pos.to_uint p) as [|u|u|u|u|u|u|u|u|u|u] eqn:E;
    try (eexists; eexists; split; [reflexivity | cbv; split; discriminate]).
  - exfalso. revert E. apply DecimalPos.Unsigned.to_uint_nonnil.
  - exfalso. rewrite DecimalFacts.unorm_D0 in Hn. unfold Decimal.unorm in Hn.
    destruct (Decimal.nzhead u) eqn:Hu;
      try (eapply DecimalFacts.nzhead_nonzero; rewrite Hu; exact Hn).
    apply Hz. congruence.
Qed.

Lemma int_value_pos (p : positive) :
  int_value false (uint_chars (Pos.to_uint p)) = Zpos p.
Proof.
  unfold int_value. rewrite uint_of_chars_uint_chars.
  unfold N.of_uint. now rewrite DecimalPos.Unsigned.of_to.
Qed.

Lemma int_value_neg (p : positive) :
  int_value true (uint_chars (Pos.to_uint p)) = Zneg p.
Proof.
  unfold int_value. rewrite uint_of_chars_uint_chars.
  unfold N.of_uint. now rewrite DecimalPos.Unsigned.of_to.
Qed.

Lemma is_digit_range (c : N) : (48 <= c <= 57)%N -> is_digit c = true.
Proof.
  intros H. unfold is_digit. apply andb_true_iff.
  split; apply N.leb_le; lia.
Qed.

Lemma eqb_false_of (c k : N) : c <> k -> (c =? k)%N = false.
Proof. apply N.eqb_neq. Qed.

(** The digits of a positive number, read as the integer part of a
    number that a comma ends. *)
Lemma match_number_digits (neg : bool) (p : positive) (r : str) :
  match_number ((if neg then [45%N] else [])
                ++ uint_chars (Pos.to_uint p) ++ 44%N :: r)
  = Some (PInt (int_value neg (uint_chars (Pos.to_uint p))), 44%N :: r).
Proof.
  destruct (to_uint_head p) as [c [t [Hu Hc]]].
  pose proof (take_digits_uint (Pos.to_uint p) 44 r eq_refl) as Htd.
  rewrite Hu in *. cbn [app] in Htd.
  assert (Hi : int_part (c :: t ++ 44%N :: r) = (c :: t, 44%N :: r)).
  { unfold int_part. rewrite (eqb_false_of (c := c) (k := 48)) by lia.
    exact Htd. }
  unfold match_number.
  destruct neg; cbn [app N.eqb Pos.eqb].
  - rewrite (is_digit_range (c := c)) by lia. rewrite Hi. reflexivity.
  - rewrite (eqb_false_of (c := c) (k := 45)) by lia.
    rewrite (is_digit_range (c := c)) by lia. rewrite Hi. reflexivity.
Qed.

Lemma match_number_int (z : Z) (r : str) :
  match_number (int_str z ++ 44%N :: r) = Some (PInt z, 44%N :: r).
Proof.
  destruct z as [|p|p]; [reflexivity | |].
  - pose proof (match_number_digits false p r) as H.
    rewrite int_value_pos in H. exact H.
  - pose proof (match_number_digits true p r) as H.
    rewrite int_value_neg in H. exact H.
Qed.

(** The first character of the text of an integer. *)
Lemma int_str_head (z : Z) :
  exists c t, int_str z = c :: t /\ (c = 45 \/ 48 <= c <= 57)%N.
Proof.
  destruct z as [|p|p].
  - exists 48%N, []. split; [reflexivity | right; lia].
  - destruct (to_uint_head p) as [c [t [Hu Hc]]].
    exists c, t. split; [exact Hu | right; lia].
  - exists 45%N, (uint_chars (Pos.to_uint p)).
    split; [reflexivity | left; reflexivity].
Qed.

Lemma scan_once_int (f : nat) (z : Z) (r : str) :
  scan_once (S f) (int_str z ++ 44%N :: r) = Some (PInt z, 44%N :: r).
Proof.
  pose proof (match_number_int z r) as Hm.
  destruct (int_str_head z) as [c [t [Hs Hc]]]. rewrite Hs in *.
  cbn [scan_once app startswith U map list_ascii_of_string] in *.
  rewrite Hm.
  rewrite (eqb_false_of (c := c) (k := 34)) by lia.
  rewrite (eqb_false_of (c := c) (k := 123)) by lia.
  rewrite (eqb_false_of (c := c) (k := 91)) by lia.
  replace (N_of_ascii "n" =? c)%N with false
    by (symmetry; apply N.eqb_neq; cbv; lia).
  replace (N_of_ascii "t" =? c)%N with false
    by (symmetry; apply N.eqb_neq; cbv; lia).
  replace (N_of_ascii "f" =? c)%N with false
    by (symmetry; apply N.eqb_neq; cbv; lia).
  reflexivity.
Qed.

Lemma skip_ws_int (z : Z) (r : str) :
  skip_ws (int_str z ++ r) = int_str z ++ r.
Proof.
  destruct (int_str_head z) as [c [t [Hs Hc]]]. rewrite Hs.
  cbn [app skip_ws]. unfold is_ws.
  rewrite (eqb_false_of (c := c) (k := 32)) by lia.
  rewrite (eqb_false_of (c := c) (k := 9)) by lia.
  rewrite (eqb_false_of (c := c) (k := 10)) by lia.
  rewrite (eqb_false_of (c := c) (k := 13)) by lia.
  reflexivity.
Qed.

Lemma scan_once_string (f : nat) (s r : str) :
  Forall scalar s ->
  scan_once (S f) (encode_string s ++ r) = Some (PStr s, r).
Proof.
  intros Hs. unfold encode_string.
  cbn [scan_once app N.eqb Pos.eqb QUOTE].
  rewrite <- List.app_assoc. cbn [app].
  change 34%N with QUOTE. rewrite scanstring_escape by exact Hs.
  reflexivity.
Qed.

End NumberRoundTrip.

Section EnvelopeRoundTrip.

Variable scan : str -> option (pyval * str).

(** One member of an object that another member follows. *)
Lemma object_pairs_member (n : nat) (k vtext rest : str) (v : pyval) :
  Forall scalar k ->
  skip_ws (vtext ++ 44%N :: 32%N :: QUOTE :: rest)
  = vtext ++ 44%N :: 32%N :: QUOTE :: rest ->
  scan (vtext ++ 44%N :: 32%N :: QUOTE :: rest)
  = Some (v, 44%N :: 32%N :: QUOTE :: rest) ->
  object_pairs scan (S n)
    (flat_map escape_char k ++ QUOTE :: 58%N :: 32%N
     :: vtext ++ 44%N :: 32%N :: QUOTE :: rest)
  = match object_pairs scan n rest with
    | Some (ps, r') => Some ((k, v) :: ps, r')
    | None => None
    end.
Proof.
  intros Hk Hws Hscan. cbn [object_pairs].
  rewrite scanstring_escape by exact Hk.
  cbn [skip_ws is_ws N.eqb Pos.eqb orb]. rewrite Hws, Hscan.
  cbn [skip_ws is_ws N.eqb Pos.eqb orb QUOTE]. reflexivity.
Qed.

(** The last member of an object. *)
Lemma object_pairs_last (n : nat) (k vtext r : str) (v : pyval) :
  Forall scalar k ->
  skip_ws (vtext ++ RBRACE :: r) = vtext ++ RBRACE :: r ->
  scan (vtext ++ RBRACE :: r) = Some (v, RBRACE :: r) ->
  object_pairs scan (S n)
    (flat_map escape_char k ++ QUOTE :: 58%N :: 32%N
     :: vtext ++ RBRACE :: r)
  = Some ([(k, v)], r).
Proof.
  intros Hk Hws Hscan. cbn [object_pairs].
  rewrite scanstring_escape by exact Hk.
  cbn [skip_ws is_ws N.eqb Pos.eqb orb]. rewrite Hws, Hscan.
  cbn [skip_ws is_ws N.eqb Pos.eqb orb RBRACE]. reflexivity.
Qed.

End EnvelopeRoundTrip.

Section Codec.

Variable fr : str -> str.

Ltac literal_scalar :=
  solve [repeat (constructor; [left; reflexivity|]); constructor].

(** The text of an envelope, character by character, and what follows
    it. *)
Lemma envelope_text (e : Envelope) (r : str) :
  dumps fr (PDict (envelope_dict e)) ++ r
  = LBRACE :: QUOTE
    :: flat_map escape_char (U "id") ++ QUOTE :: 58%N :: 32%N
    :: int_str (id e) ++ 44%N :: 32%N :: QUOTE
    :: flat_map escape_char (U "target") ++ QUOTE :: 58%N :: 32%N
    :: encode_string (target e) ++ 44%N :: 32%N :: QUOTE
    :: flat_map escape_char (U "msg_type") ++ QUOTE :: 58%N :: 32%N
    :: encode_string (msg_type e) ++ 44%N :: 32%N :: QUOTE
    :: flat_map escape_char (U "content") ++ QUOTE :: 58%N :: 32%N
    :: encode_string (content e) ++ RBRACE :: r.
Proof.
  unfold envelope_dict. cbn [dumps].
  change (U ": ") with [58%N; 32%N]. change (U ", ") with [44%N; 32%N].
  unfold encode_string.
  repeat (progress (repeat rewrite <- List.app_assoc; cbn [app])).
  reflexivity.
Qed.

Lemma envelope_pairs (e : Envelope) (f n : nat) (r : str) :
  valid_envelope e -> 4 <= n ->
  object_pairs (scan_once (S f)) n
    (flat_map escape_char (U "id") ++ QUOTE :: 58%N :: 32%N
     :: int_str (id e) ++ 44%N :: 32%N :: QUOTE
     :: flat_map escape_char (U "target") ++ QUOTE :: 58%N :: 32%N
     :: encode_string (target e) ++ 44%N :: 32%N :: QUOTE
     :: flat_map escape_char (U "msg_type") ++ QUOTE :: 58%N :: 32%N
     :: encode_string (msg_type e) ++ 44%N :: 32%N :: QUOTE
     :: flat_map escape_char (U "content") ++ QUOTE :: 58%N :: 32%N
     :: encode_string (content e) ++ RBRACE :: r)
  = Some (envelope_dict e, r).
Proof.
  intros [Ht [Hm Hc]] Hn.
  destruct n as [|[|[|[|n]]]]; try lia.
  set (r4 := flat_map escape_char (U "content") ++ QUOTE :: 58%N :: 32%N
             :: encode_string (content e) ++ RBRACE :: r).
  set (r3 := flat_map escape_char (U "msg_type") ++ QUOTE :: 58%N :: 32%N
             :: encode_string (msg_type e) ++ 44%N :: 32%N :: QUOTE :: r4).
  set (r2 := flat_map escape_char (U "target") ++ QUOTE :: 58%N :: 32%N
             :: encode_string (target e) ++ 44%N :: 32%N :: QUOTE :: r3).
  rewrite (@object_pairs_member (scan_once (S f)) (S (S (S n))) (U "id")
             (int_str (id e)) r2 (PInt (id e)));
    [ | literal_scalar | apply skip_ws_int | apply scan_once_int ].
  unfold r2.
  rewrite (@object_pairs_member (scan_once (S f)) (S (S n)) (U "target")
             (encode_string (target e)) r3 (PStr (target e)));
    [ | literal_scalar | reflexivity | apply scan_once_string; exact Ht ].
  unfold r3.
  rewrite (@object_pairs_member (scan_once (S f)) (S n) (U "msg_type")
             (encode_string (msg_type e)) r4 (PStr (msg_type e)));
    [ | literal_scalar | reflexivity | apply scan_once_string; exact Hm ].
  unfold r4.
  rewrite (@object_pairs_last (scan_once (S f)) n (U "content")
             (encode_string (content e)) r (PStr (content e)));
    [ | literal_scalar | reflexivity | apply scan_once_string; exact Hc ].
  reflexivity.
Qed.

Lemma scan_once_object (f : nat) (t : str) :
  scan_once (S f) (LBRACE :: t) = JSONObject (scan_once f) t.
Proof. reflexivity. Qed.

Lemma JSONObject_members (scan : str -> option (pyval * str)) (t : str) :
  JSONObject scan (QUOTE :: t) =
  match object_pairs scan (S (List.length t)) t with
  | Some (ps, r) => Some (PDict (dict_of_pairs ps), r)
  | None => None
  end.
Proof. reflexivity. Qed.

(** [json.loads] reads the text of an envelope back, whatever white
    space follows it. *)
Lemma loads_envelope (e : Envelope) (r : str) :
  valid_envelope e -> skip_ws r = [] ->
  loads (dumps fr (PDict (envelope_dict e)) ++ r)
  = Some (PDict (envelope_dict e)).
Proof.
  intros Hv Hr. unfold loads. rewrite envelope_text.
  change (skip_ws (LBRACE :: ?t)) with (LBRACE :: t).
  cbn [List.length].
  rewrite scan_once_object, JSONObject_members.
  rewrite envelope_pairs; [ | exact Hv |].
  - rewrite Hr. reflexivity.
  - rewrite length_app. cbn [List.length]. lia.
Qed.


(** The reply the bridge builds is the envelope with its four fields, so
    its record is the [encode_record] of that envelope. *)
Lemma reply_is_envelope (i : Z) (mt fc : str) :
  dumps fr (PDict (make_reply (PInt i) mt fc)) ++ [NL]
  = encode_record fr {| id := i; target := U "shell";
                        msg_type := mt; content := fc |}.
Proof. reflexivity. Qed.

(** The record of an envelope holds one line: read from the channel, it
    comes out of the framer as one record, the JSON text without the
    newline, and that record decodes to the envelope. *)
Lemma record_framed_and_decoded (e : Envelope) :
  valid_envelope e ->
  feed [] (encode_record fr e) = ([], [dumps fr (PDict (envelope_dict e))])
  /\ decode_record (dumps fr (PDict (envelope_dict e)))
     = Some (envelope_dict e).
Proof.
  intros Hv.
  assert (Hp : printable_text (dumps fr (PDict (envelope_dict e)))).
  { cbn [dumps envelope_dict].
    constructor; [lia|].
    repeat match goal with
           | |- Forall _ (_ ++ _) => apply Forall_app; split
           | |- Forall _ (encode_string _) => apply encode_string_printable
           | |- Forall _ (int_str _) => apply int_str_printable
           | |- Forall _ _ => solve [repeat constructor; cbv; discriminate]
           end. }
  split.
  - unfold feed, encode_record. cbn [app].
    rewrite decode_ignore_ascii.
    2:{ apply Forall_app. split; [|repeat constructor; unfold NL; lia].
        now apply printable_ascii. }
    rewrite split_lines_line.
    2:{ intros Hin. unfold printable_text in Hp.
        rewrite Forall_forall in Hp. apply Hp in Hin. unfold NL in Hin. lia. }
    cbn [split_lines fst snd]. f_equal. unfold records_of. cbn [map filter].
    assert (Hs : strip (dumps fr (PDict (envelope_dict e)))
                 = dumps fr (PDict (envelope_dict e))).
    { cbn [dumps envelope_dict]. unfold strip, rstrip.
      change (lstrip (123%N :: ?t)) with (123%N :: t).
      change (123%N :: ?t ++ [125%N]) with ((123%N :: t) ++ [125%N]).
      rewrite rev_app_distr.
      change (lstrip (rev [125%N] ++ ?t)) with (rev [125%N] ++ t).
      rewrite <- rev_app_distr. apply rev_involutive. }
    rewrite Hs. cbn [dumps envelope_dict is_empty negb]. reflexivity.
  - unfold decode_record. rewrite <- (List.app_nil_r (dumps _ _)).
    rewrite loads_envelope; [reflexivity | exact Hv | reflexivity].
Qed.

End Codec.


(** ** The fuel of the decoder is enough *)

Section Consumption.

Ltac break_match H :=
  repeat match type of H with
         | context [match ?d with _ => _ end] =>
             destruct d eqn:?; cbv beta iota in H; try discriminate H
         end.

Lemma skip_ws_le (s : str) : List.length (skip_ws s) <= List.length s.
Proof.
  induction s as [|c s IH]; [reflexivity|].
  cbn [skip_ws]. destruct (is_ws c); cbn [List.length]; lia.
Qed.

Lemma cons_char_some (c : N) (o : option (str * str)) (x r : str) :
  cons_char c o = Some (x, r) -> exists x', o = Some (x', r).
Proof.
  destruct o as [[x' r']|]; cbn; [|discriminate].
  intros H. inversion H. eauto.
Qed.

(** A string that [scanstring] reads takes at least its closing quote. *)
Lemma scanstring_shorter_bounded (n : nat) :
  forall s x r, List.length s <= n -> scanstring s = Some (x, r) ->
                List.length r < List.length s.
Proof.
  induction n as [|n IH]; intros s x r Hlen H.
  - destruct s; [discriminate | cbn in Hlen; lia].
  - destruct s as [|c t]; [discriminate|].
    cbn [scanstring] in H. break_match H.
    all: try match type of H with
             | Some _ = Some _ =>
                 inversion H; subst; cbn [List.length]; clear; lia
             end.
    all: apply cons_char_some in H; destruct H as [x' H]; apply IH in H.
    all: cbn [List.length] in H, Hlen |- *.
    all: first [clear - H Hlen; lia | clear - Hlen; lia].
Qed.

Lemma scanstring_shorter (s x r : str) :
  scanstring s = Some (x, r) -> List.length r < List.length s.
Proof. apply scanstring_shorter_bounded with (n := List.length s). lia. Qed.

Lemma take_digits_le (s : str) :
  List.length (snd (take_digits s)) <= List.length s.
Proof.
  induction s as [|c s IH]; [reflexivity|].
  cbn [take_digits]. destruct (is_digit c); [|reflexivity].
  destruct (take_digits s) as [ds r]. cbn [snd List.length] in *. lia.
Qed.

Lemma take_digits_rest (s ds r : str) :
  take_digits s = (ds, r) -> List.length r <= List.length s.
Proof. intros H. pose proof (take_digits_le s) as L. now rewrite H in L. Qed.

Lemma int_part_rest (c : N) (t : str) :
  is_digit c = true ->
  List.length (snd (int_part (c :: t))) <= List.length t.
Proof.
  intros Hc. unfold int_part. destruct (c =? 48)%N; [reflexivity|].
  cbn [take_digits]. rewrite Hc.
  pose proof (take_digits_le t) as L.
  destruct (take_digits t) as [ds r]. exact L.
Qed.

Lemma frac_part_rest (s : str) :
  List.length (snd (frac_part s)) <= List.length s.
Proof.
  unfold frac_part. destruct s as [|d t]; [reflexivity|].
  destruct (d =? 46)%N; [|reflexivity].
  pose proof (take_digits_le t) as L.
  destruct (take_digits t) as [[|f fd] r]; cbn [snd List.length] in *; lia.
Qed.

Lemma exp_part_rest (s : str) :
  List.length (snd (exp_part s)) <= List.length s.
Proof.
  unfold exp_part. destruct s as [|e t]; [reflexivity|].
  destruct ((e =? 101) || (e =? 69))%N; [|reflexivity].
  destruct t as [|g t'].
  - cbn. lia.
  - destruct ((g =? 43) || (g =? 45))%N.
    + pose proof (take_digits_le t') as L.
      destruct (take_digits t') as [[|f fd] r];
        cbn [snd List.length] in *; lia.
    + pose proof (take_digits_le (g :: t')) as L.
      destruct (take_digits (g :: t')) as [[|f fd] r];
        cbn [snd List.length] in *; lia.
Qed.

(** A number takes at least one digit. *)
Lemma match_number_shorter (s : str) (v : pyval) (r : str) :
  match_number s = Some (v, r) -> List.length r < List.length s.
Proof.
  unfold match_number.
  assert (core : forall neg c t,
             (if is_digit c then
                let '(ipart, s2) := int_part (c :: t) in
                let '(frac, s3) := frac_part s2 in
                let '(ex, s4) := exp_part s3 in
                match frac, ex with
                | [], [] => Some (PInt (int_value neg ipart), s4)
                | _, _ =>
                    Some (PFloat ((if neg then [45%N] else [])
                                  ++ ipart ++ frac ++ ex), s4)
                end
              else None) = Some (v, r) ->
             List.length r <= List.length t).
  { intros neg c t. destruct (is_digit c) eqn:Hc; [|discriminate].
    pose proof (@int_part_rest c t Hc) as L1.
    destruct (int_part (c :: t)) as [ipart s2].
    pose proof (frac_part_rest s2) as L2.
    destruct (frac_part s2) as [frac s3].
    pose proof (exp_part_rest s3) as L3.
    destruct (exp_part s3) as [ex s4]. cbn [snd] in *.
    destruct frac, ex; intros H; inversion H; subst; lia. }
  destruct s as [|c t]; [discriminate|].
  destruct (c =? 45)%N.
  - destruct t as [|c' t']; [discriminate|].
    intros H. apply core in H. cbn [List.length]. lia.
  - intros H. apply core in H. cbn [List.length]. lia.
Qed.

End Consumption.

Section Loops.

Variable scan : str -> option (pyval * str).
Hypothesis scan_shorter :
  forall s v r, scan s = Some (v, r) -> List.length r < List.length s.

Lemma scan_nil : scan [] = None.
Proof.
  destruct (scan []) as [[v r]|] eqn:E; [|reflexivity].
  apply scan_shorter in E. cbn in E. lia.
Qed.

Lemma array_items_shorter (n : nat) :
  forall s vs r, array_items scan n s = Some (vs, r) ->
                 List.length r < List.length s.
Proof.
  induction n as [|n IH]; intros s vs r H; [discriminate|].
  cbn [array_items] in H.
  destruct (scan s) as [[v r1]|] eqn:E; [|discriminate].
  apply scan_shorter in E. pose proof (skip_ws_le r1) as L.
  destruct (skip_ws r1) as [|c t]; [discriminate|]. cbn [List.length] in L.
  destruct (c =? 93)%N; [inversion H; subst; lia|].
  destruct (c =? 44)%N; [|discriminate].
  destruct (array_items scan n (skip_ws t)) as [[vs' r']|] eqn:E2;
    [|discriminate].
  inversion H; subst. apply IH in E2. pose proof (skip_ws_le t). lia.
Qed.

(** The bound on the number of items does not cut an array short: any
    bound that is at least the length of the text gives the same. *)
Lemma array_items_fuel (n : nat) :
  forall n' s, List.length s <= n -> List.length s <= n' ->
               array_items scan n s = array_items scan n' s.
Proof.
  induction n as [|n IH]; intros n' s Hn Hn'.
  - destruct s; [|cbn in Hn; lia].
    destruct n'; cbn [array_items]; [reflexivity | now rewrite scan_nil].
  - destruct n' as [|n'].
    + destruct s; [|cbn in Hn'; lia]. cbn [array_items]. now rewrite scan_nil.
    + cbn [array_items].
      destruct (scan s) as [[v r1]|] eqn:E; [|reflexivity].
      apply scan_shorter in E. pose proof (skip_ws_le r1) as L.
      destruct (skip_ws r1) as [|c t]; [reflexivity|].
      cbn [List.length] in L.
      destruct (c =? 93)%N; [reflexivity|].
      destruct (c =? 44)%N; [|reflexivity].
      pose proof (skip_ws_le t).
      rewrite (IH n' (skip_ws t)) by lia. reflexivity.
Qed.

Lemma object_pairs_shorter (n : nat) :
  forall s ps r, object_pairs scan n s = Some (ps, r) ->
                 List.length r < List.length s.
Proof.
  induction n as [|n IH]; intros s ps r H; [discriminate|].
  cbn [object_pairs] in H.
  destruct (scanstring s) as [[key r0]|] eqn:E0; [|discriminate].
  apply scanstring_shorter in E0. pose proof (skip_ws_le r0) as L0.
  destruct (skip_ws r0) as [|c t]; [discriminate|]. cbn [List.length] in L0.
  destruct (c =? 58)%N; [|discriminate].
  pose proof (skip_ws_le t) as Lt.
  destruct (scan (skip_ws t)) as [[v r1]|] eqn:E; [|discriminate].
  apply scan_shorter in E. pose proof (skip_ws_le r1) as L1.
  destruct (skip_ws r1) as [|c1 t1]; [discriminate|].
  cbn [List.length] in L1.
  destruct (c1 =? 125)%N; [inversion H; subst; lia|].
  destruct (c1 =? 44)%N; [|discriminate].
  pose proof (skip_ws_le t1) as L2.
  destruct (skip_ws t1) as [|q t2]; [discriminate|].
  cbn [List.length] in L2.
  destruct (q =? 34)%N; [|discriminate].
  destruct (object_pairs scan n t2) as [[ps' r']|] eqn:E2; [|discriminate].
  inversion H; subst. apply IH in E2. lia.
Qed.

Lemma object_pairs_fuel (n : nat) :
  forall n' s, List.length s <= n -> List.length s <= n' ->
               object_pairs scan n s = object_pairs scan n' s.
Proof.
  induction n as [|n IH]; intros n' s Hn Hn'.
  - destruct s; [|cbn in Hn; lia]. destruct n'; reflexivity.
  - destruct n' as [|n'].
    + destruct s; [|cbn in Hn'; lia]. reflexivity.
    + cbn [object_pairs].
      destruct (scanstring s) as [[key r0]|] eqn:E0; [|reflexivity].
      apply scanstring_shorter in E0. pose proof (skip_ws_le r0) as L0.
      destruct (skip_ws r0) as [|c t]; [reflexivity|].
      cbn [List.length] in L0.
      destruct (c =? 58)%N; [|reflexivity].
      pose proof (skip_ws_le t) as Lt.
      destruct (scan (skip_ws t)) as [[v r1]|] eqn:E; [|reflexivity].
      apply scan_shorter in E. pose proof (skip_ws_le r1) as L1.
      destruct (skip_ws r1) as [|c1 t1]; [reflexivity|].
      cbn [List.length] in L1.
      destruct (c1 =? 125)%N; [reflexivity|].
      destruct (c1 =? 44)%N; [|reflexivity].
      pose proof (skip_ws_le t1) as L2.
      destruct (skip_ws t1) as [|q t2]; [reflexivity|].
      cbn [List.length] in L2.
      destruct (q =? 34)%N; [|reflexivity].
      rewrite (IH n' t2) by lia. reflexivity.
Qed.

Lemma JSONArray_shorter (s : str) (v : pyval) (r : str) :
  JSONArray scan s = Some (v, r) -> List.length r < List.length s.
Proof.
  unfold JSONArray. pose proof (skip_ws_le s) as L.
  destruct (skip_ws s) as [|c t] eqn:E; [discriminate|].
  cbn [List.length] in L.
  destruct (c =? 93)%N; [intros H; inversion H; subst; lia|].
  destruct (array_items scan (List.length s) (c :: t)) as [[vs r']|] eqn:E2;
    [|discriminate].
  intros H. inversion H; subst. apply array_items_shorter in E2.
  cbn [List.length] in E2. lia.
Qed.

Lemma JSONObject_shorter (s : str) (v : pyval) (r : str) :
  JSONObject scan s = Some (v, r) -> List.length r < List.length s.
Proof.
  unfold JSONObject. pose proof (skip_ws_le s) as L.
  destruct (skip_ws s) as [|c t] eqn:E; [discriminate|].
  cbn [List.length] in L.
  destruct (c =? 125)%N; [intros H; inversion H; subst; lia|].
  destruct (c =? 34)%N; [|discriminate].
  destruct (object_pairs scan (List.length s) t) as [[ps r']|] eqn:E2;
    [|discriminate].
  intros H. inversion H; subst. apply object_pairs_shorter in E2. lia.
Qed.

End Loops.

Section ScanOnce.

Lemma some_pair_inv {A B} (a a' : A) (b b' : B) :
  Some (a, b) = Some (a', b') -> a = a' /\ b = b'.
Proof. intros H. inversion H. auto. Qed.

Lemma startswith_length (p s : str) :
  startswith p s = true -> List.length p <= List.length s.
Proof.
  revert s. induction p as [|x p IH]; intros s H; [cbn; lia|].
  destruct s as [|y s]; [discriminate|]. cbn in H.
  apply andb_true_iff in H. destruct H as [_ H]. apply IH in H.
  cbn [List.length]. lia.
Qed.

Lemma skipn_shorter (k : nat) (p s : str) :
  startswith p s = true -> List.length p = k -> 0 < k ->
  List.length (skipn k s) < List.length s.
Proof.
  intros H Hk Hpos. apply startswith_length in H.
  rewrite length_skipn. lia.
Qed.

(** A value that [scan_once] reads takes at least one character. *)
Lemma scan_once_shorter (f : nat) :
  forall s v r, scan_once f s = Some (v, r) ->
                List.length r < List.length s.
Proof.
  induction f as [|f IH]; intros s v r H; [discriminate|].
  destruct s as [|c t]; [discriminate|]. cbn [scan_once] in H.
  destruct (c =? 34)%N.
  { destruct (scanstring t) as [[x r']|] eqn:E; [|discriminate].
    inversion H; subst. apply scanstring_shorter in E.
    cbn [List.length]. lia. }
  destruct (c =? 123)%N.
  { apply (@JSONObject_shorter _ IH) in H. cbn [List.length]. lia. }
  destruct (c =? 91)%N.
  { apply (@JSONArray_shorter _ IH) in H. cbn [List.length]. lia. }
  destruct (startswith (U "null") (c :: t)) eqn:E1.
  { apply some_pair_inv in H. destruct H as [_ <-].
    eapply skipn_shorter; [eassumption | reflexivity | lia]. }
  destruct (startswith (U "true") (c :: t)) eqn:E2.
  { apply some_pair_inv in H. destruct H as [_ <-].
    eapply skipn_shorter; [eassumption | reflexivity | lia]. }
  destruct (startswith (U "false") (c :: t)) eqn:E3.
  { apply some_pair_inv in H. destruct H as [_ <-].
    eapply skipn_shorter; [eassumption | reflexivity | lia]. }
  destruct (match_number (c :: t)) as [[v' r']|] eqn:E4.
  { inversion H; subst. now apply match_number_shorter in E4. }
  destruct (startswith (U "NaN") (c :: t)) eqn:E5.
  { apply some_pair_inv in H. destruct H as [_ <-].
    eapply skipn_shorter; [eassumption | reflexivity | lia]. }
  destruct (startswith (U "Infinity") (c :: t)) eqn:E6.
  { apply some_pair_inv in H. destruct H as [_ <-].
    eapply skipn_shorter; [eassumption | reflexivity | lia]. }
  destruct (startswith (U "-Infinity") (c :: t)) eqn:E7; [|discriminate].
  apply some_pair_inv in H. destruct H as [_ <-].
    eapply skipn_shorter; [eassumption | reflexivity | lia].
Qed.

End ScanOnce.

Section Agreement.

Variables scan1 scan2 : str -> option (pyval * str).
Hypothesis shorter1 :
  forall s v r, scan1 s = Some (v, r) -> List.length r < List.length s.

Lemma array_items_agree (n : nat) :
  forall s,
    (forall s', List.length s' <= List.length s -> scan1 s' = scan2 s') ->
    array_items scan1 n s = array_items scan2 n s.
Proof.
  induction n as [|n IH]; intros s Hag; [reflexivity|].
  cbn [array_items]. rewrite <- (Hag s) by lia.
  destruct (scan1 s) as [[v r1]|] eqn:E; [|reflexivity].
  apply shorter1 in E. pose proof (skip_ws_le r1) as L.
  destruct (skip_ws r1) as [|c t]; [reflexivity|]. cbn [List.length] in L.
  destruct (c =? 93)%N; [reflexivity|].
  destruct (c =? 44)%N; [|reflexivity].
  pose proof (skip_ws_le t).
  rewrite (IH (skip_ws t)); [reflexivity|].
  intros s' Hs'. apply Hag. lia.
Qed.

Lemma object_pairs_agree (n : nat) :
  forall s,
    (forall s', List.length s' <= List.length s -> scan1 s' = scan2 s') ->
    object_pairs scan1 n s = object_pairs scan2 n s.
Proof.
  induction n as [|n IH]; intros s Hag; [reflexivity|].
  cbn [object_pairs].
  destruct (scanstring s) as [[key r0]|] eqn:E0; [|reflexivity].
  apply scanstring_shorter in E0. pose proof (skip_ws_le r0) as L0.
  destruct (skip_ws r0) as [|c t]; [reflexivity|]. cbn [List.length] in L0.
  destruct (c =? 58)%N; [|reflexivity].
  pose proof (skip_ws_le t) as Lt.
  rewrite <- (Hag (skip_ws t)) by lia.
  destruct (scan1 (skip_ws t)) as [[v r1]|] eqn:E; [|reflexivity].
  apply shorter1 in E. pose proof (skip_ws_le r1) as L1.
  destruct (skip_ws r1) as [|c1 t1]; [reflexivity|].
  cbn [List.length] in L1.
  destruct (c1 =? 125)%N; [reflexivity|].
  destruct (c1 =? 44)%N; [|reflexivity].
  pose proof (skip_ws_le t1) as L2.
  destruct (skip_ws t1) as [|q t2]; [reflexivity|].
  cbn [List.length] in L2.
  destruct (q =? 34)%N; [|reflexivity].
  rewrite (IH t2); [reflexivity|].
  intros s' Hs'. apply Hag. lia.
Qed.

Lemma JSONArray_agree (s : str) :
  (forall s', List.length s' <= List.length s -> scan1 s' = scan2 s') ->
  JSONArray scan1 s = JSONArray scan2 s.
Proof.
  intros Hag. unfold JSONArray. pose proof (skip_ws_le s) as L.
  destruct (skip_ws s) as [|c t]; [reflexivity|].
  destruct (c =? 93)%N; [reflexivity|].
  rewrite (array_items_agree (List.length s) (c :: t)); [reflexivity|].
  intros s' Hs'. apply Hag. lia.
Qed.

Lemma JSONObject_agree (s : str) :
  (forall s', List.length s' <= List.length s -> scan1 s' = scan2 s') ->
  JSONObject scan1 s = JSONObject scan2 s.
Proof.
  intros Hag. unfold JSONObject. pose proof (skip_ws_le s) as L.
  destruct (skip_ws s) as [|c t]; [reflexivity|]. cbn [List.length] in L.
  destruct (c =? 125)%N; [reflexivity|].
  destruct (c =? 34)%N; [|reflexivity].
  rewrite (object_pairs_agree (List.length s) t); [reflexivity|].
  intros s' Hs'. apply Hag. lia.
Qed.

End Agreement.

Section Fuel.

(** Fuel above the length of the text is never used up: with any two
    such amounts [scan_once] gives the same. *)
Lemma scan_once_fuel_bounded (n : nat) :
  forall s f f', List.length s <= n -> n < f -> n < f' ->
                 scan_once f s = scan_once f' s.
Proof.
  induction n as [|n IH]; intros s f f' Hs Hf Hf'.
  - destruct s; [|cbn in Hs; lia].
    destruct f; [lia|]. destruct f'; [lia|]. reflexivity.
  - destruct f as [|f]; [lia|]. destruct f' as [|f']; [lia|].
    destruct s as [|c t]; [reflexivity|]. cbn [List.length] in Hs.
    cbn [scan_once].
    assert (Hag : forall s', List.length s' <= List.length t ->
                             scan_once f s' = scan_once f' s')
      by (intros s' Hs'; apply IH; lia).
    rewrite (@JSONObject_agree _ (scan_once f') (scan_once_shorter f) t Hag).
    rewrite (@JSONArray_agree _ (scan_once f') (scan_once_shorter f) t Hag).
    reflexivity.
Qed.

(** The fuel [json.loads] starts with is enough: more of it changes
    nothing, so a [None] is a text that is no JSON, never a lack of
    fuel. *)
Theorem loads_fuel_is_enough (s : str) (extra : nat) :
  scan_once (S (List.length s) + extra) (skip_ws s)
  = scan_once (S (List.length s)) (skip_ws s).
Proof.
  pose proof (skip_ws_le s).
  apply scan_once_fuel_bounded with (n := List.length s); lia.
Qed.

(** Nor do the bounds on the items of an array and on the members of an
    object cut anything short. *)
Corollary loops_fuel_is_enough (f n : nat) (s : str) :
  List.length s <= n ->
  array_items (scan_once f) n s
  = array_items (scan_once f) (List.length s) s
  /\ object_pairs (scan_once f) n s
     = object_pairs (scan_once f) (List.length s) s.
Proof.
  intros Hn. split.
  - apply (@array_items_fuel _ (scan_once_shorter f)); lia.
  - apply (@object_pairs_fuel _ (scan_once_shorter f)); lia.
Qed.

End Fuel.

(** A request addressed to ["kernel"] is answered by a reply addressed to
["shell"]. *)
Lemma reply_target_is_shell_witness :
  In (Reply (make_reply (PInt 42) (U "response") (U "ok")))
     (trace (run example_externals initial
               [{| read := ReadData
                             (J "{'id': 42, 'target': 'kernel', 'msg_type': 'task', 'content': 'hello'}"
                              ++ [NL]);
                   path_exists := true |}] []))
  /\ dict_get (make_reply (PInt 42) (U "response") (U "ok")) (U "target")
     = Some (PStr (U "shell")).
Proof.
  assert (Hin : In (Reply (make_reply (PInt 42) (U "response") (U "ok")))
                   (trace (run example_externals initial
                             [{| read := ReadData
                                           (J "{'id': 42, 'target': 'kernel', 'msg_type': 'task', 'content': 'hello'}"
                                            ++ [NL]);
                                 path_exists := true |}] []))).
  { vm_compute. right. left. reflexivity. }
  split; [exact Hin|].
  exact (@reply_target_is_shell example_externals _ initial [] _ Hin).
Defined.

(** * Further properties of the loop *)

(** ** Records in one read *)

Section Sequencing.

Variable X : Externals.

Lemma drain_lines_cons (l : str) (ls : list str) (w : world) :
  drain_lines X (l :: ls) w =
  match drain_lines X [l] w with
  | (t1, w1, Some _) =>
      (t1 ++ trace (drain_lines X ls w1), snd (fst (drain_lines X ls w1)),
       result (drain_lines X ls w1))
  | (t1, w1, None) => (t1, w1, None)
  end.
Proof.
  cbn [drain_lines]. destruct (is_empty (strip l)).
  - unfold ret, trace, result.
    destruct (drain_lines X ls w) as [[t2 w2] r]. reflexivity.
  - rewrite !bind_unfold.
    destruct (process_line X (strip l) w) as [[t1 w1] [[]|]];
      [|reflexivity].
    unfold ret, trace, result. cbn [fst snd]. rewrite List.app_nil_r.
    reflexivity.
Qed.

(** X1: the lines of one read are handled in the order in which they
    stand, each in the world the one before left: handling [l1 ++ l2] is
    handling [l1] and then [l2]; when an exception escapes from [l1],
    no line of [l2] is begun. *)
Theorem records_handled_in_order (l1 l2 : list str) (w : world) :
  drain_lines X (l1 ++ l2) w =
  match drain_lines X l1 w with
  | (t1, w1, Some _) =>
      (t1 ++ trace (drain_lines X l2 w1), snd (fst (drain_lines X l2 w1)),
       result (drain_lines X l2 w1))
  | (t1, w1, None) => (t1, w1, None)
  end.
Proof.
  revert w. induction l1 as [|l l1 IH]; intros w.
  - cbn [app drain_lines ret]. unfold trace, result.
    destruct (drain_lines X l2 w) as [[t2 w2] r]. reflexivity.
  - cbn [app]. rewrite (drain_lines_cons l (l1 ++ l2)).
    rewrite (drain_lines_cons l l1).
    destruct (drain_lines X [l] w) as [[t1 w1] [[]|]]; [|reflexivity].
    rewrite IH. unfold trace, result.
    destruct (drain_lines X l1 w1) as [[t2 w2] [[]|]]; cbn [fst snd].
    + destruct (drain_lines X l2 w2) as [[t3 w3] r]. cbn [fst snd].
      rewrite List.app_assoc. reflexivity.
    + reflexivity.
Qed.

End Sequencing.

(** ** What the framer keeps *)

Section FramerInvariants.

(** X2: the framer loses nothing and invents nothing: the lines it
    splits off, each with its newline, followed by what it keeps in
    [read_buffer], are the buffer it was given; no line and no
    remainder holds a newline. *)
Theorem split_lines_lossless (buf : str) :
  flat_map (fun l => l ++ [NL]) (fst (split_lines buf))
  ++ snd (split_lines buf) = buf
  /\ Forall (fun l => ~ In NL l) (fst (split_lines buf))
  /\ ~ In NL (snd (split_lines buf)).
Proof.
  induction buf as [|c buf (IH1 & IH2 & IH3)]; [cbn; auto|].
  cbn [split_lines]. destruct (split_lines buf) as [ls rest].
  cbn [fst snd] in *.
  destruct (N.eqb c NL) eqn:E.
  - apply N.eqb_eq in E. subst c. cbn [fst snd flat_map app].
    rewrite IH1. repeat split; auto.
  - apply N.eqb_neq in E. destruct ls as [|l ls]; cbn [fst snd].
    + cbn [flat_map app] in *. subst buf. repeat split; auto.
      intros [H|H]; [congruence | auto].
    + cbn [flat_map app] in *. rewrite <- IH1.
      rewrite <- !List.app_assoc. repeat split; auto.
      inversion IH2; subst. constructor; auto.
      intros [H|H]; [congruence | auto].
Qed.

Lemma lstrip_head (s : str) (c : N) (t : str) :
  lstrip s = c :: t -> is_space c = false.
Proof.
  induction s as [|x s IH]; cbn [lstrip]; [discriminate|].
  destruct (is_space x) eqn:E; [exact IH|].
  intros H. inversion H; subst. exact E.
Qed.

Lemma lstrip_suffix (s : str) : exists sp, s = sp ++ lstrip s.
Proof.
  induction s as [|x s [sp IH]]; [exists []; reflexivity|].
  cbn [lstrip]. destruct (is_space x).
  - exists (x :: sp). cbn. congruence.
  - exists []. reflexivity.
Qed.

Lemma rstrip_prefix (s : str) : exists sp, s = rstrip s ++ sp.
Proof.
  unfold rstrip. destruct (lstrip_suffix (rev s)) as [sp H].
  exists (rev sp). rewrite <- rev_app_distr, <- H, rev_involutive.
  reflexivity.
Qed.

Lemma rstrip_last (s : str) (t : str) (c : N) :
  rstrip s = t ++ [c] -> is_space c = false.
Proof.
  unfold rstrip. intros H.
  apply (f_equal (@rev N)) in H.
  rewrite rev_involutive, rev_app_distr in H. cbn in H.
  eapply lstrip_head. exact H.
Qed.

Lemma strip_sublist (s : str) : exists a b, s = a ++ strip s ++ b.
Proof.
  unfold strip. destruct (lstrip_suffix s) as [a Ha].
  destruct (rstrip_prefix (lstrip s)) as [b Hb].
  exists a, b. rewrite <- Hb. exact Ha.
Qed.

(** X3: a record that reaches the decoder is never empty, holds no
    newline, and neither begins nor ends with a white-space character,
    whatever the bytes read and whatever the buffer held. *)
Theorem records_are_stripped_lines (buf : str) (data : bytes) (r : str) :
  In r (snd (feed buf data)) ->
  r <> []
  /\ ~ In NL r
  /\ (forall c t, r = c :: t -> is_space c = false)
  /\ (forall t c, r = t ++ [c] -> is_space c = false).
Proof.
  unfold feed.
  destruct (split_lines_lossless (buf ++ decode_ignore data))
    as (_ & Hls & _).
  destruct (split_lines (buf ++ decode_ignore data)) as [ls rest].
  cbn [fst snd] in *. unfold records_of. intros Hin.
  apply filter_In in Hin. destruct Hin as [Hin Hne].
  apply in_map_iff in Hin. destruct Hin as (l & <- & Hl).
  rewrite Forall_forall in Hls. specialize (Hls l Hl).
  repeat split.
  - destruct (strip l); [discriminate | congruence].
  - intros Hnl. apply Hls.
    destruct (strip_sublist l) as (a & b & E). rewrite E.
    apply in_or_app. right. apply in_or_app. left. exact Hnl.
  - intros c t E. unfold strip in E.
    destruct (rstrip_prefix (lstrip l)) as [sp Hsp].
    rewrite E in Hsp. cbn in Hsp. eapply lstrip_head. exact Hsp.
  - intros t c E. unfold strip in E. eapply rstrip_last. exact E.
Qed.

End FramerInvariants.

Lemma records_are_stripped_lines_witness :
  J "{'id':1}" <> [] /\ ~ In NL (J "{'id':1}").
Proof.
  pose proof (@records_are_stripped_lines []
                ([32%N] ++ J "{'id':1}" ++ [32%N; NL]) (J "{'id':1}")
                (or_introl eq_refl)) as H.
  split; [exact (proj1 H) | exact (proj1 (proj2 H))].
Defined.

(** ** The heartbeat *)

Section HeartbeatFacts.

Variable X : Externals.

(** The events of the handling of records: invocations, replies, writes
    and pauses. *)
Lemma emits_only_lines (P : event -> Prop) (ls : list str) :
  (forall t arg, P (Invoke t arg)) -> (forall r, P (Reply r)) ->
  (forall b o, P (Write b o)) -> (forall n, P (Sleep n)) ->
  emits_only P (drain_lines X ls).
Proof.
  intros Hi Hr Hw Hs.
  assert (Hreply : forall msg_id r,
             emits_only P
               (let '(mt, fc) := classify r in
                emit (Reply (make_reply msg_id mt fc)) ;;;
                if dumps_raises X (PDict (make_reply msg_id mt fc))
                then raise
                else send (dumps (float_repr X)
                             (PDict (make_reply msg_id mt fc)) ++ [NL]))).
  { intros msg_id r. destruct (classify r) as [mt fc].
    apply emits_only_bind; [apply emits_only_emit; auto|].
    intros _. destruct (dumps_raises X _); [apply emits_only_raise|].
    apply emits_only_send; auto. }
  induction ls as [|l ls IH]; cbn [drain_lines]; [apply emits_only_ret|].
  destruct (is_empty (strip l)); [exact IH|].
  apply emits_only_bind; [|auto].
  unfold process_line.
  destruct (json_loads X (strip l)) as [msg| |];
    [|apply emits_only_ret|apply emits_only_raise].
  destruct (dumps_indent_raises X msg); [apply emits_only_raise|].
  destruct msg as [| | | | | |d]; try apply emits_only_raise.
  destruct (is_task d); [|apply emits_only_ret].
  unfold process_task. cbv zeta.
  destruct (stdout_encodes X _); [|apply emits_only_raise].
  destruct (dict_get d (U "content")) as [[| | | |p| |]|];
    try apply emits_only_raise.
  - apply emits_only_bind; [apply emits_only_handle; auto|].
    intros r. apply Hreply.
  - apply emits_only_bind; [apply emits_only_handle; auto|].
    intros r. apply Hreply.
Qed.

Lemma drain_lines_no_heartbeat (ls : list str) (w : world) :
  ~ In Heartbeat (trace (drain_lines X ls w)).
Proof.
  intros Hin.
  assert (H : emits_only (fun e => e <> Heartbeat) (drain_lines X ls))
    by (apply emits_only_lines; intros; discriminate).
  specialize (H w). rewrite Forall_forall in H.
  exact (H _ Hin eq_refl).
Qed.

(** What [after_read] does, in terms of the handling of the lines. *)
Lemma after_read_shape (buf : str) (hc : nat) (w : world) :
  after_read X buf hc w =
  match drain_lines X (fst (split_lines buf)) w with
  | (t, w1, Some _) =>
      (beat hc ++ t ++ [Sleep 10], w1,
       Some {| read_buffer := snd (split_lines buf);
               heartbeat_counter := next_count hc |})
  | (t, w1, None) => (beat hc ++ t, w1, None)
  end.
Proof.
  unfold after_read. rewrite bind_unfold, heartbeat_run.
  destruct (split_lines buf) as [ls rest]. cbn [fst snd].
  rewrite bind_unfold.
  destruct (drain_lines X ls w) as [[t w1] [[]|]]; reflexivity.
Qed.

Lemma next_count_mod (hc : nat) :
  hc < 1000 -> next_count hc = S hc mod 1000 /\ next_count hc < 1000.
Proof.
  intros H. unfold next_count.
  destruct (Nat.leb_spec 1000 (S hc)) as [Hge|Hlt].
  - assert (hc = 999) by lia. subst hc. split; [reflexivity | lia].
  - rewrite Nat.mod_small by lia. split; [reflexivity | lia].
Qed.

Lemma iteration_counter (st : State) (i : Input) (w : world) t w' st' :
  iteration X st i w = (t, w', Running st') ->
  heartbeat_counter st' = next_count (heartbeat_counter st).
Proof.
  assert (Hafter : forall buf w0 t0,
             finish (after_read X buf (heartbeat_counter st) w0)
             = (t0, w', Running st') ->
             heartbeat_counter st' = next_count (heartbeat_counter st)).
  { intros buf w0 t0 H. apply finish_running in H.
    rewrite after_read_shape in H.
    destruct (drain_lines X (fst (split_lines buf)) w0) as [[t1 w1] [[]|]];
      [|discriminate].
    inversion H; subst. reflexivity. }
  unfold iteration. destruct (read i) as [data| |errno]; eauto.
  destruct (errno =? 35)%Z; eauto.
  destruct (errno =? 5)%Z; [|discriminate].
  destruct (path_exists i); [|discriminate].
  intros H. apply finish_running in H.
  rewrite !bind_unfold in H. cbn [emit trace result fst snd] in H.
  rewrite !bind_unfold in H. cbn [emit trace result fst snd] in H.
  rewrite after_read_shape in H.
  destruct (drain_lines X (fst (split_lines (read_buffer st))) w)
    as [[t1 w1] [[]|]]; cbn [trace result fst snd] in H; [|discriminate].
  inversion H; subst. reflexivity.
Qed.

Lemma reachable_counter (st : State) :
  reachable X st -> heartbeat_counter st < 1000.
Proof.
  induction 1 as [|st i w t w' st' _ IH Hstep]; [cbn; lia|].
  rewrite (iteration_counter _ _ _ Hstep).
  apply next_count_mod. exact IH.
Qed.

Lemma after_read_beat (buf : str) (hc : nat) (w : world) :
  exists body,
    trace (finish (after_read X buf hc w)) = beat hc ++ body
    /\ ~ In Heartbeat body.
Proof.
  rewrite trace_finish, after_read_shape.
  pose proof (drain_lines_no_heartbeat (fst (split_lines buf)) w) as Hq.
  destruct (drain_lines X (fst (split_lines buf)) w) as [[t1 w1] [[]|]];
    cbn [trace fst] in *.
  - exists (t1 ++ [Sleep 10]). split; [reflexivity|].
    intros Hin. apply in_app_or in Hin.
    destruct Hin as [Hin|[Hin|[]]]; [auto | discriminate].
  - exists t1. split; [reflexivity | exact Hq].
Qed.

(** X4: the heartbeat counter of a state the loop reaches is below
    1000; an iteration that goes on steps it by one modulo 1000, prints
    the dot exactly once when the counter stood at 999, and prints none
    otherwise, whatever the records handled in between. *)
Theorem heartbeat_every_thousandth (st : State) (i : Input) (w : world)
        t w' st' :
  reachable X st ->
  iteration X st i w = (t, w', Running st') ->
  heartbeat_counter st < 1000
  /\ heartbeat_counter st' = S (heartbeat_counter st) mod 1000
  /\ (heartbeat_counter st = 999 ->
      exists pre body, t = pre ++ Heartbeat :: body
                       /\ ~ In Heartbeat pre /\ ~ In Heartbeat body)
  /\ (heartbeat_counter st <> 999 -> ~ In Heartbeat t).
Proof.
  intros Hreach Hstep.
  pose proof (reachable_counter Hreach) as Hlt.
  split; [exact Hlt|]. split.
  { rewrite (iteration_counter _ _ _ Hstep).
    apply next_count_mod. exact Hlt. }
  assert (Ht : exists pre body,
             t = pre ++ beat (heartbeat_counter st) ++ body
             /\ ~ In Heartbeat pre /\ ~ In Heartbeat body).
  { assert (Hplain : forall buf,
               iteration X st i w
               = finish (after_read X buf (heartbeat_counter st) w) ->
               exists pre body,
                 t = pre ++ beat (heartbeat_counter st) ++ body
                 /\ ~ In Heartbeat pre /\ ~ In Heartbeat body).
    { intros buf E.
      destruct (after_read_beat buf (heartbeat_counter st) w)
        as (body & Hb & Hq).
      rewrite <- E, Hstep in Hb. cbn [trace fst] in Hb.
      exists [], body. cbn [app]. auto. }
    revert Hstep Hplain. unfold iteration.
    destruct (read i) as [data| |errno]; intros Hstep Hplain;
      [eapply Hplain; reflexivity | eapply Hplain; reflexivity |].
    destruct (errno =? 35)%Z; [eapply Hplain; reflexivity|].
    destruct (errno =? 5)%Z; [|discriminate].
    destruct (path_exists i); [|discriminate].
    destruct (after_read_beat (read_buffer st) (heartbeat_counter st) w)
      as (body & Hb & Hq).
    rewrite trace_finish in Hb.
    assert (E : trace (finish ((emit (Sleep 2000) ;;;
                                emit (PathCheck true) ;;;
                                after_read X (read_buffer st)
                                  (heartbeat_counter st)) w))
                = [Sleep 2000; PathCheck true]
                  ++ beat (heartbeat_counter st) ++ body).
    { rewrite trace_finish, !bind_unfold.
      cbn [emit trace result fst snd]. rewrite !bind_unfold.
      cbn [emit trace result fst snd].
      destruct (after_read X (read_buffer st) (heartbeat_counter st) w)
        as [[t1 w1] [s1|]]; cbn [trace fst snd] in *; rewrite Hb;
        reflexivity. }
    rewrite Hstep in E. cbn [trace fst] in E.
    exists [Sleep 2000; PathCheck true], body. repeat split; auto.
    intros [H|[H|[]]]; discriminate. }
  destruct Ht as (pre & body & -> & Hpre & Hbody). split.
  - intros E. rewrite E. exists pre, body. auto.
  - intros Hne Hin. unfold beat in Hin.
    destruct (Nat.leb_spec 1000 (S (heartbeat_counter st))); [lia|].
    cbn [app] in Hin. apply in_app_or in Hin. tauto.
Qed.

End HeartbeatFacts.

Lemma heartbeat_every_thousandth_witness :
  reachable example_externals initial
  /\ heartbeat_counter
       {| read_buffer := []; heartbeat_counter := 1 |} = 1 mod 1000.
Proof.
  split; [constructor|].
  apply (@heartbeat_every_thousandth example_externals initial
           {| read := ReadBlocking; path_exists := true |} []
           [Sleep 10] []
           {| read_buffer := []; heartbeat_counter := 1 |}
           (reach_initial example_externals) eq_refl).
Defined.

(** ** Writes that block or fail *)

Section WriterFailures.

(** X5: a chunk whose write blocks once or twice is written again after
    10 ms, with the same bytes, until a write returns; it is then
    written once and no more. *)
Theorem blocked_chunk_is_retried (chunk : str) (b : bytes) (j : nat)
        (w : world) :
  encode chunk = Some b ->
  j < 3 ->
  write_chunk 3 chunk (repeat WriteBlocked j ++ WriteOk :: w)
  = (concat (repeat [Write b WriteBlocked; Sleep 10] j)
     ++ [Write b WriteOk], w, Some tt).
Proof.
  intros Henc Hj.
  destruct j as [|[|[|j]]]; [| | |lia];
    cbn [write_chunk repeat app concat]; rewrite Henc; reflexivity.
Qed.

Lemma send_chunks_failed (resp_str : str) (idx : list nat) :
  ascii_text resp_str ->
  forall k w',
    k < List.length idx ->
    send_chunks resp_str idx (repeat WriteOk k ++ WriteFailed :: w')
    = (flat_map paced
         (firstn k (map (fun i => slice resp_str i (i + chunk_size)) idx))
       ++ [Write (nth k (map (fun i => slice resp_str i (i + chunk_size))
                             idx) [])
                 WriteFailed],
       w', None).
Proof.
  intros Ha. induction idx as [|i idx IH]; intros k w' Hk;
    [cbn in Hk; lia|].
  destruct k as [|k].
  - cbn [send_chunks write_chunk map firstn flat_map nth repeat app].
    rewrite (encode_ascii (ascii_text_slice i (i + chunk_size) Ha)).
    reflexivity.
  - cbn [send_chunks write_chunk map firstn flat_map nth repeat app].
    rewrite (encode_ascii (ascii_text_slice i (i + chunk_size) Ha)).
    unfold bind at 1. unfold bind at 1. cbn [os_write hd tl ret].
    unfold bind at 1. cbn [emit].
    rewrite IH by (cbn in Hk; lia). reflexivity.
Qed.

(** X6: a write that fails with an error other than would-block is not
    tried again: the chunks before it have been written, each with its
    pause, the failing chunk is attempted once, nothing follows it, and
    the exception leaves the writer. *)
Theorem failed_write_ends_reply (resp_str : str) (k : nat) (w' : world) :
  ascii_text resp_str ->
  k < List.length (chunks resp_str) ->
  send resp_str (repeat WriteOk k ++ WriteFailed :: w')
  = (flat_map paced (firstn k (chunks resp_str))
     ++ [Write (nth k (chunks resp_str) []) WriteFailed],
     w', None).
Proof.
  intros Ha Hk. unfold send, chunks in *.
  rewrite length_map in Hk. apply send_chunks_failed; assumption.
Qed.

End WriterFailures.

Lemma blocked_chunk_is_retried_witness :
  write_chunk 3 (U "abc") [WriteBlocked; WriteBlocked; WriteOk; WriteFailed]
  = ([Write (U "abc") WriteBlocked; Sleep 10;
      Write (U "abc") WriteBlocked; Sleep 10;
      Write (U "abc") WriteOk], [WriteFailed], Some tt).
Proof.
  apply (@blocked_chunk_is_retried (U "abc") (U "abc") 2 [WriteFailed]);
    [reflexivity | lia].
Defined.

Lemma failed_write_ends_reply_witness :
  send (U "0123456789abcdefghijklmnopqrstuvwxyz" ++ [NL])
       [WriteOk; WriteFailed; WriteOk]
  = ([Write (U "0123456789abcdefghijklmnopqrstuv") WriteOk; Sleep 20;
      Write (U "wxyz" ++ [NL]) WriteFailed], [WriteOk], None).
Proof.
  apply (@failed_write_ends_reply
           (U "0123456789abcdefghijklmnopqrstuvwxyz" ++ [NL]) 1 [WriteOk]).
  - repeat (constructor; [reflexivity|]). constructor.
  - cbn. lia.
Defined.

(** ** The record of a reply on the line *)

Section ReplyLine.

Variable fr : str -> str.
Hypothesis fr_printable : forall lx, printable_text (fr lx).

Lemma printable_no_newline (s : str) : printable_text s -> ~ In NL s.
Proof.
  intros H Hin. unfold printable_text in H. rewrite Forall_forall in H.
  specialize (H _ Hin). unfold NL in H. lia.
Qed.

Lemma strip_between (c c' : N) (mid : str) :
  is_space c = false -> is_space c' = false ->
  strip (c :: mid ++ [c']) = c :: mid ++ [c'].
Proof.
  intros Hc Hc'. unfold strip, rstrip. cbn [lstrip]. rewrite Hc.
  replace (rev (c :: mid ++ [c'])) with (c' :: rev mid ++ [c])
    by (cbn [rev]; rewrite rev_app_distr; reflexivity).
  cbn [lstrip]. rewrite Hc'.
  cbn [rev]. rewrite rev_app_distr, rev_involutive. reflexivity.
Qed.

(** X7: whatever the id, the type and the content of a reply (newlines,
    quotes, characters outside ASCII), its JSON text is printable ASCII
    and holds no newline; a framer that is given the record, followed
    by anything, splits off exactly this text as its first line, and
    stripping leaves it as it is. *)
Theorem reply_is_one_line (msg_id : pyval) (mt fc rest : str) :
  let line := dumps fr (PDict (make_reply msg_id mt fc)) in
  printable_text line
  /\ ~ In NL line
  /\ split_lines (line ++ NL :: rest)
     = (line :: fst (split_lines rest), snd (split_lines rest))
  /\ records_of [line] = [line].
Proof.
  intros line.
  assert (Hp : printable_text line) by (apply dumps_printable; assumption).
  assert (Hn : ~ In NL line) by (apply printable_no_newline; exact Hp).
  repeat split; [exact Hp | exact Hn | apply split_lines_line; exact Hn |].
  unfold records_of. cbn [map]. subst line. cbn [dumps make_reply].
  rewrite strip_between by reflexivity. reflexivity.
Qed.

End ReplyLine.

Lemma reply_is_one_line_witness :
  ~ In NL (dumps (fun _ => U "0.5")
             (PDict (make_reply (PFloat (U "0.5")) (U "response")
                       [97; NL; 98]%N))).
Proof.
  refine (proj1 (proj2 (@reply_is_one_line (fun _ => U "0.5") _
                          (PFloat (U "0.5")) (U "response")
                          [97; NL; 98]%N []))).
  intros _. repeat (constructor; [cbv; split; discriminate|]). constructor.
Defined.

(** ** What the classification takes from the result *)

Section ClassificationShape.

Lemma upto_last_brace_none (s : str) :
  upto_last_brace s = None -> ~ In RBRACE s.
Proof.
  induction s as [|c s IH]; [auto|]. cbn [upto_last_brace].
  destruct (upto_last_brace s) as [p|]; [discriminate|].
  destruct (N.eqb c RBRACE) eqn:E; [discriminate|].
  apply N.eqb_neq in E. intros _ [H|H]; [congruence | exact (IH eq_refl H)].
Qed.

Lemma upto_last_brace_shape (s p : str) :
  upto_last_brace s = Some p ->
  exists body b, p = body ++ [RBRACE] /\ s = p ++ b /\ ~ In RBRACE b.
Proof.
  revert p. induction s as [|c s IH]; intros p; [discriminate|].
  cbn [upto_last_brace].
  destruct (upto_last_brace s) as [p'|] eqn:E.
  - intros H. inversion H; subst p.
    destruct (IH p' eq_refl) as (body & b & -> & Hs & Hb).
    exists (c :: body), b. repeat split; [|exact Hb].
    cbn [app]. f_equal. exact Hs.
  - destruct (N.eqb c RBRACE) eqn:Ec; [|discriminate].
    apply N.eqb_eq in Ec. subst c. intros H. inversion H; subst p.
    exists [], s. repeat split. apply upto_last_brace_none. exact E.
Qed.

Lemma startswith_split (p s : str) :
  startswith p s = true -> s = p ++ skipn (List.length p) s.
Proof.
  revert s. induction p as [|x p IH]; intros s H; [reflexivity|].
  destruct s as [|y s]; [discriminate|]. cbn [startswith] in H.
  apply andb_true_iff in H. destruct H as [Hxy H].
  apply N.eqb_eq in Hxy. subst y. cbn [List.length skipn app].
  f_equal. apply IH. exact H.
Qed.

Lemma match_tag_here_shape (tag s g : str) :
  match_tag_here tag s = Some g ->
  exists body b,
    g = LBRACE :: body ++ [RBRACE] /\ s = tag ++ g ++ b /\ ~ In RBRACE b.
Proof.
  unfold match_tag_here.
  destruct (startswith (tag ++ [LBRACE]) s) eqn:E; [|discriminate].
  apply startswith_split in E. rewrite length_app in E. cbn [List.length] in E.
  destruct (upto_last_brace (skipn (List.length tag + 1) s)) as [p|] eqn:Ep;
    [|discriminate].
  intros H. inversion H; subst g.
  destruct (upto_last_brace_shape _ Ep) as (body & b & -> & Hs & Hb).
  exists body, b. repeat split; [|exact Hb].
  rewrite E at 1. rewrite Hs.
  repeat rewrite <- List.app_assoc. cbn [app].
  repeat rewrite <- List.app_assoc. reflexivity.
Qed.

Lemma re_search_tag_cons (tag : str) (c : N) (s : str) :
  re_search_tag tag (c :: s) =
  match match_tag_here tag (c :: s) with
  | Some g => Some g
  | None => re_search_tag tag s
  end.
Proof. reflexivity. Qed.

Lemma re_search_tag_shape (tag s g : str) :
  re_search_tag tag s = Some g ->
  exists a body b,
    s = a ++ tag ++ g ++ b /\ g = LBRACE :: body ++ [RBRACE]
    /\ ~ In RBRACE b.
Proof.
  induction s as [|c s IH].
  - cbn [re_search_tag].
    destruct (match_tag_here tag []) as [g'|] eqn:E; [|discriminate].
    intros H. inversion H; subst g'.
    destruct (match_tag_here_shape _ _ E) as (body & b & Hg & Hs & Hb).
    exists [], body, b. auto.
  - rewrite re_search_tag_cons.
    destruct (match_tag_here tag (c :: s)) as [g'|] eqn:E.
    + intros H. inversion H; subst g'.
      destruct (match_tag_here_shape _ _ E) as (body & b & Hg & Hs & Hb).
      exists [], body, b. auto.
    + intros H. destruct (IH H) as (a & body & b & Hs & Hg & Hb).
      exists (c :: a), body, b. repeat split; auto.
      cbn [app]. f_equal. exact Hs.
Qed.

Lemma skipn_keeps (x : N) (n : nat) (l1 l2 : str) :
  n <= List.length l1 -> In x (skipn n (l1 ++ x :: l2)).
Proof.
  intros H. rewrite skipn_app.
  replace (n - List.length l1) with 0 by lia. cbn [skipn].
  apply in_or_app. right. left. reflexivity.
Qed.

(** X8: the content the pattern of a tag takes out of a result: it
    begins with the opening brace that follows the leftmost occurrence
    of the tag with a brace, and it runs to the last closing brace of
    the whole result; what follows holds no closing brace, and no
    earlier place of the result begins with the tag and a brace. *)
Theorem pattern_takes_leftmost_to_last_brace (tag s g : str) :
  re_search_tag tag s = Some g ->
  exists a body b,
    s = a ++ tag ++ g ++ b
    /\ g = LBRACE :: body ++ [RBRACE]
    /\ ~ In RBRACE b
    /\ forall a1 a2, a = a1 ++ a2 -> a2 <> [] ->
         startswith (tag ++ [LBRACE]) (a2 ++ tag ++ g ++ b) = false.
Proof.
  induction s as [|c s IH].
  - cbn [re_search_tag].
    destruct (match_tag_here tag []) as [g'|] eqn:E; [|discriminate].
    intros H. inversion H; subst g'.
    destruct (match_tag_here_shape _ _ E) as (body & b & Hg & Hs & Hb).
    exists [], body, b. repeat split; auto.
    intros a1 a2 Ha Hne. destruct a1; destruct a2; try discriminate.
    congruence.
  - rewrite re_search_tag_cons.
    destruct (match_tag_here tag (c :: s)) as [g'|] eqn:E.
    + intros H. inversion H; subst g'.
      destruct (match_tag_here_shape _ _ E) as (body & b & Hg & Hs & Hb).
      exists [], body, b. repeat split; auto.
      intros a1 a2 Ha Hne. destruct a1; destruct a2; try discriminate.
      congruence.
    + intros H. destruct (IH H) as (a & body & b & Hs & Hg & Hb & Hleft).
      exists (c :: a), body, b. repeat split; auto.
      { cbn [app]. f_equal. exact Hs. }
      intros a1 a2 Ha Hne. destruct a1 as [|c1 a1].
      * cbn [app] in Ha. subst a2. cbn [app]. rewrite <- Hs.
        unfold match_tag_here in E.
        destruct (startswith (tag ++ [LBRACE]) (c :: s)) eqn:Est;
          [|reflexivity].
        destruct (upto_last_brace (skipn (List.length tag + 1) (c :: s)))
          as [p|] eqn:Ep; [discriminate|].
        exfalso. apply upto_last_brace_none in Ep. apply Ep.
        rewrite Hs, Hg.
        replace (c :: a ++ tag ++ (LBRACE :: body ++ [RBRACE]) ++ b)
          with ((c :: a ++ tag ++ LBRACE :: body) ++ RBRACE :: b)
          by (cbn [app]; repeat rewrite <- List.app_assoc; cbn [app];
              repeat rewrite <- List.app_assoc; reflexivity).
        apply skipn_keeps. cbn [List.length].
        rewrite !length_app. cbn [List.length]. lia.
      * cbn [app] in Ha. inversion Ha; subst c1.
        apply (Hleft a1 a2); assumption.
Qed.

Lemma re_search_tag_part (tag s g : str) :
  re_search_tag tag s = Some g -> exists a b, s = a ++ g ++ b.
Proof.
  intros H. destruct (re_search_tag_shape _ _ H) as (a & body & b & Hs & _).
  exists (a ++ tag), b. rewrite <- List.app_assoc. exact Hs.
Qed.

Lemma prefix_part (tag s : str) :
  startswith tag s = true ->
  exists a b, s = a ++ skipn (List.length tag) s ++ b.
Proof.
  intros H. exists tag, []. rewrite List.app_nil_r.
  apply startswith_split. exact H.
Qed.

(** X9: the reply never carries text the handler did not produce: the
    content is a contiguous part of the result, the type is one of the
    five the shell knows, and a reply of type ["response"] carries the
    result whole. *)
Theorem reply_content_is_part_of_result (r : str) :
  In (fst (classify r))
     [U "response"; U "gui_plot"; U "gui_ml_dashboard";
      U "gui_pipeline_diagram"; U "gui_chess"]
  /\ (exists a b, r = a ++ snd (classify r) ++ b)
  /\ (fst (classify r) = U "response" -> snd (classify r) = r).
Proof.
  unfold classify.
  destruct (re_search_tag GUI_PIPELINE_DIAGRAM r) as [g|] eqn:E1.
  { cbn [fst snd]. split; [cbn; tauto|].
    split; [eapply re_search_tag_part; exact E1 | discriminate]. }
  destruct (re_search_tag GUI_ML_DASHBOARD r) as [g|] eqn:E2.
  { cbn [fst snd]. split; [cbn; tauto|].
    split; [eapply re_search_tag_part; exact E2 | discriminate]. }
  destruct (re_search_tag GUI_PLOT r) as [g|] eqn:E3.
  { cbn [fst snd]. split; [cbn; tauto|].
    split; [eapply re_search_tag_part; exact E3 | discriminate]. }
  destruct (re_search_tag GUI_CHESS r) as [g|] eqn:E4.
  { cbn [fst snd]. split; [cbn; tauto|].
    split; [eapply re_search_tag_part; exact E4 | discriminate]. }
  destruct (startswith GUI_PLOT r) eqn:P1.
  { cbn [fst snd]. split; [cbn; tauto|].
    split; [exact (prefix_part _ _ P1) | discriminate]. }
  destruct (startswith GUI_PIPELINE_DIAGRAM r) eqn:P2.
  { cbn [fst snd]. split; [cbn; tauto|].
    split; [exact (prefix_part _ _ P2) | discriminate]. }
  destruct (startswith GUI_ML_DASHBOARD r) eqn:P3.
  { cbn [fst snd]. split; [cbn; tauto|].
    split; [exact (prefix_part _ _ P3) | discriminate]. }
  cbn [fst snd]. split; [cbn; tauto|].
  split; [exists [], []; rewrite List.app_nil_r; reflexivity | reflexivity].
Qed.

End ClassificationShape.

Lemma pattern_takes_leftmost_to_last_brace_witness :
  exists a body b,
    U "see GUI_PLOT:{1} and GUI_PLOT:{2} end"
    = a ++ GUI_PLOT ++ J "{1} and GUI_PLOT:{2}" ++ b
    /\ J "{1} and GUI_PLOT:{2}" = LBRACE :: body ++ [RBRACE]
    /\ ~ In RBRACE b
    /\ forall a1 a2, a = a1 ++ a2 -> a2 <> [] ->
         startswith (GUI_PLOT ++ [LBRACE])
                    (a2 ++ GUI_PLOT ++ J "{1} and GUI_PLOT:{2}" ++ b)
         = false.
Proof.
  apply (@pattern_takes_leftmost_to_last_brace GUI_PLOT
           (U "see GUI_PLOT:{1} and GUI_PLOT:{2} end")
           (J "{1} and GUI_PLOT:{2}")).
  vm_compute. reflexivity.
Defined.

(** ** The routing of a task *)

Section Routing.

Variable X : Externals.

Ltac route :=
  repeat match goal with
         | |- context [if ?c then _ else _] => destruct c eqn:?
         | |- context [match song_search X ?a with _ => _ end] =>
             destruct (song_search X a)
         end.

Lemma call_agent_run invoke p w :
  exists r, call_agent X invoke p w = ([Invoke Agent (Some p)], w, Some r).
Proof.
  unfold call_agent. rewrite bind_unfold. cbn [emit ret trace result fst snd].
  eexists. reflexivity.
Qed.

Lemma contains_app_l (a b s : str) :
  contains (a ++ b) s = true -> contains a s = true.
Proof.
  induction s as [|c s IH]; cbn [contains]; intros H.
  - rewrite orb_false_r in *. eapply startswith_app_l. exact H.
  - apply orb_true_iff in H. apply orb_true_iff. destruct H as [H|H].
    + left. eapply startswith_app_l. exact H.
    + right. auto.
Qed.

(** X10: without an agent graph, a task that asks for none of the
    direct tools is answered with the fixed text of line 248: no tool
    and no agent is called, and nothing is written while the response
    is made. *)
Theorem no_agent_fixed_answer (p : str) (w : world) :
  graph X = None ->
  (forall word,
      In word [U "plot"; U "calculate"; U "what is"; U "chess";
               U "agent test"; U "psych test"; U "psychology test";
               U "music"; U "play"] ->
      contains word (lower X p) = false) ->
  handle X p w = ([], w, Some (U "Agent not initialized")).
Proof.
  intros Hg Hw. unfold handle.
  assert (Hcb : contains (U "chess battle") (lower X p) = false).
  { destruct (contains (U "chess battle") (lower X p)) eqn:E; [|reflexivity].
    apply (@contains_app_l (U "chess") (U " battle")) in E.
    rewrite (Hw (U "chess")) in E by (cbn; tauto). discriminate. }
  rewrite Hcb.
  rewrite (Hw (U "plot")) by (cbn; tauto).
  rewrite (Hw (U "calculate")) by (cbn; tauto).
  rewrite (Hw (U "what is")) by (cbn; tauto).
  rewrite (Hw (U "chess")) by (cbn; tauto).
  rewrite (Hw (U "agent test")) by (cbn; tauto).
  rewrite (Hw (U "psych test")) by (cbn; tauto).
  rewrite (Hw (U "psychology test")) by (cbn; tauto).
  rewrite (Hw (U "music")) by (cbn; tauto).
  rewrite (Hw (U "play")) by (cbn; tauto).
  cbn [andb orb]. rewrite Hg. reflexivity.
Qed.

(** X11: the agent is the last resort: the graph is invoked, with the
    prompt as it came, only for a prompt whose lower-cased text holds
    none of the words chess, music, play, calculate, agent test, psych
    test and psychology test, and that is no plot request. *)
Theorem agent_is_last_resort (p : str) (w : world) (a : option str) :
  In (Invoke Agent a) (trace (handle X p w)) ->
  a = Some p
  /\ graph X <> None
  /\ contains (U "chess") (lower X p) = false
  /\ contains (U "music") (lower X p) = false
  /\ contains (U "play") (lower X p) = false
  /\ contains (U "calculate") (lower X p) = false
  /\ contains (U "agent test") (lower X p) = false
  /\ contains (U "psych test") (lower X p) = false
  /\ contains (U "psychology test") (lower X p) = false
  /\ (contains (U "plot") (lower X p) = false
      \/ contains (U "=") (lower X p) = false
         /\ contains (U "sin") (lower X p) = false
         /\ contains (U "cos") (lower X p) = false).
Proof.
  unfold handle.
  destruct (contains (U "plot") (lower X p)
            && (contains (U "=") (lower X p)
                || contains (U "sin") (lower X p)
                || contains (U "cos") (lower X p))) eqn:Eplot.
  { cbn. intros [H|[]]; discriminate. }
  destruct (contains (U "calculate") (lower X p)
            || contains (U "what is") (lower X p)
               && existsb (fun op => contains op p) operators) eqn:Ecalc.
  { cbn. intros [H|[]]; discriminate. }
  destruct (contains (U "chess") (lower X p)
            || contains (U "chess battle") (lower X p)) eqn:Echess.
  { cbn. intros [H|[]]; discriminate. }
  destruct (contains (U "agent test") (lower X p)
            || contains (U "psych test") (lower X p)
            || contains (U "psychology test") (lower X p)) eqn:Etest.
  { cbn. intros [H|[]]; discriminate. }
  destruct (contains (U "music") (lower X p)
            || contains (U "play") (lower X p)
               && negb (contains (U "chess") (lower X p))) eqn:Emusic.
  { route; cbn; intros [H|[]]; discriminate. }
  destruct (graph X) as [invoke|] eqn:Eg; [|intros []].
  destruct (call_agent_run invoke p w) as [r ->]. cbn [trace fst].
  intros [H|[]]. inversion H; subst a.
  apply orb_false_iff in Ecalc. destruct Ecalc as [Ecalc _].
  apply orb_false_iff in Echess. destruct Echess as [Echess _].
  apply orb_false_iff in Etest. destruct Etest as [Etest Epsy].
  apply orb_false_iff in Etest. destruct Etest as [Etest Epsych].
  apply orb_false_iff in Emusic. destruct Emusic as [Emusic Eplay].
  rewrite Echess in Eplay. cbn [negb] in Eplay.
  rewrite andb_true_r in Eplay.
  repeat split; try assumption; try discriminate.
  apply andb_false_iff in Eplot. destruct Eplot as [Eplot|Eplot];
    [left; exact Eplot | right].
  apply orb_false_iff in Eplot. destruct Eplot as [Eplot Ecos].
  apply orb_false_iff in Eplot. destruct Eplot as [Eeq Esin]. auto.
Qed.

(** ** What the agent branch takes from the conversation *)






End Routing.

Lemma no_agent_fixed_answer_witness :
  handle {| lower := ascii_lower; float_repr := fun lx => lx; graph := None;
            plot_with_matplotlib := plot_with_matplotlib example_externals;
            calculator := calculator example_externals;
            play_chess_battle := play_chess_battle example_externals;
            run_agent_psych_test := run_agent_psych_test example_externals;
            play_music := play_music example_externals;
            song_search := song_search example_externals;
            local_tool_call := local_tool_call example_externals;
            loads_raises := loads_raises example_externals;
            dumps_indent_raises := dumps_indent_raises example_externals;
            dumps_raises := dumps_raises example_externals;
            py_str := py_str example_externals;
            stdout_encodes := stdout_encodes example_externals |}
         (U "Hello there") [WriteBlocked]
  = ([], [WriteBlocked], Some (U "Agent not initialized")).
Proof.
  apply no_agent_fixed_answer; [reflexivity|].
  intros word Hin. cbn in Hin.
  repeat (destruct Hin as [Hin|Hin]; [subst word; vm_compute; reflexivity|]).
  destruct Hin.
Defined.

Lemma agent_is_last_resort_witness :
  graph example_externals <> None
  /\ contains (U "chess") (lower example_externals (U "hello")) = false.
Proof.
  pose proof (@agent_is_last_resort example_externals (U "hello") []
                (Some (U "hello")) (or_introl eq_refl)) as H.
  split; [exact (proj1 (proj2 H)) | exact (proj1 (proj2 (proj2 H)))].
Defined.



(** * The start of [main] *)

Section StartupFacts.

Import Startup.

Lemma sort_desc_head {A} (key : A -> Z) (l : list A) :
  l <> [] ->
  exists pre h post rest,
    l = pre ++ h :: post
    /\ sort_desc key l = h :: rest
    /\ Forall (fun c => (key c < key h)%Z) pre
    /\ Forall (fun c => (key c <= key h)%Z) post.
Proof.
  induction l as [|x l IH]; [congruence|]. intros _.
  destruct l as [|y l].
  - exists [], x, [], []. repeat split; constructor.
  - destruct IH as (pre & h & post & rest & Hl & Hs & Hpre & Hpost);
      [discriminate|].
    change (sort_desc key (x :: y :: l))
      with (insert_desc key x (sort_desc key (y :: l))).
    rewrite Hs. cbn [insert_desc].
    destruct (Z.ltb_spec (key x) (key h)) as [Hlt|Hge].
    + exists (x :: pre), h, post, (insert_desc key x rest).
      rewrite Hl. repeat split; auto.
    + exists [], x, (y :: l), (h :: rest).
      repeat split; [constructor|]. rewrite Hl.
      apply Forall_app. split.
      * eapply Forall_impl; [|exact Hpre]. cbn. intros; lia.
      * constructor; [lia|].
        eapply Forall_impl; [|exact Hpost]. cbn. intros; lia.
Qed.

Lemma keyed_all (getmtime : str -> outcome Z) (mt : str -> Z)
      (l : list str) :
  (forall c, In c l -> getmtime c = Returned (mt c)) ->
  keyed getmtime l = Returned (map (fun c => (c, mt c)) l).
Proof.
  induction l as [|x l IH]; intros H; [reflexivity|].
  cbn [keyed map]. rewrite (H x) by (left; reflexivity).
  rewrite IH by (intros c Hc; apply H; right; exact Hc). reflexivity.
Qed.

(** X14: when every candidate can be stat-ed, [find_qemu_pty] returns a
    candidate that no other is newer than, and among those of the same
    time the one [glob] listed first: the candidates before it are
    strictly older, those after it are not newer. *)
Theorem find_qemu_pty_newest (candidates : list str)
        (getmtime : str -> outcome Z) (mt : str -> Z) :
  candidates <> [] ->
  (forall c, In c candidates -> getmtime c = Returned (mt c)) ->
  exists pre p post,
    candidates = pre ++ p :: post
    /\ find_qemu_pty candidates getmtime = Returned (Some p)
    /\ Forall (fun c => (mt c < mt p)%Z) pre
    /\ Forall (fun c => (mt c <= mt p)%Z) post.
Proof.
  intros Hne Hall. unfold find_qemu_pty.
  rewrite (keyed_all _ mt _ Hall).
  destruct (@sort_desc_head (str * Z) snd
              (map (fun c => (c, mt c)) candidates))
    as (pre' & h & post' & rest & Hl & Hs & Hpre & Hpost).
  { destruct candidates; [congruence | discriminate]. }
  apply map_eq_app in Hl. destruct Hl as (pre & tl & Hc & Hpre' & Htl).
  apply map_eq_cons in Htl. destruct Htl as (p & post & Htl & Hp & Hpost').
  subst tl pre' post' h. exists pre, p, post.
  rewrite Hs. cbn [map fst hd_error].
  rewrite Forall_map in Hpre, Hpost. cbn [snd] in Hpre, Hpost.
  destruct candidates; [congruence|]. auto.
Qed.

Lemma keyed_raises (getmtime : str -> outcome Z) (pre post : list str)
      (c e : str) :
  Forall (fun x => exists k, getmtime x = Returned k) pre ->
  getmtime c = Raised e ->
  keyed getmtime (pre ++ c :: post) = Raised e.
Proof.
  intros Hpre Hc. induction Hpre as [|x pre [k Hx] _ IH].
  - cbn [app keyed]. rewrite Hc. reflexivity.
  - cbn [app keyed]. rewrite Hx, IH. reflexivity.
Qed.

(** X15: auto-detection has no guard against a candidate that cannot
    be stat-ed: when the typed path is blank and [getmtime] raises for
    one of the candidates [glob] returned, as it does for a device that
    went away in between, the exception leaves [main]; the loop is not
    entered and no other candidate is tried. *)
Theorem vanished_candidate_ends_startup (h : Host) (line : str)
        (pre post : list str) (c e : str) :
  typed h = Returned line ->
  strip line = [] ->
  glob_ttys h = pre ++ c :: post ->
  Forall (fun x => exists k, getmtime h x = Returned k) pre ->
  getmtime h c = Raised e ->
  startup h = StartCrashed.
Proof.
  intros Ht Hs Hg Hpre Hc. unfold startup. rewrite Ht, Hs. cbn [is_empty].
  unfold find_qemu_pty. rewrite Hg.
  rewrite (keyed_raises _ _ _ Hpre Hc).
  destruct (pre ++ c :: post) eqn:E; [|reflexivity].
  destruct pre; discriminate.
Qed.

(** X16: the loop is entered only with a device path that is not
    empty, that existed when it was checked and that could be opened;
    it is the path typed, stripped, when that is not blank, and the
    auto-detected one only when the typed line is blank. *)
Theorem loop_needs_an_existing_device (h : Host) (p : str) (fd : Z) :
  startup h = Connected p fd ->
  p <> []
  /\ os_path_exists h p = true
  /\ os_open h p = Returned fd
  /\ exists line,
      typed h = Returned line
      /\ (strip line = p
          \/ (strip line = []
              /\ find_qemu_pty (glob_ttys h) (getmtime h)
                 = Returned (Some p))).
Proof.
  assert (Hopen : forall q, open_device h q = Connected p fd ->
                            q = p /\ os_path_exists h p = true
                            /\ os_open h p = Returned fd).
  { intros q. unfold open_device.
    destruct (os_path_exists h q) eqn:Ex; [|discriminate].
    destruct (os_open h q) as [fd'|] eqn:Eo; [|discriminate].
    intros H. inversion H; subst. auto. }
  unfold startup. destruct (typed h) as [line|]; [|discriminate].
  destruct (is_empty (strip line)) eqn:Eline.
  - destruct (find_qemu_pty (glob_ttys h) (getmtime h)) as [[q|]|] eqn:Ef;
      try discriminate.
    destruct (is_empty q) eqn:Eq; [discriminate|].
    intros H. destruct (Hopen _ H) as (-> & Hex & Hop).
    repeat split; auto.
    + destruct p; [discriminate | congruence].
    + exists line. split; [reflexivity|]. right.
      destruct (strip line); [auto | discriminate].
  - intros H. destruct (Hopen _ H) as (Hp & Hex & Hop).
    repeat split; auto.
    + rewrite <- Hp. destruct (strip line); [discriminate | congruence].
    + exists line. auto.
Qed.

End StartupFacts.

Lemma find_qemu_pty_newest_witness :
  exists pre p post,
    [U "/dev/ttys001"; U "/dev/ttys002"; U "/dev/ttys003"]
    = pre ++ p :: post
    /\ Startup.find_qemu_pty
         [U "/dev/ttys001"; U "/dev/ttys002"; U "/dev/ttys003"]
         (fun c => Returned
                     (if Str.eqb c (U "/dev/ttys001") then 5%Z else 7%Z))
       = Returned (Some p)
    /\ Forall (fun c => ((if Str.eqb c (U "/dev/ttys001") then 5 else 7)
                         < (if Str.eqb p (U "/dev/ttys001") then 5 else 7))%Z)
              pre
    /\ Forall (fun c => ((if Str.eqb c (U "/dev/ttys001") then 5 else 7)
                         <= (if Str.eqb p (U "/dev/ttys001") then 5 else 7))%Z)
              post.
Proof.
  apply (@find_qemu_pty_newest
           [U "/dev/ttys001"; U "/dev/ttys002"; U "/dev/ttys003"]
           (fun c => Returned
                       (if Str.eqb c (U "/dev/ttys001") then 5%Z else 7%Z))
           (fun c => if Str.eqb c (U "/dev/ttys001") then 5%Z else 7%Z)).
  - discriminate.
  - reflexivity.
Defined.

Lemma vanished_candidate_ends_startup_witness :
  Startup.startup
    {| Startup.typed := Returned (U "  ");
       Startup.glob_ttys := [U "/dev/ttys001"; U "/dev/ttys002"];
       Startup.getmtime :=
         fun c => if Str.eqb c (U "/dev/ttys001") then Returned 5%Z
                  else Raised (U "No such file or directory");
       Startup.os_path_exists := fun _ => true;
       Startup.os_open := fun _ => Returned 3%Z |}
  = Startup.StartCrashed.
Proof.
  apply (@vanished_candidate_ends_startup _ (U "  ") [U "/dev/ttys001"] []
           (U "/dev/ttys002") (U "No such file or directory")).
  - reflexivity.
  - reflexivity.
  - reflexivity.
  - constructor; [exists 5%Z; reflexivity | constructor].
  - reflexivity.
Defined.

Lemma loop_needs_an_existing_device_witness :
  Startup.os_path_exists
    {| Startup.typed := Returned (U " /dev/ttys004 ");
       Startup.glob_ttys := [];
       Startup.getmtime := fun _ => Returned 0%Z;
       Startup.os_path_exists := fun p => Str.eqb p (U "/dev/ttys004");
       Startup.os_open := fun _ => Returned 3%Z |}
    (U "/dev/ttys004") = true.
Proof.
  apply (@loop_needs_an_existing_device _ (U "/dev/ttys004") 3%Z).
  reflexivity.
Defined.

(** * The streaming writers of the tools *)

Section StreamFacts.

Import Stream.

Variable fr : str -> str.

Lemma write_all_unblocked (msg_str : str) (idx : list nat) :
  ascii_text msg_str ->
  write_all msg_str idx []
  = (flat_map paced (map (fun i => slice msg_str i (i + chunk_size)) idx),
     [], Some tt).
Proof.
  intros Ha. induction idx as [|i idx IH]; [reflexivity|].
  cbn [write_all map flat_map].
  rewrite (encode_ascii (ascii_text_slice i (i + chunk_size) Ha)).
  unfold bind at 1. cbn [os_write hd tl].
  unfold bind at 1. cbn [emit]. rewrite IH. reflexivity.
Qed.

Lemma write_all_cut (msg_str : str) (idx : list nat) (o : write_outcome) :
  ascii_text msg_str ->
  o <> WriteOk ->
  forall k w',
    k < List.length idx ->
    write_all msg_str idx (repeat WriteOk k ++ o :: w')
    = (flat_map paced
         (firstn k (map (fun i => slice msg_str i (i + chunk_size)) idx))
       ++ [Write (nth k (map (fun i => slice msg_str i (i + chunk_size))
                             idx) []) o],
       w', None).
Proof.
  intros Ha Ho. induction idx as [|i idx IH]; intros k w' Hk;
    [cbn in Hk; lia|].
  destruct k as [|k].
  - cbn [write_all map firstn flat_map nth repeat app].
    rewrite (encode_ascii (ascii_text_slice i (i + chunk_size) Ha)).
    destruct o; [congruence | reflexivity | reflexivity].
  - cbn [write_all map firstn flat_map nth repeat app].
    rewrite (encode_ascii (ascii_text_slice i (i + chunk_size) Ha)).
    unfold bind at 1. cbn [os_write hd tl].
    unfold bind at 1. cbn [emit].
    rewrite IH by (cbn in Hk; lia). reflexivity.
Qed.

(** The record of an envelope is ASCII text. *)
Lemma envelope_record_ascii (e : Envelope) :
  ascii_text (encode_record fr e).
Proof.
  unfold encode_record.
  apply ascii_text_app; [|repeat constructor; unfold NL; lia].
  cbn [dumps envelope_dict].
  constructor; [lia|]. apply ascii_text_app; [|repeat constructor; lia].
  repeat match goal with
         | |- ascii_text (?a ++ ?b) => apply (@ascii_text_app a b)
         | |- ascii_text (encode_string _) => apply encode_string_ascii
         | |- ascii_text (int_str _) =>
             apply printable_ascii, int_str_printable
         | |- ascii_text (U _) => solve [repeat constructor]
         end.
Qed.

Lemma stream_envelope_cut (e : Envelope) (k : nat) (o : write_outcome)
      (w' : world) :
  o <> WriteOk ->
  k < List.length (chunks (encode_record fr e)) ->
  stream fr (envelope_dict e) (repeat WriteOk k ++ o :: w')
  = (flat_map paced (firstn k (chunks (encode_record fr e)))
     ++ [Write (nth k (chunks (encode_record fr e)) []) o],
     w', Some tt).
Proof.
  intros Ho Hk. unfold stream, suppress. cbv zeta.
  change (dumps fr (PDict (envelope_dict e)) ++ [NL])
    with (encode_record fr e).
  unfold chunks in *. rewrite length_map in Hk.
  rewrite (@write_all_cut (encode_record fr e) _ o
             (envelope_record_ascii e) Ho k w' Hk).
  reflexivity.
Qed.

Lemma stream_envelope_delivered (e : Envelope) :
  stream fr (envelope_dict e) []
  = (flat_map paced (chunks (encode_record fr e)), [], Some tt).
Proof.
  unfold stream, suppress. cbv zeta.
  change (dumps fr (PDict (envelope_dict e)) ++ [NL])
    with (encode_record fr e).
  rewrite (@write_all_unblocked (encode_record fr e) _
             (envelope_record_ascii e)).
  reflexivity.
Qed.

(** X17: a chess update never raises, and it is given up at the first
    write that does not return: unlike the reply of the loop, a write
    that would block is not tried again.  The chunks before it have
    been written, the chunk that met the failure is attempted once, and
    nothing follows: not the rest of the record, not its newline. *)
Theorem chess_update_is_cut_at_first_failed_write
        (fd : Z) (payload : dict) (msg_id : Z) (k : nat)
        (o : write_outcome) (w' : world) :
  let record :=
    encode_record fr {| id := msg_id; target := U "kernel";
                        msg_type := U "gui_chess";
                        content := dumps fr (PDict payload) |} in
  o <> WriteOk ->
  k < List.length (chunks record) ->
  send_chess_update fr (set_pty_fd fd) payload msg_id
                    (repeat WriteOk k ++ o :: w')
  = (flat_map paced (firstn k (chunks record))
     ++ [Write (nth k (chunks record) []) o],
     w', Some tt)
  /\ forall w, result (send_chess_update fr (set_pty_fd fd) payload msg_id w)
               = Some tt.
Proof.
  intros record Ho Hk. split.
  - apply (@stream_envelope_cut
             {| id := msg_id; target := U "kernel";
                msg_type := U "gui_chess";
                content := dumps fr (PDict payload) |} k o w' Ho Hk).
  - intros w. cbn [send_chess_update set_pty_fd]. unfold stream, suppress.
    match goal with
    | |- result (match ?m with _ => _ end) = _ => destruct m as [[t w1] r]
    end.
    reflexivity.
Qed.

Hypothesis fr_printable : forall lx, printable_text (fr lx).

Lemma printable_scalar (s : str) : printable_text s -> Forall scalar s.
Proof.
  apply Forall_impl. intros c H. left. lia.
Qed.

(** X18: a chess update that meets no failing write is written whole,
    in chunks of 32 with the pause after each; what was written is one
    line, and read back as the loop reads its own input it decodes to
    an envelope addressed to the kernel, of type ["gui_chess"], with the
    id given, whose content is the JSON text of the payload. *)
Theorem chess_update_round_trip (fd : Z) (payload : dict) (msg_id : Z) :
  let e := {| id := msg_id; target := U "kernel";
              msg_type := U "gui_chess";
              content := dumps fr (PDict payload) |} in
  send_chess_update fr (set_pty_fd fd) payload msg_id []
  = (flat_map paced (chunks (encode_record fr e)), [], Some tt)
  /\ concat (chunks (encode_record fr e)) = encode_record fr e
  /\ feed [] (encode_record fr e)
     = ([], [dumps fr (PDict (envelope_dict e))])
  /\ decode_record (dumps fr (PDict (envelope_dict e)))
     = Some (envelope_dict e).
Proof.
  intros e.
  assert (Hv : valid_envelope e).
  { repeat split; cbn [target msg_type content e].
    - repeat (constructor; [left; reflexivity|]). constructor.
    - repeat (constructor; [left; reflexivity|]). constructor.
    - apply printable_scalar, dumps_printable, fr_printable. }
  split; [apply (stream_envelope_delivered e)|].
  split; [apply chunks_concat|].
  apply record_framed_and_decoded. exact Hv.
Qed.

End StreamFacts.

Section SendMsgFacts.

Import Stream.

Variable fr : str -> str.

(** X19: a message of the psychology test that meets no failing write
    is written whole; read back, it decodes to an envelope addressed to
    the shell, of type ["response"], with the second of the clock as its
    id and the text as it was given, whatever characters it holds. *)
Theorem send_msg_round_trip (fd now : Z) (text : str) :
  Forall scalar text ->
  let e := {| id := now; target := U "shell"; msg_type := U "response";
              content := text |} in
  send_msg fr (set_pty_fd fd) now text []
  = (flat_map paced (chunks (encode_record fr e)), [], Some tt)
  /\ concat (chunks (encode_record fr e)) = encode_record fr e
  /\ feed [] (encode_record fr e)
     = ([], [dumps fr (PDict (envelope_dict e))])
  /\ decode_record (dumps fr (PDict (envelope_dict e)))
     = Some (envelope_dict e).
Proof.
  intros Ht e.
  assert (Hv : valid_envelope e).
  { repeat split; cbn [target msg_type content e].
    - repeat (constructor; [left; reflexivity|]). constructor.
    - repeat (constructor; [left; reflexivity|]). constructor.
    - exact Ht. }
  split; [apply (stream_envelope_delivered fr e)|].
  split; [apply chunks_concat|].
  apply record_framed_and_decoded. exact Hv.
Qed.

End SendMsgFacts.

Lemma chess_update_is_cut_at_first_failed_write_witness :
  snd (fst (Stream.send_chess_update (fun lx => lx) (Stream.set_pty_fd 3)
              [(U "event", PStr (U "move"))] 7
              [WriteOk; WriteBlocked; WriteOk]))
  = [WriteOk]
  /\ result (Stream.send_chess_update (fun lx => lx) (Stream.set_pty_fd 3)
               [(U "event", PStr (U "move"))] 7
               [WriteOk; WriteBlocked; WriteOk])
     = Some tt.
Proof.
  assert (H := proj1 (@chess_update_is_cut_at_first_failed_write
                        (fun lx => lx) 3 [(U "event", PStr (U "move"))] 7
                        1 WriteBlocked [WriteOk]
                        ltac:(discriminate) ltac:(vm_compute; lia))).
  cbn [repeat app] in H. rewrite H. split; reflexivity.
Defined.

Lemma chess_update_round_trip_witness :
  decode_record
    (dumps (fun _ => U "0.5")
       (PDict (envelope_dict
                 {| id := 7; target := U "kernel";
                    msg_type := U "gui_chess";
                    content := dumps (fun _ => U "0.5")
                                 (PDict [(U "score", PFloat (U "0.5"))]) |})))
  = Some (envelope_dict
            {| id := 7; target := U "kernel"; msg_type := U "gui_chess";
               content := J "{'score': 0.5}" |}).
Proof.
  refine (proj2 (proj2 (proj2
            (@chess_update_round_trip (fun _ => U "0.5") _ 3
               [(U "score", PFloat (U "0.5"))] 7)))).
  intros _. repeat (constructor; [cbv; split; discriminate|]). constructor.
Defined.

Lemma send_msg_round_trip_witness :
  decode_record
    (dumps (fun lx => lx)
       (PDict (envelope_dict
                 {| id := 1700000000; target := U "shell";
                    msg_type := U "response";
                    content := [82; 111; 117; 110; 100; 32; 49; NL;
                                9989]%N |})))
  = Some (envelope_dict
            {| id := 1700000000; target := U "shell";
               msg_type := U "response";
               content := [82; 111; 117; 110; 100; 32; 49; NL; 9989]%N |}).
Proof.
  refine (proj2 (proj2 (proj2
            (@send_msg_round_trip (fun lx => lx) 3 1700000000
               [82; 111; 117; 110; 100; 32; 49; NL; 9989]%N _)))).
  repeat (constructor; [left; reflexivity|]). constructor.
Defined.

(** * The shell tool *)

Section ShellFacts.

Import Shell.

Variable run : str -> completion.
Variable listing : list str.

Lemma split_blank (s : str) :
  Forall (fun c => is_space c = true) s -> split s = [].
Proof.
  induction 1 as [|c s Hc _ IH]; [reflexivity|].
  cbn [split]. rewrite Hc. exact IH.
Qed.

Lemma split_cons (c : N) (s : str) :
  split (c :: s) =
  if is_space c then split s
  else
    match s with
    | [] => [[c]]
    | c' :: _ =>
        if is_space c' then [c] :: split s
        else
          match split s with
          | word :: words => (c :: word) :: words
          | [] => [[c]]
          end
    end.
Proof. reflexivity. Qed.

Lemma split_space (c : N) (s : str) :
  is_space c = true -> split (c :: s) = split s.
Proof. intros H. rewrite split_cons, H. reflexivity. Qed.

(** The first word of a text that begins with a word and a white-space
    character. *)
Lemma split_word (word : str) (sp : N) (tail : str) :
  word <> [] ->
  Forall (fun c => is_space c = false) word ->
  is_space sp = true ->
  split (word ++ sp :: tail) = word :: split tail.
Proof.
  intros Hne Hw Hsp. induction Hw as [|c word Hc Hw IH]; [congruence|].
  destruct word as [|c2 word].
  - cbn [app]. rewrite split_cons, Hc, Hsp.
    rewrite split_space by exact Hsp. reflexivity.
  - cbn [app]. rewrite split_cons, Hc.
    inversion Hw as [|? ? Hc2 _]; subst. rewrite Hc2.
    change (c2 :: word ++ sp :: tail) with ((c2 :: word) ++ sp :: tail).
    rewrite IH by discriminate. reflexivity.
Qed.

Lemma split_leading (lead s : str) :
  Forall (fun c => is_space c = true) lead -> split (lead ++ s) = split s.
Proof.
  induction 1 as [|c lead Hc _ IH]; [reflexivity|].
  cbn [app]. rewrite split_space by exact Hc. exact IH.
Qed.

Lemma allowed_is_word (name : str) :
  In name ALLOWED_COMMANDS ->
  name <> [] /\ Forall (fun c => is_space c = false) name
  /\ existsb (Str.eqb name) ALLOWED_COMMANDS = true.
Proof.
  unfold ALLOWED_COMMANDS. cbn [In]. intros H.
  repeat (destruct H as [<-|H];
          [split; [discriminate|];
           split; [repeat constructor | reflexivity]|]).
  destruct H.
Qed.

(** X20: the allow-list looks at the first word only: a command line
    that begins, after any white space, with an allowed command and a
    white-space character is handed to the shell whole and unchanged,
    whatever follows the first word. *)
Theorem allow_list_checks_first_word_only (lead name : str) (sp : N)
        (tail : str) :
  Forall (fun c => is_space c = true) lead ->
  In name ALLOWED_COMMANDS ->
  is_space sp = true ->
  fst (safe_shell_execute run listing (lead ++ name ++ sp :: tail))
  = [lead ++ name ++ sp :: tail].
Proof.
  intros Hlead Hin Hsp.
  destruct (allowed_is_word Hin) as (Hne & Hw & Hex).
  unfold safe_shell_execute.
  rewrite split_leading by exact Hlead.
  rewrite split_word by assumption.
  rewrite Hex. reflexivity.
Qed.

(** X21: an empty or blank command line runs nothing: the result is the
    refusal, with an empty command name, and [subprocess.run] is not
    called. *)
Theorem blank_command_is_refused (command : str) :
  Forall (fun c => is_space c = true) command ->
  safe_shell_execute run listing command
  = ([], Returned (not_allowed listing [])).
Proof.
  intros H. unfold safe_shell_execute. rewrite split_blank by exact H.
  reflexivity.
Qed.

End ShellFacts.

Lemma allow_list_checks_first_word_only_witness :
  fst (Shell.safe_shell_execute
         (fun _ => Shell.CompletedProcess [])
         Shell.ALLOWED_COMMANDS
         ([32%N] ++ U "ls" ++ 32%N :: U "; rm -rf /tmp/x"))
  = [[32%N] ++ U "ls" ++ 32%N :: U "; rm -rf /tmp/x"].
Proof.
  apply (@allow_list_checks_first_word_only
           (fun _ => Shell.CompletedProcess []) Shell.ALLOWED_COMMANDS
           [32%N] (U "ls") 32%N (U "; rm -rf /tmp/x")).
  - repeat constructor.
  - left. reflexivity.
  - reflexivity.
Defined.

Lemma blank_command_is_refused_witness :
  Shell.safe_shell_execute (fun _ => Shell.CompletedProcess [])
    Shell.ALLOWED_COMMANDS [32%N; 9%N]
  = ([], Returned (Shell.not_allowed Shell.ALLOWED_COMMANDS [])).
Proof.
  apply (@blank_command_is_refused (fun _ => Shell.CompletedProcess [])
           Shell.ALLOWED_COMMANDS [32%N; 9%N]).
  repeat constructor.
Defined.

(** * The analysis of a chess battle *)

Section ChessAnalysisFacts.

Import ChessAnalysis.

Variable lower : str -> str.

Lemma total_moves_strategy (a : analysis) (who line : str) :
  total_moves (append_strategy a who line) = total_moves a.
Proof. unfold append_strategy. destruct (Str.eqb who _); reflexivity. Qed.

Lemma winner_strategy (a : analysis) (who line : str) :
  winner (append_strategy a who line) = winner a.
Proof. unfold append_strategy. destruct (Str.eqb who _); reflexivity. Qed.

Lemma key_moves_strategy (a : analysis) (who line : str) :
  key_moves (append_strategy a who line) = key_moves a.
Proof. unfold append_strategy. destruct (Str.eqb who _); reflexivity. Qed.

Lemma turning_points_strategy (a : analysis) (who line : str) :
  turning_points (append_strategy a who line) = turning_points a.
Proof. unfold append_strategy. destruct (Str.eqb who _); reflexivity. Qed.

(** What one entry of the log does to the lists. *)
Lemma log_entry_keeps (a : analysis) (prev : Z) (e : entry) :
  total_moves (log_entry lower a prev e) = total_moves a
  /\ winner (log_entry lower a prev e) = winner a
  /\ (List.length (key_moves a) = List.length (turning_points a) ->
      List.length (key_moves (log_entry lower a prev e))
      = List.length (turning_points (log_entry lower a prev e)))
  /\ List.length (turning_points (log_entry lower a prev e))
     <= S (List.length (turning_points a)).
Proof.
  unfold log_entry. cbv zeta.
  destruct (contains (U "check") (lower (reason e))
            || contains (U "CHECK") (reason e));
    destruct (contains (U "capture") (lower (reason e))
              || contains (U "Captures") (reason e));
    destruct (200 <? Z.abs (score e - prev))%Z;
    cbn [append_turning_point total_moves winner key_moves turning_points];
    repeat (rewrite total_moves_strategy || rewrite winner_strategy
            || rewrite key_moves_strategy
            || rewrite turning_points_strategy);
    rewrite ?length_app; cbn [List.length];
    repeat split; auto; lia.
Qed.

Lemma log_entries_keeps (move_log : list entry) :
  forall (a : analysis) (prev : Z),
    total_moves (log_entries lower a prev move_log) = total_moves a
    /\ winner (log_entries lower a prev move_log) = winner a
    /\ (List.length (key_moves a) = List.length (turning_points a) ->
        List.length (key_moves (log_entries lower a prev move_log))
        = List.length (turning_points (log_entries lower a prev move_log)))
    /\ List.length (turning_points (log_entries lower a prev move_log))
       <= List.length move_log + List.length (turning_points a).
Proof.
  induction move_log as [|e move_log IH]; intros a prev;
    cbn [log_entries List.length]; [repeat split; auto|].
  destruct (log_entry_keeps a prev e) as (E1 & E2 & E3 & E4).
  destruct (IH (log_entry lower a prev e) (score e)) as (F1 & F2 & F3 & F4).
  rewrite F1, F2, E1, E2. repeat split; auto. lia.
Qed.

(** X22: the analysis of a game counts every logged move, always names
    a winner, lists at most five key moves and at most five lines of
    strategy for each side, and records at most one turning point per
    move; the key moves are as many as the turning points, up to five. *)
Theorem analysis_lists_are_bounded (g : game) (move_log : list entry) :
  let a := analyze_game lower g move_log in
  total_moves a = List.length move_log
  /\ winner a = Some (fst (verdict g))
  /\ List.length (key_moves a)
     = Nat.min 5 (List.length (turning_points a))
  /\ List.length (turning_points a) <= List.length move_log
  /\ List.length (white_strategy a) <= 5
  /\ List.length (black_strategy a) <= 5.
Proof.
  unfold analyze_game.
  set (a0 := {| total_moves := List.length move_log;
                winner := Some (fst (verdict g));
                winning_margin := snd (verdict g);
                key_moves := []; white_strategy := [];
                black_strategy := []; turning_points := [] |}).
  destruct (log_entries_keeps move_log a0 0) as (E1 & E2 & E3 & E4).
  cbn [total_moves winner key_moves turning_points white_strategy
       black_strategy].
  rewrite E1, E2, !length_firstn, (E3 eq_refl).
  cbn [a0 total_moves winner turning_points List.length] in *.
  repeat split; lia.
Qed.

End ChessAnalysisFacts.

(** * The result of a chess battle, classified *)

Section BattleResult.

Import Stream.

Variable fr : str -> str.

(** A text that begins with [p], cut at a character [p] does not hold:
    [p] lies before the cut. *)
Lemma startswith_before (p x : str) (c : N) (y : str) :
  ~ In c p -> startswith p (x ++ c :: y) = true -> startswith p x = true.
Proof.
  revert x. induction p as [|t p IH]; intros x Hc H; [reflexivity|].
  destruct x as [|a x]; cbn [app startswith] in *.
  - apply andb_true_iff in H. destruct H as [Ht _].
    apply N.eqb_eq in Ht. subst t. exfalso. apply Hc. left. reflexivity.
  - apply andb_true_iff in H. destruct H as [Ht H]. rewrite Ht.
    apply IH; [|exact H]. intros Hin. apply Hc. right. exact Hin.
Qed.

Lemma contains_cons_false (p : str) (c : N) (s : str) :
  contains p (c :: s) = false ->
  startswith p (c :: s) = false /\ contains p s = false.
Proof.
  cbn [contains]. intros H. apply orb_false_iff in H. exact H.
Qed.

Lemma match_tag_here_none (tag s : str) :
  startswith tag s = false -> match_tag_here tag s = None.
Proof.
  intros H. unfold match_tag_here.
  destruct (startswith (tag ++ [LBRACE]) s) eqn:E; [|reflexivity].
  apply startswith_app_l in E. congruence.
Qed.

(** The search for a tag passes over a text that does not hold the tag
    and ends with a character the tag does not hold. *)
Lemma re_search_tag_skips (tag pre : str) (c : N) (rest : str) :
  tag <> [] -> ~ In c tag -> contains tag pre = false ->
  re_search_tag tag (pre ++ c :: rest) = re_search_tag tag rest.
Proof.
  intros Hne Hc. induction pre as [|a pre IH]; intros Hpre.
  - cbn [app]. rewrite re_search_tag_cons.
    rewrite match_tag_here_none; [reflexivity|].
    destruct tag as [|t tag]; [congruence|]. cbn [startswith].
    destruct (N.eqb_spec t c) as [->|Hn]; [|reflexivity].
    exfalso. apply Hc. left. reflexivity.
  - apply contains_cons_false in Hpre. destruct Hpre as [Hst Hpre].
    cbn [app]. rewrite re_search_tag_cons.
    rewrite match_tag_here_none; [exact (IH Hpre)|].
    destruct (startswith tag (a :: pre ++ c :: rest)) eqn:E; [|reflexivity].
    change (a :: pre ++ c :: rest) with ((a :: pre) ++ c :: rest) in E.
    apply startswith_before in E; [congruence | exact Hc].
Qed.

(** X23: the result of a chess battle, a summary followed by the tag
    and the JSON text of the final payload, is answered with a reply of
    type ["gui_chess"] whose content is that JSON text and nothing
    else, provided the summary does not itself hold the chess tag and
    no tag of higher priority is found in the result: the summary never
    reaches the shell. *)
Theorem chess_battle_reply (summary : str) (final_payload : dict) :
  contains GUI_CHESS summary = false ->
  re_search_tag GUI_PIPELINE_DIAGRAM
                (battle_result fr summary final_payload) = None ->
  re_search_tag GUI_ML_DASHBOARD
                (battle_result fr summary final_payload) = None ->
  re_search_tag GUI_PLOT
                (battle_result fr summary final_payload) = None ->
  classify (battle_result fr summary final_payload)
  = (U "gui_chess", dumps fr (PDict final_payload)).
Proof.
  intros Hs H1 H2 H3. unfold classify. rewrite H1, H2, H3.
  assert (E : re_search_tag GUI_CHESS (battle_result fr summary final_payload)
              = Some (dumps fr (PDict final_payload))).
  { unfold battle_result. cbn [app].
    rewrite re_search_tag_skips;
      [| discriminate
       | cbv; intros H; repeat (destruct H as [H|H]; [discriminate|]);
         exact H
       | exact Hs].
    rewrite re_search_tag_cons.
    rewrite match_tag_here_none by reflexivity.
    cbn [dumps]. apply re_search_tag_exact. }
  rewrite E. reflexivity.
Qed.

End BattleResult.

Lemma chess_battle_reply_witness :
  classify (Stream.battle_result (fun lx => lx)
              (NL :: U "GAME COMPLETE!" ++ NL :: U "Winner: White")
              [(U "event", PStr (U "game_end"))])
  = (U "gui_chess", J "{'event': 'game_end'}").
Proof.
  apply (@chess_battle_reply (fun lx => lx)
           (NL :: U "GAME COMPLETE!" ++ NL :: U "Winner: White")
           [(U "event", PStr (U "game_end"))]);
    vm_compute; reflexivity.
Defined.

(** * The echo bridge *)

Section EchoFacts.

Variable format : pyval -> str.
Variable fr : str -> str.



End EchoFacts.


(** * The pipe bridge of the prototype *)

Section KernelBridgeFacts.

Import KernelBridge.

Variable process_command : nat -> str -> outcome str.

Lemma decode_one (c : N) :
  decode_ignore [c] = if (c <? 128)%N then [c] else [].
Proof.
  rewrite decode_ignore_cons.
  destruct (c <? 128)%N; [reflexivity|].
  destruct (c <? 194)%N; [reflexivity|].
  destruct (c <? 224)%N; [reflexivity|].
  destruct (c <? 240)%N; [reflexivity|].
  destruct (c <? 245)%N; reflexivity.
Qed.

Lemma eqb_one (c d : N) :
  d <> c -> (d < 128)%N ->
  Str.eqb (decode_ignore [c]) [d] = false.
Proof.
  intros Hne Hd. rewrite decode_one.
  destruct (c <? 128)%N; [|reflexivity].
  cbn [Str.eqb]. destruct (N.eqb_spec c d); [congruence | reflexivity].
Qed.

Lemma read_stream_console (n : nat) (byte : N) (rest : bytes)
      (line : list str) :
  byte <> 2%N ->
  read_stream process_command n (byte :: rest) line
  = (Console byte :: fst (read_stream process_command n rest line),
     snd (read_stream process_command n rest line)).
Proof.
  intros H. cbn [read_stream].
  destruct (N.eqb_spec byte 2); [congruence|].
  destruct (read_stream process_command n rest line). reflexivity.
Qed.

(** X25: the bytes that are not marked as input pass to the console,
    in order and unchanged, and leave the line being typed as it is. *)
Theorem console_bytes_pass_through (n : nat) (logs rest : bytes)
        (line : list str) :
  Forall (fun b => b <> 2%N) logs ->
  read_stream process_command n (logs ++ rest) line
  = (map Console logs ++ fst (read_stream process_command n rest line),
     snd (read_stream process_command n rest line)).
Proof.
  induction 1 as [|b logs Hb _ IH].
  - cbn [app map].
    destruct (read_stream process_command n rest line). reflexivity.
  - cbn [app map]. rewrite read_stream_console by exact Hb.
    rewrite IH. reflexivity.
Qed.

(** A byte of input that is no end of line and no backspace joins the
    line, as the character it decodes to. *)
Lemma read_stream_key (n : nat) (c : N) (rest : bytes) (line : list str) :
  c <> 10%N -> c <> 13%N -> c <> 8%N -> c <> 127%N ->
  read_stream process_command n (2%N :: c :: rest) line
  = read_stream process_command n rest (line ++ [decode_ignore [c]]).
Proof.
  intros H10 H13 H8 H127. cbn [read_stream N.eqb Pos.eqb].
  unfold NL. rewrite !eqb_one by (assumption || lia). reflexivity.
Qed.

(** X26: a character that is typed and then erased leaves no trace,
    whether or not its byte decodes to a character; a backspace on an
    empty line does nothing. *)
Theorem backspace_erases_last_key (n : nat) (c bs : N) (rest : bytes)
        (line : list str) :
  c <> 10%N -> c <> 13%N -> c <> 8%N -> c <> 127%N ->
  bs = 8%N \/ bs = 127%N ->
  read_stream process_command n (keys [c; bs] ++ rest) line
  = read_stream process_command n rest line
  /\ read_stream process_command n (keys [bs] ++ rest) []
     = read_stream process_command n rest [].
Proof.
  intros H10 H13 H8 H127 Hbs.
  assert (Hback : forall l,
             read_stream process_command n (2%N :: bs :: rest) l
             = read_stream process_command n rest
                 (match l with [] => [] | _ => pop l end)).
  { intros l. cbn [read_stream N.eqb Pos.eqb].
    destruct Hbs; subst bs; reflexivity. }
  split.
  - cbn [keys flat_map app]. rewrite read_stream_key by assumption.
    rewrite Hback. unfold pop. rewrite removelast_last.
    destruct line; reflexivity.
  - cbn [keys flat_map app]. rewrite Hback. reflexivity.
Qed.

Lemma read_stream_typed (n : nat) (text : str) (rest : bytes) :
  Forall (fun c => (c < 128)%N /\ c <> 10%N /\ c <> 13%N
                   /\ c <> 8%N /\ c <> 127%N) text ->
  forall line,
    read_stream process_command n (keys text ++ rest) line
    = read_stream process_command n rest
        (line ++ map (fun c => [c]) text).
Proof.
  induction 1 as [|c text (Hc & H10 & H13 & H8 & H127) _ IH]; intros line.
  - cbn [keys flat_map app map]. rewrite List.app_nil_r. reflexivity.
  - change (keys (c :: text) ++ rest)
      with (2%N :: c :: keys text ++ rest).
    rewrite read_stream_key by assumption. rewrite IH.
    rewrite decode_one. apply N.ltb_lt in Hc. rewrite Hc.
    cbn [map]. rewrite <- List.app_assoc. reflexivity.
Qed.

Lemma concat_singletons (text : str) :
  concat (map (fun c => [c]) text) = text.
Proof. induction text as [|c text IH]; cbn; congruence. Qed.

(** X27: a line typed in the kernel, character by character and ended
    by a newline or a carriage return, becomes one command: the text
    stripped; the answer is written to the pipe with its newlines sent
    as carriage return and newline, followed by the prompt, and the
    next line starts empty. *)
Theorem typed_line_is_one_command (n : nat) (text : str) (nl : N)
        (rest : bytes) (response : str) (data : bytes) :
  Forall (fun c => (c < 128)%N /\ c <> 10%N /\ c <> 13%N
                   /\ c <> 8%N /\ c <> 127%N) text ->
  nl = 10%N \/ nl = 13%N ->
  strip text <> [] ->
  process_command n (strip text) = Returned response ->
  encode (crlf response ++ [13; 10; 62; 32]%N) = Some data ->
  read_stream process_command n (keys text ++ keys [nl] ++ rest) []
  = (Command (strip text) :: Stdin data
     :: fst (read_stream process_command (S n) rest []),
     snd (read_stream process_command (S n) rest [])).
Proof.
  intros Htext Hnl Hne Hpc Henc.
  rewrite read_stream_typed by exact Htext.
  cbn [app keys flat_map].
  assert (Heol : Str.eqb (decode_ignore [nl]) [NL]
                 || Str.eqb (decode_ignore [nl]) [13%N] = true)
    by (destruct Hnl; subst nl; reflexivity).
  cbn [read_stream N.eqb Pos.eqb]. rewrite Heol.
  rewrite concat_singletons.
  destruct (strip text) as [|x cmd] eqn:Es; [congruence|].
  cbn [is_empty]. rewrite Hpc.
  unfold NL in *. rewrite Henc.
  destruct (read_stream process_command (S n) rest []). reflexivity.
Qed.

End KernelBridgeFacts.

Lemma console_bytes_pass_through_witness :
  KernelBridge.read_stream (fun _ _ => Returned []) 0
    ([72; 105]%N ++ KernelBridge.keys [NL]) []
  = (map KernelBridge.Console [72; 105]%N
     ++ [KernelBridge.Stdin [13; 10; 62; 32]%N], false).
Proof.
  apply (@console_bytes_pass_through (fun _ _ => Returned []) 0
           [72; 105]%N (KernelBridge.keys [NL]) []).
  repeat (constructor; [discriminate|]). constructor.
Defined.

Lemma backspace_erases_last_key_witness :
  KernelBridge.read_stream (fun _ c => Returned c) 0
    (KernelBridge.keys [120; 8]%N ++ KernelBridge.keys (U "ls" ++ [NL])) []
  = KernelBridge.read_stream (fun _ c => Returned c) 0
      (KernelBridge.keys (U "ls" ++ [NL])) [].
Proof.
  apply (@backspace_erases_last_key (fun _ c => Returned c) 0 120%N 8%N
           (KernelBridge.keys (U "ls" ++ [NL])) []);
    try discriminate.
  left. reflexivity.
Defined.

Lemma typed_line_is_one_command_witness :
  KernelBridge.read_stream
    (fun _ c => Returned (U "you said " ++ c ++ [NL] ++ U "ok")) 0
    (KernelBridge.keys (U " ls ") ++ KernelBridge.keys [13%N] ++ []) []
  = ([KernelBridge.Command (U "ls");
      KernelBridge.Stdin (U "you said ls" ++ [13; 10]%N ++ U "ok"
                          ++ [13; 10; 62; 32]%N)],
     false).
Proof.
  apply (@typed_line_is_one_command
           (fun _ c => Returned (U "you said " ++ c ++ [NL] ++ U "ok")) 0
           (U " ls ") 13%N [] (U "you said ls" ++ [NL] ++ U "ok")
           (U "you said ls" ++ [13; 10]%N ++ U "ok" ++ [13; 10; 62; 32]%N)).
  - repeat (constructor; [cbv; repeat split; discriminate|]). constructor.
  - right. reflexivity.
  - discriminate.
  - reflexivity.
  - reflexivity.
Defined.
